(** * typed-sse: receiver hook, server connection and connection registry

    A shallow embedding of the TypeScript sources of the typed-sse
    repository:

    - [packages/react/src/utils.ts]  ([safeParseJson], [isReservedEvent],
      [buildUrl]);
    - the [useEventSource] hook (listener registry, connection state machine,
      reconnect policy);
    - [packages/server/src/client.ts] ([SSEClient]) and the two versions of
      [SSEManager] that the sources contain.

    JavaScript strings are modelled by [string] (the UTF-8 bytes of the
    text, so that [TextEncoder.encode] is the identity), JavaScript numbers
    that the code uses as counters and delays by [Z], [Map] objects by
    [gmap] (nothing in the code depends on the order in which a [Map] is
    iterated: the connections of a fan-out do not share state and
    dispatchers are attached per name), a [Set] of handlers by the list of
    its elements in insertion order, and mutable objects that are shared
    between the registry and its callers by references into an explicit
    heap.  Informational [console.log] output is left out; what the code
    reports with [console.error] and [console.warn] is kept. *)

From Stdlib Require Import ZArith Lia Ascii String DecimalString.
From stdpp Require Import base option list gmap strings fin_maps fin_sets.

Local Open Scope Z_scope.

(** ** Platform functions (ECMAScript built-ins used by the sources) *)

Module Js.

Definition dquote : ascii := ascii_of_nat 34.
Definition backslash : ascii := ascii_of_nat 92.
Definition LF : ascii := ascii_of_nat 10.
Definition CR : ascii := ascii_of_nat 13.
Definition TAB : ascii := ascii_of_nat 9.
Definition BS : ascii := ascii_of_nat 8.
Definition FF : ascii := ascii_of_nat 12.

Definition nl : string := String LF EmptyString.

(** [Array.prototype.join] on an array of strings. *)
Fixpoint join (sep : string) (l : list string) : string :=
  match l with
  | [] => ""
  | [x] => x
  | x :: rest => x +:+ sep +:+ join sep rest
  end.

(** Truthiness of a string value: only the empty string is falsy. *)
Definition truthy_str (s : string) : bool :=
  match s with EmptyString => false | String _ _ => true end.

(** Decimal rendering of an integer-valued number ([String(n)]). *)
Definition string_of_Z (n : Z) : string :=
  NilZero.string_of_int (Z.to_int n).

(** *** encodeURIComponent *)

Definition between (lo hi n : nat) : bool :=
  (Nat.leb lo n && Nat.leb n hi)%bool.

Definition is_alnum (c : ascii) : bool :=
  let n := nat_of_ascii c in
  (between 48 57 n || between 65 90 n || between 97 122 n)%bool.

(** The characters [encodeURIComponent] leaves alone besides letters and
    digits: [- _ . ! ~ * ' ( )]. *)
Definition is_uri_mark (c : ascii) : bool :=
  let n := nat_of_ascii c in
  (Nat.eqb n 45 || Nat.eqb n 95 || Nat.eqb n 46 || Nat.eqb n 33 ||
   Nat.eqb n 126 || Nat.eqb n 42 || Nat.eqb n 39 || Nat.eqb n 40 ||
   Nat.eqb n 41)%bool.

Definition uri_unreserved (c : ascii) : bool :=
  (is_alnum c || is_uri_mark c)%bool.

Definition hex_digit (n : nat) : ascii :=
  if Nat.ltb n 10 then ascii_of_nat (48 + n) else ascii_of_nat (55 + n).

Definition percent_byte (c : ascii) : string :=
  let n := nat_of_ascii c in
  String "%" (String (hex_digit (n / 16)) (String (hex_digit (n mod 16)) "")).

Fixpoint encodeURIComponent (s : string) : string :=
  match s with
  | EmptyString => ""
  | String c rest =>
      (if uri_unreserved c then String c "" else percent_byte c)
        +:+ encodeURIComponent rest
  end.

(** *** JSON values

    Objects are given by their own enumerable properties in property
    order.  Integer-valued numbers are [JNum]; a numeric literal with a
    fraction or an exponent is kept as its text ([JNumLit]), since IEEE
    doubles are not modelled. *)

#[local] Set Warnings "-register-all".

Inductive json :=
| JNull
| JBool (b : bool)
| JNum (n : Z)
| JNumLit (lit : string)
| JStr (s : string)
| JArr (items : list json)
| JObj (props : list (string * json)).

(** *** JSON.stringify *)

Definition hex_digit_lower (n : nat) : ascii :=
  if Nat.ltb n 10 then ascii_of_nat (48 + n) else ascii_of_nat (87 + n).

Definition quote_char (c : ascii) : string :=
  let n := nat_of_ascii c in
  if Nat.eqb n 34 then String backslash (String dquote "")
  else if Nat.eqb n 92 then String backslash (String backslash "")
  else if Nat.eqb n 8 then String backslash "b"
  else if Nat.eqb n 12 then String backslash "f"
  else if Nat.eqb n 10 then String backslash "n"
  else if Nat.eqb n 13 then String backslash "r"
  else if Nat.eqb n 9 then String backslash "t"
  else if Nat.ltb n 32 then
    String backslash
      ("u00" +:+ String (hex_digit_lower (n / 16))
                   (String (hex_digit_lower (n mod 16)) ""))
  else String c "".

Fixpoint quote_body (s : string) : string :=
  match s with
  | EmptyString => ""
  | String c rest => quote_char c +:+ quote_body rest
  end.

Definition quote (s : string) : string :=
  String dquote (quote_body s +:+ String dquote "").

Fixpoint stringify (v : json) : string :=
  match v with
  | JNull => "null"
  | JBool true => "true"
  | JBool false => "false"
  | JNum n => string_of_Z n
  | JNumLit lit => lit
  | JStr s => quote s
  | JArr items => "[" +:+ join "," (map stringify items) +:+ "]"
  | JObj props =>
      "{" +:+ join ","
               (map (fun '(k, x) => quote k +:+ ":" +:+ stringify x) props)
          +:+ "}"
  end.

(** *** JSON.parse

    A recursive-descent reader of the JSON grammar; [None] stands for the
    [SyntaxError] that [JSON.parse] throws. *)

Definition is_ws (c : ascii) : bool :=
  let n := nat_of_ascii c in
  (Nat.eqb n 32 || Nat.eqb n 9 || Nat.eqb n 10 || Nat.eqb n 13)%bool.

Fixpoint skip_ws (s : string) : string :=
  match s with
  | String c rest => if is_ws c then skip_ws rest else s
  | EmptyString => s
  end.

Definition is_digit (c : ascii) : bool := between 48 57 (nat_of_ascii c).

Fixpoint take_digits (s : string) : string * string :=
  match s with
  | String c rest =>
      if is_digit c then
        let '(ds, r) := take_digits rest in (String c ds, r)
      else ("", s)
  | EmptyString => ("", s)
  end.

Fixpoint digits_value (acc : Z) (ds : string) : Z :=
  match ds with
  | EmptyString => acc
  | String c rest =>
      digits_value (10 * acc + Z.of_nat (nat_of_ascii c - 48)) rest
  end.

Definition hex_value (c : ascii) : option nat :=
  let n := nat_of_ascii c in
  if between 48 57 n then Some (n - 48)%nat
  else if between 65 70 n then Some (n - 55)%nat
  else if between 97 102 n then Some (n - 87)%nat
  else None.

(** UTF-8 bytes of a code unit below 0x10000. *)
Definition utf8_of_code (n : nat) : string :=
  if Nat.ltb n 128 then String (ascii_of_nat n) ""
  else if Nat.ltb n 2048 then
    String (ascii_of_nat (192 + n / 64))
      (String (ascii_of_nat (128 + n mod 64)) "")
  else
    String (ascii_of_nat (224 + n / 4096))
      (String (ascii_of_nat (128 + (n / 64) mod 64))
         (String (ascii_of_nat (128 + n mod 64)) "")).

Definition simple_escape (e : ascii) : option ascii :=
  let n := nat_of_ascii e in
  if Nat.eqb n 34 then Some dquote
  else if Nat.eqb n 92 then Some backslash
  else if Nat.eqb n 47 then Some e
  else if Nat.eqb n 98 then Some BS
  else if Nat.eqb n 102 then Some FF
  else if Nat.eqb n 110 then Some LF
  else if Nat.eqb n 114 then Some CR
  else if Nat.eqb n 116 then Some TAB
  else None.

(** The text of a string literal after its opening quote: the decoded
    string and what follows the closing quote. *)
Fixpoint parse_string_body (s : string) : option (string * string) :=
  match s with
  | EmptyString => None
  | String c rest =>
      if Nat.eqb (nat_of_ascii c) 34 then Some ("", rest)
      else if Nat.eqb (nat_of_ascii c) 92 then
        match rest with
        | String e rest' =>
            if Nat.eqb (nat_of_ascii e) 117 then
              match rest' with
              | String h1 (String h2 (String h3 (String h4 rest''))) =>
                  match hex_value h1, hex_value h2, hex_value h3, hex_value h4 with
                  | Some a, Some b, Some c', Some d =>
                      match parse_string_body rest'' with
                      | Some (body, r) =>
                          Some (utf8_of_code (a * 4096 + b * 256 + c' * 16 + d)
                                  +:+ body, r)
                      | None => None
                      end
                  | _, _, _, _ => None
                  end
              | _ => None
              end
            else
              match simple_escape e with
              | Some x =>
                  match parse_string_body rest' with
                  | Some (body, r) => Some (String x body, r)
                  | None => None
                  end
              | None => None
              end
        | EmptyString => None
        end
      else if Nat.ltb (nat_of_ascii c) 32 then None
      else
        match parse_string_body rest with
        | Some (body, r) => Some (String c body, r)
        | None => None
        end
  end.

(** A number literal: an optional minus sign, an integer part without
    leading zero, an optional fraction and an optional exponent. *)
Definition parse_number (s : string) : option (json * string) :=
  let '(neg, s1) :=
    match s with
    | String "-" r => (true, r)
    | _ => (false, s)
    end in
  let '(int_part, s2) := take_digits s1 in
  let int_ok :=
    match int_part with
    | EmptyString => false
    | String "0" (String _ _) => false
    | _ => true
    end in
  if negb int_ok then None else
  let frac :=
    match s2 with
    | String "." r => let '(f, r') := take_digits r in Some (f, r')
    | _ => None
    end in
  match frac with
  | Some (EmptyString, _) => None
  | _ =>
      let s3 := match frac with Some (_, r) => r | None => s2 end in
      let frac_text := match frac with Some (f, _) => "." +:+ f | None => "" end in
      let expo :=
        match s3 with
        | String e r =>
            if (Nat.eqb (nat_of_ascii e) 101 || Nat.eqb (nat_of_ascii e) 69)%bool then
              let '(sign, r1) :=
                match r with
                | String "+" r' => ("+", r')
                | String "-" r' => ("-", r')
                | _ => ("", r)
                end in
              let '(ds, r2) := take_digits r1 in
              Some (String e (sign +:+ ds), ds, r2)
            else None
        | EmptyString => None
        end in
      match expo with
      | Some (_, EmptyString, _) => None
      | Some (exp_text, _, r) =>
          Some (JNumLit ((if neg then "-" else "") +:+ int_part +:+ frac_text
                           +:+ exp_text), r)
      | None =>
          match frac with
          | Some _ =>
              Some (JNumLit ((if neg then "-" else "") +:+ int_part +:+ frac_text), s3)
          | None =>
              let n := digits_value 0 int_part in
              Some (JNum (if neg then - n else n), s3)
          end
      end
  end.

(** The literal [lit] at the head of [s]. *)
Fixpoint strip_prefix (lit s : string) : option string :=
  match lit, s with
  | EmptyString, _ => Some s
  | String a lit', String b s' =>
      if Ascii.eqb a b then strip_prefix lit' s' else None
  | String _ _, EmptyString => None
  end.

(** Defining a property on the object under construction: a repeated key
    keeps its place and takes the later value. *)
Fixpoint set_prop (k : string) (x : json) (props : list (string * json))
  : list (string * json) :=
  match props with
  | [] => [(k, x)]
  | (k', x') :: rest =>
      if String.eqb k k' then (k, x) :: rest else (k', x') :: set_prop k x rest
  end.

Fixpoint parse_value (fuel : nat) (s : string) : option (json * string) :=
  match fuel with
  | O => None
  | S fuel' =>
      let parse_items :=
        fix parse_items (n : nat) (acc : list json) (s : string)
          : option (json * string) :=
          match n with
          | O => None
          | S n' =>
              match parse_value fuel' (skip_ws s) with
              | Some (x, r) =>
                  match skip_ws r with
                  | String "," r' => parse_items n' (acc ++ [x])%list r'
                  | String "]" r' => Some (JArr (acc ++ [x])%list, r')
                  | _ => None
                  end
              | None => None
              end
          end in
      let parse_members :=
        fix parse_members (n : nat) (acc : list (string * json)) (s : string)
          : option (json * string) :=
          match n with
          | O => None
          | S n' =>
              match skip_ws s with
              | String q r0 =>
                  if Nat.eqb (nat_of_ascii q) 34 then
                    match parse_string_body r0 with
                    | Some (k, r1) =>
                        match skip_ws r1 with
                        | String ":" r2 =>
                            match parse_value fuel' (skip_ws r2) with
                            | Some (x, r3) =>
                                match skip_ws r3 with
                                | String "," r' => parse_members n' (set_prop k x acc) r'
                                | String "}" r' => Some (JObj (set_prop k x acc), r')
                                | _ => None
                                end
                            | None => None
                            end
                        | _ => None
                        end
                    | None => None
                    end
                  else None
              | EmptyString => None
              end
          end in
      match s with
      | EmptyString => None
      | String c rest =>
          let n := nat_of_ascii c in
          if Nat.eqb n 34 then
            match parse_string_body rest with
            | Some (body, r) => Some (JStr body, r)
            | None => None
            end
          else if Nat.eqb n 91 then
            match skip_ws rest with
            | String "]" r => Some (JArr [], r)
            | _ => parse_items fuel' [] rest
            end
          else if Nat.eqb n 123 then
            match skip_ws rest with
            | String "}" r => Some (JObj [], r)
            | _ => parse_members fuel' [] rest
            end
          else if (Nat.eqb n 45 || is_digit c)%bool then parse_number s
          else
            match strip_prefix "null" s, strip_prefix "true" s, strip_prefix "false" s with
            | Some r, _, _ => Some (JNull, r)
            | _, Some r, _ => Some (JBool true, r)
            | _, _, Some r => Some (JBool false, r)
            | _, _, _ => None
            end
      end
  end.

(** [JSON.parse(text)]: one value between optional white space.  Every
    recursive call of the reader consumes a character, so the length of
    the text bounds the depth and the number of items it needs. *)
Definition parse (text : string) : option json :=
  match parse_value (S (String.length text)) (skip_ws text) with
  | Some (x, r) =>
      match skip_ws r with
      | EmptyString => Some x
      | String _ _ => None
      end
  | None => None
  end.

End Js.

(** ** packages/react/src/utils.ts *)

Module Utils.

(** [try { return JSON.parse(raw) } catch { return raw }] *)
Definition safeParseJson (raw : string) : Js.json :=
  match Js.parse raw with
  | Some x => x
  | None => Js.JStr raw
  end.

(** [eventName === "open" || eventName === "error" || eventName === "message"] *)
Definition isReservedEvent (eventName : string) : bool :=
  (String.eqb eventName "open" || String.eqb eventName "error"
   || String.eqb eventName "message")%bool.

(** A value of a [query] record: [string | null | undefined]. *)
Inductive QueryValue :=
| QString (s : string)
| QNull
| QUndefined.

(** [UrlOptions]: [query] is given by its entries in [Object.entries]
    order; [None] stands for an absent [query] property. *)
Record UrlOptions := {
  url : string;
  query : option (list (string * QueryValue));
}.

(** [string | UrlOptions] *)
Inductive UrlInput :=
| UrlString (s : string)
| UrlObject (o : UrlOptions).

(** [v != null] *)
Definition not_nullish (v : QueryValue) : bool :=
  match v with QString _ => true | QNull | QUndefined => false end.

(** [String(v)]; the two nullish cases never reach it in [buildUrl]. *)
Definition String_of (v : QueryValue) : string :=
  match v with
  | QString s => s
  | QNull => "null"
  | QUndefined => "undefined"
  end.

Definition encode_entry (e : string * QueryValue) : string :=
  Js.encodeURIComponent (fst e) +:+ "=" +:+ Js.encodeURIComponent (String_of (snd e)).

Definition buildUrl (urlInput : UrlInput) : string :=
  match urlInput with
  | UrlString s => s
  | UrlObject o =>
      let query :=
        Js.join "&"
          (map encode_entry
             (filter (fun e => not_nullish (snd e) = true)
                (default [] (query o)))) in
      url o +:+ (if Js.truthy_str query then "?" +:+ query else "")
  end.

End Utils.

(** ** packages/server/src: types.ts, client.ts *)

Module Server.

(** [ServerEvent]: [{event?, data, id?, retry?}]; [None] is [undefined]. *)
Record ServerEvent := {
  event : option string;
  data : option Js.json;
  evt_id : option string;
  retry : option Z;
}.

(** *** The write end of the connection's [TransformStream] *)

Inductive WriterStatus := Writable | WriterClosed | WriterErrored.

Record Writer := {
  w_status : WriterStatus;
  w_chunks : list string;   (* what has been written to the pipe, in order *)
}.

(** How a promise settles. *)
Inductive Completion := Fulfilled | Rejected.

(** [writer.write(buf)]: rejects unless the stream is writable. *)
Definition writer_write (buf : string) (w : Writer) : Completion * Writer :=
  match w_status w with
  | Writable => (Fulfilled, {| w_status := Writable; w_chunks := (w_chunks w ++ [buf])%list |})
  | _ => (Rejected, w)
  end.

(** [writer.close()]: rejects when the stream is already closed or errored. *)
Definition writer_close (w : Writer) : Completion * Writer :=
  match w_status w with
  | Writable => (Fulfilled, {| w_status := WriterClosed; w_chunks := w_chunks w |})
  | _ => (Rejected, w)
  end.

(** The peer going away errors the stream (done by the transport, not by
    the connection). *)
Definition writer_abort (w : Writer) : Writer :=
  match w_status w with
  | Writable => {| w_status := WriterErrored; w_chunks := w_chunks w |}
  | _ => w
  end.

(** *** class SSEClient

    [sessionId] is not a property of the class: it is what reading
    [client.sessionId] yields ([None] for [undefined], the value for every
    instance the constructor builds); the manager that [client.ts] embeds
    reads it. *)
Record SSEClient := {
  id : string;
  userId : option string;
  sessionId : option string;
  writer : Writer;
  heartbeat : option Z;     (* the interval timer, with its period *)
  closed : bool;
}.

Definition set_writer (w : Writer) (c : SSEClient) : SSEClient :=
  {| id := id c; userId := userId c; sessionId := sessionId c;
     writer := w; heartbeat := heartbeat c; closed := closed c |}.

Definition set_heartbeat (t : option Z) (c : SSEClient) : SSEClient :=
  {| id := id c; userId := userId c; sessionId := sessionId c;
     writer := writer c; heartbeat := t; closed := closed c |}.

Definition set_closed (b : bool) (c : SSEClient) : SSEClient :=
  {| id := id c; userId := userId c; sessionId := sessionId c;
     writer := writer c; heartbeat := heartbeat c; closed := b |}.

(** [SSEClientOptions] *)
Record SSEClientOptions := { opt_userId : option string }.

(** The constructor; [uuid] is the result of [crypto.randomUUID()]. *)
Definition new_SSEClient (uuid : string) (options : option SSEClientOptions)
  : SSEClient :=
  {| id := uuid;
     userId := match options with Some o => opt_userId o | None => None end;
     sessionId := None;
     writer := {| w_status := Writable; w_chunks := [] |};
     heartbeat := None;
     closed := false |}.

Definition formatMessage (sseEvent : ServerEvent) : string :=
  let chunk := "" in
  let chunk :=
    match evt_id sseEvent with
    | Some i => if Js.truthy_str i then chunk +:+ "id: " +:+ i +:+ Js.nl else chunk
    | None => chunk
    end in
  let chunk :=
    match event sseEvent with
    | Some e => if Js.truthy_str e then chunk +:+ "event: " +:+ e +:+ Js.nl else chunk
    | None => chunk
    end in
  let chunk :=
    match retry sseEvent with
    | Some ms =>
        if Z.eqb ms 0 then chunk
        else chunk +:+ "retry: " +:+ Js.string_of_Z ms +:+ Js.nl
    | None => chunk
    end in
  let chunk :=
    match data sseEvent with
    | Some d =>
        let serialized :=
          match d with
          | Js.JStr text => text
          | _ => Js.stringify d
          end in
        chunk +:+ "data: " +:+ serialized +:+ Js.nl
    | None => chunk
    end in
  chunk +:+ Js.nl.

Definition stopHeartbeat (c : SSEClient) : SSEClient := set_heartbeat None c.

Definition isClosed (c : SSEClient) : bool := closed c.

Definition close (c : SSEClient) : Completion * SSEClient :=
  if closed c then (Fulfilled, c)
  else
    let c := set_closed true c in
    let c := stopHeartbeat c in
    (* try { await this.writer.close() } catch { } *)
    let '(_, w) := writer_close (writer c) in
    (Fulfilled, set_writer w c).

Definition writeRaw (buf : string) (c : SSEClient) : Completion * SSEClient :=
  if closed c then (Fulfilled, c)
  else
    match writer_write buf (writer c) with
    | (Fulfilled, w) => (Fulfilled, set_writer w c)
    | (Rejected, w) => close (set_writer w c)
    end.

Definition send (evt : ServerEvent) (c : SSEClient) : Completion * SSEClient :=
  writeRaw (formatMessage evt) c.

(** [now] is the value of [Date.now()]. *)
Definition ping (now : Z) (c : SSEClient) : Completion * SSEClient :=
  writeRaw (": ping " +:+ Js.string_of_Z now +:+ Js.nl +:+ Js.nl) c.

Definition startHeartbeat (ms : Z) (c : SSEClient) : SSEClient :=
  let c := stopHeartbeat c in
  set_heartbeat (Some ms) c.

(** One tick of the interval timer:
    [this.ping().then(...).catch(() => this.close())]. *)
Definition heartbeat_tick (now : Z) (c : SSEClient) : SSEClient :=
  match ping now c with
  | (Fulfilled, c') => c'
  | (Rejected, c') => snd (close c')
  end.

(** What can be done to a connection: its public methods, a tick of its
    heartbeat timer, and the peer going away. *)
Inductive ClientOp :=
| OpSend (evt : ServerEvent)
| OpPing (now : Z)
| OpTick (now : Z)
| OpStartHeartbeat (ms : Z)
| OpStopHeartbeat
| OpClose
| OpPeerGone.

Definition apply_op (c : SSEClient) (op : ClientOp) : SSEClient :=
  match op with
  | OpSend evt => (send evt c).2
  | OpPing now => (ping now c).2
  | OpTick now => heartbeat_tick now c
  | OpStartHeartbeat ms => startHeartbeat ms c
  | OpStopHeartbeat => stopHeartbeat c
  | OpClose => (close c).2
  | OpPeerGone => set_writer (writer_abort (writer c)) c
  end.

(** *** Client objects are shared: the registry, the routing layer and the
    application hold references to the same connection. *)

Abbreviation Heap := (list SSEClient).
Abbreviation ref := nat.

(** A method call through a reference. *)
Definition call (m : SSEClient -> Completion * SSEClient) (r : ref) (h : Heap)
  : Completion * Heap :=
  match h !! r with
  | Some c => let '(k, c') := m c in (k, <[r := c']> h)
  | None => (Fulfilled, h)
  end.

(** [Promise.all] *)
Definition promise_all (l : list Completion) : Completion :=
  if forallb (fun k => match k with Fulfilled => true | Rejected => false end) l
  then Fulfilled else Rejected.

(** [targets.map((c) => c.send(event))]: every target's send is issued; the
    connections do not share state, so the order in which the pending
    writes settle does not matter. *)
Fixpoint send_each (evt : ServerEvent) (targets : list ref) (h : Heap)
  : list Completion * Heap :=
  match targets with
  | [] => ([], h)
  | r :: rest =>
      let '(k, h1) := call (send evt) r h in
      let '(ks, h2) := send_each evt rest h1 in
      (k :: ks, h2)
  end.

(** *** class SSEManager (the version with the per-user index) *)

Record SSEManager := {
  clientsById : gmap string ref;
  clientIdsByUser : gmap string (gset string);
}.

Definition new_SSEManager : SSEManager :=
  {| clientsById := ∅; clientIdsByUser := ∅ |}.

Definition addClient (client : ref) (h : Heap) (m : SSEManager) : SSEManager :=
  match h !! client with
  | None => m
  | Some c =>
      let byId := <[id c := client]> (clientsById m) in
      match userId c with
      | Some u =>
          if Js.truthy_str u then
            let set := default ∅ (clientIdsByUser m !! u) in
            {| clientsById := byId;
               clientIdsByUser := <[u := set ∪ {[id c]}]> (clientIdsByUser m) |}
          else {| clientsById := byId; clientIdsByUser := clientIdsByUser m |}
      | None => {| clientsById := byId; clientIdsByUser := clientIdsByUser m |}
      end
  end.

Definition createClient (uuid : string) (sseOptions : option SSEClientOptions)
    (h : Heap) (m : SSEManager) : ref * Heap * SSEManager :=
  let client := List.length h in
  let h := (h ++ [new_SSEClient uuid sseOptions])%list in
  (client, h, addClient client h m).

Definition removeClient (clientId : string) (h : Heap) (m : SSEManager)
  : Completion * Heap * SSEManager :=
  match clientsById m !! clientId with
  | None => (Fulfilled, h, m)
  | Some client =>
      let byId := delete clientId (clientsById m) in
      let byUser :=
        match userId <$> h !! client with
        | Some (Some u) =>
            if Js.truthy_str u then
              match clientIdsByUser m !! u with
              | Some set =>
                  let set := set ∖ {[clientId]} in
                  if Nat.eqb (size set) 0 then delete u (clientIdsByUser m)
                  else <[u := set]> (clientIdsByUser m)
              | None => clientIdsByUser m
              end
            else clientIdsByUser m
        | _ => clientIdsByUser m
        end in
      let '(k, h) := call close client h in
      (k, h, {| clientsById := byId; clientIdsByUser := byUser |})
  end.

Definition sendToClient (clientId : string) (evt : ServerEvent)
    (h : Heap) (m : SSEManager) : Completion * Heap :=
  match clientsById m !! clientId with
  | None => (Fulfilled, h)
  | Some client => call (send evt) client h
  end.

(** [this.clientsById.get(cid)?.send(event)] for every id of the user. *)
Definition sendToUser (user : string) (evt : ServerEvent)
    (h : Heap) (m : SSEManager) : Completion * Heap :=
  match clientIdsByUser m !! user with
  | None => (Fulfilled, h)
  | Some ids =>
      if Nat.eqb (size ids) 0 then (Fulfilled, h)
      else
        let targets := omap (fun cid => clientsById m !! cid) (elements ids) in
        let '(ks, h) := send_each evt targets h in
        (promise_all ks, h)
  end.

Definition broadcast (evt : ServerEvent) (h : Heap) (m : SSEManager)
  : Completion * Heap :=
  let targets := snd <$> map_to_list (clientsById m) in
  let '(ks, h) := send_each evt targets h in
  (promise_all ks, h).

Definition clientsCount (m : SSEManager) : nat := size (clientsById m).

Definition usersCount (m : SSEManager) : nat := size (clientIdsByUser m).

(** [this.clientsById.get(clientId)?.startHeartbeat(ms)] *)
Definition manager_startHeartbeat (clientId : string) (ms : Z)
    (h : Heap) (m : SSEManager) : Heap :=
  match clientsById m !! clientId with
  | None => h
  | Some client => snd (call (fun c => (Fulfilled, startHeartbeat ms c)) client h)
  end.

(** *** The states of a registry *)

(** The user a connection is registered for, by the test of [addClient]
    and [removeClient]: a [userId] that is truthy. *)
Definition user_of (c : SSEClient) : option string :=
  match userId c with
  | Some u => if Js.truthy_str u then Some u else None
  | None => None
  end.

(** Steps of a program that uses a registry: clients are constructed (with
    an identifier that [crypto.randomUUID] has not produced before),
    registered and removed, and anything may happen to the state of a
    connection (sends, heartbeats, closes, in any order and by any holder
    of a reference). *)
Inductive reachable : Heap -> SSEManager -> Prop :=
| reach_new : reachable [] new_SSEManager
| reach_construct h m uuid options :
    reachable h m ->
    uuid ∉ (id <$> h) ->
    reachable (h ++ [new_SSEClient uuid options]) m
| reach_addClient h m client :
    reachable h m ->
    is_Some (h !! client) ->
    reachable h (addClient client h m)
| reach_removeClient h m clientId :
    reachable h m ->
    reachable (removeClient clientId h m).1.2 (removeClient clientId h m).2
| reach_client_op h m client op c :
    reachable h m ->
    h !! client = Some c ->
    reachable (<[client := apply_op c op]> h) m.

(** The connections currently registered for a user. *)
Definition registered_for (u : string) (h : Heap) (m : SSEManager) : gset string :=
  dom (filter (fun kv => (h !! kv.2) ≫= user_of = Some u) (clientsById m)).

(** A sequence of registrations and removals. *)
Inductive RegistryOp :=
| RAdd (client : ref)
| RRemove (clientId : string).

Fixpoint run_ops (ops : list RegistryOp) (h : Heap) (m : SSEManager)
  : Heap * SSEManager :=
  match ops with
  | [] => (h, m)
  | RAdd client :: rest => run_ops rest h (addClient client h m)
  | RRemove clientId :: rest =>
      let '(_, h', m') := removeClient clientId h m in run_ops rest h' m'
  end.

(** What holds of every state of a registry: client objects have distinct
    ids, a connection is registered under its own id, and the per-user index
    lists, for every user with a registered connection, exactly the ids of
    these connections. *)
Record registry_inv (h : Heap) (m : SSEManager) : Prop := {
  inv_unique r1 r2 i :
    id <$> h !! r1 = Some i -> id <$> h !! r2 = Some i -> r1 = r2;
  inv_byId i r :
    clientsById m !! i = Some r -> id <$> h !! r = Some i;
  inv_byUser u :
    clientIdsByUser m !! u =
    if decide (registered_for u h m = ∅) then None else Some (registered_for u h m);
}.

End Server.

(** ** The SSEManager that the sources keep next to client.ts

    It has no per-user index.  Its map is commented [clientId -> client]
    and [removeClient], [startHeartbeat] and [sendToClient] look a client up
    by its id, but [addClient] registers it under [client.sessionId], which
    no [SSEClient] has: the key type is [option string], [None] being
    [undefined]. *)

Module Legacy.

Import Server.

Record SSEManager := {
  clientsById : gmap (option string) ref;
}.

Definition new_SSEManager : SSEManager := {| clientsById := ∅ |}.

Definition addClient (client : ref) (h : Heap) (m : SSEManager) : SSEManager :=
  match h !! client with
  | None => m
  | Some c => {| clientsById := <[sessionId c := client]> (clientsById m) |}
  end.

Definition createClient (uuid : string) (sseOptions : SSEClientOptions)
    (h : Heap) (m : SSEManager) : ref * Heap * SSEManager :=
  let client := List.length h in
  let h := (h ++ [new_SSEClient uuid (Some sseOptions)])%list in
  (client, h, addClient client h m).

Definition removeClient (clientId : string) (h : Heap) (m : SSEManager)
  : Completion * Heap * SSEManager :=
  match clientsById m !! Some clientId with
  | None => (Fulfilled, h, m)
  | Some client =>
      let byId := delete (Some clientId) (clientsById m) in
      let '(k, h) := call close client h in
      (k, h, {| clientsById := byId |})
  end.

Definition sendToClient (clientId : string) (evt : ServerEvent)
    (h : Heap) (m : SSEManager) : Completion * Heap :=
  match clientsById m !! Some clientId with
  | None => (Fulfilled, h)
  | Some client => call (send evt) client h
  end.

Definition broadcast (evt : ServerEvent) (h : Heap) (m : SSEManager)
  : Completion * Heap :=
  let targets := snd <$> map_to_list (clientsById m) in
  let '(ks, h) := send_each evt targets h in
  (promise_all ks, h).

Definition clientsCount (m : SSEManager) : nat := size (clientsById m).

Fixpoint run_ops (ops : list RegistryOp) (h : Heap) (m : SSEManager)
  : Heap * SSEManager :=
  match ops with
  | [] => (h, m)
  | RAdd client :: rest => run_ops rest h (addClient client h m)
  | RRemove clientId :: rest =>
      let '(_, h', m') := removeClient clientId h m in run_ops rest h' m'
  end.

End Legacy.

(** ** The transport: an SSE byte stream read as events

    What the platform's [EventSource] does with the bytes it receives (the
    event-stream interpretation of the HTML standard): lines are fields, a
    blank line dispatches the event assembled so far. *)

Module Transport.

(** [MessageEvent]: [type], [data], [lastEventId]. *)
Record MessageEvent := {
  me_type : string;
  me_data : string;
  me_lastEventId : string;
}.

(** The complete lines of a stream; LF, CR and CR LF end a line, an
    unterminated last line is dropped. *)
Fixpoint lines_from (cur : string) (s : string) : list string :=
  match s with
  | EmptyString => []
  | String c rest =>
      if Nat.eqb (nat_of_ascii c) 10 then cur :: lines_from "" rest
      else if Nat.eqb (nat_of_ascii c) 13 then
        match rest with
        | String c' rest' =>
            if Nat.eqb (nat_of_ascii c') 10 then cur :: lines_from "" rest'
            else cur :: lines_from "" rest
        | EmptyString => cur :: lines_from "" rest
        end
      else lines_from (cur +:+ String c "") rest
  end.

(** A line split at its first colon, one leading space of the value
    removed; [None] when the line has no colon. *)
Fixpoint split_colon (field : string) (s : string) : option (string * string) :=
  match s with
  | EmptyString => None
  | String c rest =>
      if Nat.eqb (nat_of_ascii c) 58 then
        Some (field, match rest with
                     | String " " v => v
                     | _ => rest
                     end)
      else split_colon (field +:+ String c "") rest
  end.

Fixpoint has_nul (s : string) : bool :=
  match s with
  | EmptyString => false
  | String c rest => (Nat.eqb (nat_of_ascii c) 0 || has_nul rest)%bool
  end.

Fixpoint drop_last_LF (s : string) : string :=
  match s with
  | EmptyString => ""
  | String c EmptyString => if Nat.eqb (nat_of_ascii c) 10 then "" else s
  | String c rest => String c (drop_last_LF rest)
  end.

Record Buffers := {
  buf_data : string;
  buf_type : string;
  buf_id : string;       (* the last event ID buffer, kept between events *)
}.

Definition process_field (field value : string) (b : Buffers) : Buffers :=
  if String.eqb field "event" then
    {| buf_data := buf_data b; buf_type := value; buf_id := buf_id b |}
  else if String.eqb field "data" then
    {| buf_data := buf_data b +:+ value +:+ Js.nl; buf_type := buf_type b;
       buf_id := buf_id b |}
  else if String.eqb field "id" then
    if has_nul value then b
    else {| buf_data := buf_data b; buf_type := buf_type b; buf_id := value |}
  else b.

Fixpoint interpret (ls : list string) (b : Buffers) : list MessageEvent :=
  match ls with
  | [] => []
  | l :: rest =>
      match l with
      | EmptyString =>
          let b' := {| buf_data := ""; buf_type := ""; buf_id := buf_id b |} in
          match buf_data b with
          | EmptyString => interpret rest b'
          | String _ _ =>
              {| me_type := if Js.truthy_str (buf_type b) then buf_type b else "message";
                 me_data := drop_last_LF (buf_data b);
                 me_lastEventId := buf_id b |} :: interpret rest b'
          end
      | String c _ =>
          if Nat.eqb (nat_of_ascii c) 58 then interpret rest b
          else
            match split_colon "" l with
            | Some (field, value) => interpret rest (process_field field value b)
            | None => interpret rest (process_field l "" b)
            end
      end
  end.

Definition events_of_stream (bytes : string) : list MessageEvent :=
  interpret (lines_from "" bytes) {| buf_data := ""; buf_type := ""; buf_id := "" |}.

End Transport.

(** ** The useEventSource hook *)

Module Receiver.

Import Transport.

(** A subscriber's callback, known by its identity. *)
Definition Handler := nat.

(** The event objects handed to callbacks. *)
Inductive DomEvent :=
| ErrorEvent (tag : nat)
| Message (ev : MessageEvent).

(** An argument of a handler call. *)
Inductive Arg :=
| ArgData (d : Js.json)
| ArgEvent (e : DomEvent).

(** [EventSourceState] *)
Record EventSourceState := {
  st_url : string;
  connected : bool;
  readyState : Z;
  lastEventId : option string;
  lastEventName : option string;
  lastData : Js.json;
  error : option DomEvent;
}.

(** [UseEventSourceOptions], defaults filled in. *)
Record Options := {
  enabled : bool;
  withCredentials : bool;
  opt_lastEventId : option string;
  parse : string -> Js.json;
  reconnectEnabled : bool;
  initialDelayMs : Z;
  maxDelayMs : Z;
  maxRetries : Z;
}.

Definition default_options : Options :=
  {| enabled := false;
     withCredentials := false;
     opt_lastEventId := None;
     parse := Utils.safeParseJson;
     reconnectEnabled := true;
     initialDelayMs := 1000;
     maxDelayMs := 15000;
     maxRetries := 10 |}.

(** The platform's [EventSource] object. *)
Record EventSource := {
  es_url : string;
  es_withCredentials : bool;
  es_readyState : Z;                    (* CONNECTING=0, OPEN=1, CLOSED=2 *)
  es_listeners : list (string * nat);   (* addEventListener(name, dispatcher) *)
}.

Definition CONNECTING : Z := 0.
Definition OPEN : Z := 1.
Definition CLOSED : Z := 2.

Definition es_set_readyState (rs : Z) (es : EventSource) : EventSource :=
  {| es_url := es_url es; es_withCredentials := es_withCredentials es;
     es_readyState := rs; es_listeners := es_listeners es |}.

Definition es_set_listeners (ls : list (string * nat)) (es : EventSource) : EventSource :=
  {| es_url := es_url es; es_withCredentials := es_withCredentials es;
     es_readyState := es_readyState es; es_listeners := ls |}.

(** [es.addEventListener(name, d)] *)
Definition addEventListener (name : string) (d : nat) (es : EventSource) : EventSource :=
  if decide ((name, d) ∈ es_listeners es) then es
  else es_set_listeners (es_listeners es ++ [(name, d)])%list es.

(** [es.removeEventListener(name, d)] *)
Definition removeEventListener (name : string) (d : nat) (es : EventSource) : EventSource :=
  es_set_listeners (filter (fun l => l ≠ (name, d)) (es_listeners es)) es.

(** [es.close()] *)
Definition es_close (es : EventSource) : EventSource := es_set_readyState CLOSED es.

(** What the hook leaves behind that can be observed: the handler calls
    and what it writes to [console.error] and [console.warn]. *)
Inductive Effect :=
| Called (fn : Handler) (args : list Arg)
| ConsoleError (msg : string) (thrown : option string)
| ConsoleWarn (msg : string).

(** One hook instance together with the platform objects it created. *)
Record Hook := {
  (* the current EventSource, a reference into [sources] *)
  eventSourceRef : option nat;
  (* reconnect attempts since the last successful open *)
  retryRef : nat;
  (* handle of the retry timer *)
  timerRef : option nat;
  (* set by disconnect, cleared by connect *)
  destroyedRef : bool;
  (* name -> Set<handler>, each set in insertion order *)
  listenersRef : gmap string (list Handler);
  (* name -> the dispatcher closure attached for it *)
  dispatchersRef : gmap string nat;
  (* the published snapshot *)
  state : EventSourceState;
  (* platform: every EventSource constructed so far *)
  sources : list EventSource;
  (* platform: pending timeouts (handle, delay) *)
  timers : list (nat * Z);
  (* platform: the next timeout handle *)
  next_timer : nat;
  (* identity of the next dispatcher closure *)
  next_dispatch : nat;
  (* handler calls and console errors and warnings, oldest first *)
  log : list Effect;
}.

Definition set_eventSourceRef (x : option nat) (st : Hook) : Hook :=
  {| eventSourceRef := x;
     retryRef := retryRef st;
     timerRef := timerRef st;
     destroyedRef := destroyedRef st;
     listenersRef := listenersRef st;
     dispatchersRef := dispatchersRef st;
     state := state st;
     sources := sources st;
     timers := timers st;
     next_timer := next_timer st;
     next_dispatch := next_dispatch st;
     log := log st |}.

Definition set_retryRef (x : nat) (st : Hook) : Hook :=
  {| eventSourceRef := eventSourceRef st;
     retryRef := x;
     timerRef := timerRef st;
     destroyedRef := destroyedRef st;
     listenersRef := listenersRef st;
     dispatchersRef := dispatchersRef st;
     state := state st;
     sources := sources st;
     timers := timers st;
     next_timer := next_timer st;
     next_dispatch := next_dispatch st;
     log := log st |}.

Definition set_timerRef (x : option nat) (st : Hook) : Hook :=
  {| eventSourceRef := eventSourceRef st;
     retryRef := retryRef st;
     timerRef := x;
     destroyedRef := destroyedRef st;
     listenersRef := listenersRef st;
     dispatchersRef := dispatchersRef st;
     state := state st;
     sources := sources st;
     timers := timers st;
     next_timer := next_timer st;
     next_dispatch := next_dispatch st;
     log := log st |}.

Definition set_destroyedRef (x : bool) (st : Hook) : Hook :=
  {| eventSourceRef := eventSourceRef st;
     retryRef := retryRef st;
     timerRef := timerRef st;
     destroyedRef := x;
     listenersRef := listenersRef st;
     dispatchersRef := dispatchersRef st;
     state := state st;
     sources := sources st;
     timers := timers st;
     next_timer := next_timer st;
     next_dispatch := next_dispatch st;
     log := log st |}.

Definition set_listenersRef (x : gmap string (list Handler)) (st : Hook) : Hook :=
  {| eventSourceRef := eventSourceRef st;
     retryRef := retryRef st;
     timerRef := timerRef st;
     destroyedRef := destroyedRef st;
     listenersRef := x;
     dispatchersRef := dispatchersRef st;
     state := state st;
     sources := sources st;
     timers := timers st;
     next_timer := next_timer st;
     next_dispatch := next_dispatch st;
     log := log st |}.

Definition set_dispatchersRef (x : gmap string nat) (st : Hook) : Hook :=
  {| eventSourceRef := eventSourceRef st;
     retryRef := retryRef st;
     timerRef := timerRef st;
     destroyedRef := destroyedRef st;
     listenersRef := listenersRef st;
     dispatchersRef := x;
     state := state st;
     sources := sources st;
     timers := timers st;
     next_timer := next_timer st;
     next_dispatch := next_dispatch st;
     log := log st |}.

Definition set_state (x : EventSourceState) (st : Hook) : Hook :=
  {| eventSourceRef := eventSourceRef st;
     retryRef := retryRef st;
     timerRef := timerRef st;
     destroyedRef := destroyedRef st;
     listenersRef := listenersRef st;
     dispatchersRef := dispatchersRef st;
     state := x;
     sources := sources st;
     timers := timers st;
     next_timer := next_timer st;
     next_dispatch := next_dispatch st;
     log := log st |}.

Definition set_sources (x : list EventSource) (st : Hook) : Hook :=
  {| eventSourceRef := eventSourceRef st;
     retryRef := retryRef st;
     timerRef := timerRef st;
     destroyedRef := destroyedRef st;
     listenersRef := listenersRef st;
     dispatchersRef := dispatchersRef st;
     state := state st;
     sources := x;
     timers := timers st;
     next_timer := next_timer st;
     next_dispatch := next_dispatch st;
     log := log st |}.

Definition set_timers (x : list (nat * Z)) (st : Hook) : Hook :=
  {| eventSourceRef := eventSourceRef st;
     retryRef := retryRef st;
     timerRef := timerRef st;
     destroyedRef := destroyedRef st;
     listenersRef := listenersRef st;
     dispatchersRef := dispatchersRef st;
     state := state st;
     sources := sources st;
     timers := x;
     next_timer := next_timer st;
     next_dispatch := next_dispatch st;
     log := log st |}.

Definition set_next_timer (x : nat) (st : Hook) : Hook :=
  {| eventSourceRef := eventSourceRef st;
     retryRef := retryRef st;
     timerRef := timerRef st;
     destroyedRef := destroyedRef st;
     listenersRef := listenersRef st;
     dispatchersRef := dispatchersRef st;
     state := state st;
     sources := sources st;
     timers := timers st;
     next_timer := x;
     next_dispatch := next_dispatch st;
     log := log st |}.

Definition set_next_dispatch (x : nat) (st : Hook) : Hook :=
  {| eventSourceRef := eventSourceRef st;
     retryRef := retryRef st;
     timerRef := timerRef st;
     destroyedRef := destroyedRef st;
     listenersRef := listenersRef st;
     dispatchersRef := dispatchersRef st;
     state := state st;
     sources := sources st;
     timers := timers st;
     next_timer := next_timer st;
     next_dispatch := x;
     log := log st |}.

Definition set_log (x : list Effect) (st : Hook) : Hook :=
  {| eventSourceRef := eventSourceRef st;
     retryRef := retryRef st;
     timerRef := timerRef st;
     destroyedRef := destroyedRef st;
     listenersRef := listenersRef st;
     dispatchersRef := dispatchersRef st;
     state := state st;
     sources := sources st;
     timers := timers st;
     next_timer := next_timer st;
     next_dispatch := next_dispatch st;
     log := x |}.

(** The handler calls of a log, in order. *)
Definition calls (l : list Effect) : list (Handler * list Arg) :=
  omap (fun e => match e with Called fn args => Some (fn, args) | _ => None end) l.

(** [Set.prototype.add] and [Set.prototype.delete] on a set kept in
    insertion order. *)
Definition set_add (fn : Handler) (set : list Handler) : list Handler :=
  if decide (fn ∈ set) then set else (set ++ [fn])%list.

Definition set_delete (fn : Handler) (set : list Handler) : list Handler :=
  filter (fun g => g ≠ fn) set.

Definition update_source (r : nat) (f : EventSource -> EventSource) (st : Hook) : Hook :=
  set_sources (alter f r (sources st)) st.

(** What [scheduleReconnect] does when it schedules: the attempt counter is
    incremented and a timeout with the given delay becomes pending. *)
Definition scheduled (delay : Z) (st : Hook) : Hook :=
  set_timerRef (Some (next_timer st))
    (set_timers (timers st ++ [(next_timer st, delay)])
       (set_next_timer (S (next_timer st))
          (set_retryRef (S (retryRef st)) st))).

Section Hook.

Variable urlString : string.
Variable opts : Options.

(** What a subscriber's callback does when called: [None] when it
    returns, [Some e] when it throws [e]. *)
Variable behaviour : Handler -> list Arg -> option string.

Definition init : Hook :=
  {| eventSourceRef := None;
     retryRef := 0;
     timerRef := None;
     destroyedRef := false;
     listenersRef := ∅;
     dispatchersRef := ∅;
     state := {| st_url := urlString; connected := false; readyState := 0;
                 lastEventId := opt_lastEventId opts; lastEventName := None;
                 lastData := Js.JNull; error := None |};
     sources := [];
     timers := [];
     next_timer := 1;
     next_dispatch := 0;
     log := [] |}.

Definition push_log (e : Effect) (st : Hook) : Hook :=
  set_log (log st ++ [e])%list st.

(** One turn of the loop of [emit]: call [fn], catch and report. *)
Definition call_handler (name : string) (args : list Arg) (st : Hook) (fn : Handler)
  : Hook :=
  let st := push_log (Called fn args) st in
  match behaviour fn args with
  | None => st
  | Some err =>
      push_log (ConsoleError ("Listener for " +:+ String Js.dquote name
                                +:+ String Js.dquote " threw") (Some err)) st
  end.

(** What one handler call adds to the log. *)
Definition handler_effects (name : string) (args : list Arg) (fn : Handler)
  : list Effect :=
  Called fn args ::
    match behaviour fn args with
    | None => []
    | Some err =>
        [ConsoleError ("Listener for " +:+ String Js.dquote name
                         +:+ String Js.dquote " threw") (Some err)]
    end.

Definition emit (name : string) (args : list Arg) (st : Hook) : Hook :=
  match listenersRef st !! name with
  | None => st
  | Some set => foldl (call_handler name args) st set
  end.

(** The closure [dispatch] that [attachNamedIfNeeded name] creates. *)
Definition dispatch (name : string) (ev : MessageEvent) (st : Hook) : Hook :=
  match listenersRef st !! name with
  | None => st
  | Some set =>
      if Nat.eqb (length set) 0 then st
      else
        let data := parse opts (me_data ev) in
        let s := state st in
        let st :=
          set_state
            {| st_url := st_url s; connected := connected s;
               readyState := readyState s;
               lastEventId := if Js.truthy_str (me_lastEventId ev)
                              then Some (me_lastEventId ev) else lastEventId s;
               lastEventName := Some name;
               lastData := data;
               error := error s |} st in
        emit name [ArgData data; ArgEvent (Message ev)] st
  end.

Definition attachNamedIfNeeded (name : string) (st : Hook) : Hook :=
  if Utils.isReservedEvent name then st
  else
    match eventSourceRef st with
    | None => st
    | Some es =>
        if decide (is_Some (dispatchersRef st !! name)) then st
        else
          let d := next_dispatch st in
          let st := set_next_dispatch (S d) st in
          let st := update_source es (addEventListener name d) st in
          set_dispatchersRef (<[name := d]> (dispatchersRef st)) st
    end.

Definition attachAllNamed (st : Hook) : Hook :=
  foldl (fun st name =>
           if Utils.isReservedEvent name then st else attachNamedIfNeeded name st)
        st (map_to_list (listenersRef st)).*1.

Definition addListener (name : string) (handler : Handler) (st : Hook) : Hook :=
  let set := default [] (listenersRef st !! name) in
  let st := set_listenersRef (<[name := set_add handler set]> (listenersRef st)) st in
  attachNamedIfNeeded name st.

(** The closure that [addListener name handler] returns. *)
Definition unsubscribe (name : string) (handler : Handler) (st : Hook) : Hook :=
  match listenersRef st !! name with
  | None => st
  | Some current =>
      let current := set_delete handler current in
      let st := set_listenersRef (<[name := current]> (listenersRef st)) st in
      if Nat.ltb 0 (length current) then st
      else
        let st := set_listenersRef (delete name (listenersRef st)) st in
        let st :=
          match dispatchersRef st !! name, eventSourceRef st with
          | Some disp, Some es =>
              if Utils.isReservedEvent name then st
              else update_source es (removeEventListener name disp) st
          | _, _ => st
          end in
        set_dispatchersRef (delete name (dispatchersRef st)) st
  end.

Definition clearTimeout (t : nat) (st : Hook) : Hook :=
  set_timers (filter (fun p => p.1 ≠ t) (timers st)) st.

Definition cleanup (st : Hook) : Hook :=
  let st :=
    match timerRef st with
    | Some t => set_timerRef None (clearTimeout t st)
    | None => st
    end in
  let st :=
    match eventSourceRef st with
    | Some es =>
        foldl (fun st '(name, d) => update_source es (removeEventListener name d) st)
              st (map_to_list (dispatchersRef st))
    | None => st
    end in
  let st := set_dispatchersRef ∅ st in
  let st :=
    match eventSourceRef st with
    | Some es => update_source es es_close st
    | None => st
    end in
  set_eventSourceRef None st.

Definition connect (st : Hook) : Hook :=
  if decide ((fun es => es_readyState <$> sources st !! es) <$> eventSourceRef st
             = Some (Some OPEN))
  then push_log (ConsoleWarn "EventSource is already connected") st
  else
    let st := set_destroyedRef false st in
    let st := cleanup st in
    let eventSource := length (sources st) in
    let st :=
      set_sources (sources st ++
                     [{| es_url := urlString;
                         es_withCredentials := withCredentials opts;
                         es_readyState := CONNECTING;
                         es_listeners := [] |}])%list st in
    set_eventSourceRef (Some eventSource) st.

(** The delay is computed on integers.  For a positive [initialDelayMs] it
    is the number that the code passes to [setTimeout], also from attempt
    1024 on, where [Math.pow(2, n)] is [Infinity]: the product is then
    [Infinity] and the minimum [maxDelayMs], as here.  For
    [initialDelayMs <= 0] and an attempt from 1024 on the code's product is
    [NaN] or [-Infinity], which [Z] does not render: what is said of the
    delay of a hook with arbitrary options assumes [0 < initialDelayMs]. *)
Definition scheduleReconnect (st : Hook) : Hook :=
  if (negb (reconnectEnabled opts) || destroyedRef st)%bool then st
  else if Z.leb (maxRetries opts) (Z.of_nat (retryRef st)) then st
  else
    let delay :=
      Z.min (initialDelayMs opts * 2 ^ Z.of_nat (retryRef st)) (maxDelayMs opts) in
    let st := set_retryRef (S (retryRef st)) st in
    let t := next_timer st in
    let st := set_next_timer (S t) st in
    let st := set_timers (timers st ++ [(t, delay)])%list st in
    set_timerRef (Some t) st.

Definition disconnect (st : Hook) : Hook :=
  let st := set_destroyedRef true st in
  let st := cleanup st in
  let s := state st in
  set_state {| st_url := st_url s; connected := false; readyState := 2;
               lastEventId := lastEventId s; lastEventName := lastEventName s;
               lastData := lastData s; error := error s |} st.

(** *** The three callbacks that [connect] installs on [eventSource] *)

Definition onopen (st : Hook) : Hook :=
  let st := set_retryRef 0 st in
  let s := state st in
  let st :=
    set_state {| st_url := st_url s; connected := true; readyState := 1;
                 lastEventId := lastEventId s; lastEventName := lastEventName s;
                 lastData := lastData s; error := None |} st in
  let st := emit "open" [] st in
  attachAllNamed st.

Definition onerror (eventSource : nat) (e : DomEvent) (st : Hook) : Hook :=
  let st := push_log (ConsoleError "EventSource error:" None) st in
  let rs := default CLOSED (es_readyState <$> sources st !! eventSource) in
  let s := state st in
  let st :=
    set_state {| st_url := st_url s; connected := false; readyState := rs;
                 lastEventId := lastEventId s; lastEventName := lastEventName s;
                 lastData := lastData s; error := Some e |} st in
  let st := emit "error" [ArgEvent e] st in
  if Z.eqb rs CLOSED then scheduleReconnect st else st.

Definition onmessage (ev : MessageEvent) (st : Hook) : Hook :=
  let data := parse opts (me_data ev) in
  let s := state st in
  let st :=
    set_state {| st_url := st_url s; connected := connected s;
                 readyState := readyState s;
                 lastEventId := if Js.truthy_str (me_lastEventId ev)
                                then Some (me_lastEventId ev) else lastEventId s;
                 lastEventName := Some "message";
                 lastData := data;
                 error := error s |} st in
  emit "message" [ArgData data; ArgEvent (Message ev)] st.

(** *** What can happen to a hook

    The host calls [connect], [disconnect], [subscribe] and the closures
    [subscribe] returned; the platform runs the callbacks of an
    [EventSource] that is not closed and the callbacks of pending
    timeouts. *)

Inductive Action :=
| Connect
| Disconnect
| Subscribe (name : string) (handler : Handler)
| Unsubscribe (name : string) (handler : Handler)
| SourceOpen (es : nat)
| SourceError (es : nat) (fatal : bool) (tag : nat)
| SourceEvent (es : nat) (ev : MessageEvent)
| TimerFire (t : nat).

(** An event of type [me_type ev] fired at an EventSource: it reaches the
    callback in the slot of that type and the listeners added for it. *)
Definition fire_event (es : nat) (ev : MessageEvent) (st : Hook) : Hook :=
  let ls := default [] (es_listeners <$> sources st !! es) in
  let st :=
    if String.eqb (me_type ev) "message" then onmessage ev st
    else if String.eqb (me_type ev) "open" then onopen st
    else if String.eqb (me_type ev) "error" then onerror es (Message ev) st
    else st in
  foldl (fun st '(name, _) =>
           if String.eqb name (me_type ev) then dispatch name ev st else st)
        st ls.

Definition step (a : Action) (st : Hook) : option Hook :=
  match a with
  | Connect => Some (connect st)
  | Disconnect => Some (disconnect st)
  | Subscribe name handler => Some (addListener name handler st)
  | Unsubscribe name handler => Some (unsubscribe name handler st)
  | SourceOpen es =>
      match sources st !! es with
      | Some src =>
          if Z.eqb (es_readyState src) CONNECTING
          then Some (onopen (update_source es (es_set_readyState OPEN) st))
          else None
      | None => None
      end
  | SourceError es fatal tag =>
      match sources st !! es with
      | Some src =>
          if Z.eqb (es_readyState src) CLOSED then None
          else
            let rs := if fatal then CLOSED else CONNECTING in
            Some (onerror es (ErrorEvent tag)
                    (update_source es (es_set_readyState rs) st))
      | None => None
      end
  | SourceEvent es ev =>
      match sources st !! es with
      | Some src =>
          if Z.eqb (es_readyState src) OPEN then Some (fire_event es ev st)
          else None
      | None => None
      end
  | TimerFire t =>
      (* a pending timeout expires and its callback calls connect() *)
      if decide (t ∈ (timers st).*1)
      then Some (connect (set_timers (filter (fun p => p.1 ≠ t) (timers st)) st))
      else None
  end.

Fixpoint run (acts : list Action) (st : Hook) : option Hook :=
  match acts with
  | [] => Some st
  | a :: rest =>
      match step a st with
      | Some st' => run rest st'
      | None => None
      end
  end.

(** A connection that fails: [n] attempts end in a fatal error and are
    retried when the timer fires, then one more attempt fails. *)
Definition failing_attempts (n : nat) : list Action :=
  (Connect :: flat_map (fun i => [SourceError i true 0; TimerFire (S i)]) (seq 0 n))
    ++ [SourceError n true 0].

(** The states a hook can be in. *)
Definition reachable (st : Hook) : Prop :=
  exists acts, run acts init = Some st.

(** The names with a low-level dispatcher attached to the live
    EventSource. *)
Definition attached (st : Hook) : gset string :=
  match eventSourceRef st with
  | Some es => list_to_set (default [] (es_listeners <$> sources st !! es)).*1
  | None => ∅
  end.

(** The non-reserved names with at least one handler registered. *)
Definition active (st : Hook) : gset string :=
  dom (filter (fun kv => Utils.isReservedEvent kv.1 = false ∧ kv.2 ≠ [])
              (listenersRef st)).

End Hook.


Definition subscription_call (a : Action) : bool :=
  match a with
  | Subscribe _ _ | Unsubscribe _ _ => true
  | _ => false
  end.


(** Two states that differ at most in the snapshot, the log, the attempt
    counter, the destroyed flag and the two counters of fresh names. *)
Definition same_core (st st' : Hook) : Prop :=
  eventSourceRef st' = eventSourceRef st /\
  timerRef st' = timerRef st /\
  listenersRef st' = listenersRef st /\
  dispatchersRef st' = dispatchersRef st /\
  sources st' = sources st /\
  timers st' = timers st.

(** What holds of every state of a hook. *)
Record hook_inv (st : Hook) : Prop := {
  (* a registered name has a handler *)
  inv_sets name set :
    listenersRef st !! name = Some set -> set ≠ [];
  (* dispatchers exist for names that are not reserved and have handlers *)
  inv_named name d :
    dispatchersRef st !! name = Some d ->
    Utils.isReservedEvent name = false /\ is_Some (listenersRef st !! name);
  (* the dispatchers of [dispatchersRef] are the listeners of the current
     EventSource *)
  inv_source :
    match eventSourceRef st with
    | Some es =>
        exists src, sources st !! es = Some src /\
          forall name d, (name, d) ∈ es_listeners src <-> dispatchersRef st !! name = Some d
    | None => dispatchersRef st = ∅
    end;
  (* an EventSource that the hook has let go of is closed and has no
     listener left *)
  inv_others es src :
    sources st !! es = Some src -> eventSourceRef st ≠ Some es ->
    es_readyState src = CLOSED /\ es_listeners src = [];
  (* a pending timeout is the one of [timerRef], and it is pending only
     while no EventSource is alive *)
  inv_timers t :
    t ∈ (timers st).*1 ->
    timerRef st = Some t /\
    forall es src, sources st !! es = Some src -> es_readyState src = CLOSED;
}.

(** Every name that should have a dispatcher has one. *)
Definition synced (st : Hook) : Prop :=
  forall name,
    is_Some (dispatchersRef st !! name) <->
    Utils.isReservedEvent name = false /\ is_Some (listenersRef st !! name).

(** A hook that is shut down: nothing is pending and nothing is alive. *)
Definition quiescent (st : Hook) : Prop :=
  timers st = [] /\
  eventSourceRef st = None /\
  dispatchersRef st = ∅ /\
  forall es src, sources st !! es = Some src ->
                 es_readyState src = CLOSED /\ es_listeners src = [].

End Receiver.

(** ** The statements of the specification, in its own words *)

Module Spec.

(** The query entries that are kept: those whose value is a string. *)
Definition kept_entries (q : list (string * Utils.QueryValue)) : list (string * string) :=
  omap (fun e => match e.2 with
                 | Utils.QString x => Some (e.1, x)
                 | _ => None
                 end) q.

(** "present entries are percent-encoded and joined as [key=value&...]
    appended after [?]" *)
Definition buildUrl (input : Utils.UrlInput) : string :=
  match input with
  | Utils.UrlString u => u
  | Utils.UrlObject o =>
      match kept_entries (default [] (Utils.query o)) with
      | [] => Utils.url o
      | kept =>
          Utils.url o +:+ "?" +:+
            Js.join "&" (map (fun e => Js.encodeURIComponent e.1 +:+ "=" +:+
                                         Js.encodeURIComponent e.2) kept)
      end
  end.

(** "delay = min(initialDelayMs * 2^attempt, maxDelayMs)" *)
Definition delay (initialDelayMs maxDelayMs : Z) (attempt : nat) : Z :=
  Z.min (initialDelayMs * 2 ^ Z.of_nat attempt) maxDelayMs.

(** "For all sequences of subscribe/unsubscribe calls, the set of attached
    low-level dispatchers equals exactly the set of non-reserved event
    names with >= 1 active handler." *)
Definition dispatchers_match_handlers (urlString : string)
    (opts : Receiver.Options)
    (behaviour : Receiver.Handler -> list Receiver.Arg -> option string) : Prop :=
  forall (st0 st : Receiver.Hook) (acts : list Receiver.Action),
    Receiver.reachable urlString opts behaviour st0 ->
    forallb Receiver.subscription_call acts = true ->
    Receiver.run urlString opts behaviour acts st0 = Some st ->
    Receiver.attached st = Receiver.active st.

(** "addClient(c) followed by sendToClient(c.id, r) delivers r to c in both
    implementations, and clientsCount() agrees after the same sequence of
    add/remove calls" *)
Definition managers_equivalent : Prop :=
  (forall (h : list Server.SSEClient) (r : nat) (c : Server.SSEClient)
          (evt : Server.ServerEvent),
      h !! r = Some c ->
      Server.sendToClient (Server.id c) evt h
        (Server.addClient r h Server.new_SSEManager)
      = Server.call (Server.send evt) r h /\
      Legacy.sendToClient (Server.id c) evt h
        (Legacy.addClient r h Legacy.new_SSEManager)
      = Server.call (Server.send evt) r h) /\
  (forall (h : list Server.SSEClient) (ops : list Server.RegistryOp),
      Server.clientsCount (Server.run_ops ops h Server.new_SSEManager).2
      = Legacy.clientsCount (Legacy.run_ops ops h Legacy.new_SSEManager).2).

End Spec.

(** ** Concrete values used in the examples *)

Module Scenario.

(** The record of the round-trip scenario: [{event:"x", data:{a:1}, id:"42"}]. *)
Definition event_x : Server.ServerEvent :=
  {| Server.event := Some "x";
     Server.data := Some (Js.JObj [("a", Js.JNum 1)]);
     Server.evt_id := Some "42";
     Server.retry := None |}.

(** The event that the transport makes of the frame of [event_x]. *)
Definition message_x : Transport.MessageEvent :=
  {| Transport.me_type := "x";
     Transport.me_data := Js.stringify (Js.JObj [("a", Js.JNum 1)]);
     Transport.me_lastEventId := "42" |}.

(** What the handlers of ["x"] are called with for [message_x]. *)
Definition args_x : list Receiver.Arg :=
  [Receiver.ArgData (Js.JObj [("a", Js.JNum 1)]);
   Receiver.ArgEvent (Receiver.Message message_x)].

(** The snapshot and the log after [message_x] has been dispatched to the
    handlers [set]. *)
Definition received_x (set : list Receiver.Handler) (st : Receiver.Hook) : Prop :=
  Receiver.lastData (Receiver.state st) = Js.JObj [("a", Js.JNum 1)] /\
  Receiver.lastEventId (Receiver.state st) = Some "42" /\
  Receiver.lastEventName (Receiver.state st) = Some "x" /\
  forall fn, fn ∈ set -> (fn, args_x) ∈ Receiver.calls (Receiver.log st).

Definition url : string := "/api/sse".

(** Handler 1 throws, every other handler returns. *)
Definition throws_first (fn : Receiver.Handler) (args : list Receiver.Arg)
  : option string :=
  if Nat.eqb fn 1 then Some "boom" else None.

(** The hook after a sequence of actions. *)
Definition after (acts : list Receiver.Action) : Receiver.Hook :=
  default (Receiver.init url Receiver.default_options)
    (Receiver.run url Receiver.default_options throws_first acts
       (Receiver.init url Receiver.default_options)).

(** A hook whose first connection attempt has failed: a retry is pending. *)
Definition retrying : Receiver.Hook :=
  after [Receiver.Subscribe "x" 0%nat; Receiver.Connect;
         Receiver.SourceError 0 true 0].

(** A hook that subscribed to ["x"] before connecting; [connected_x] is
    the hook once the connection is open. *)
Definition connecting_x : Receiver.Hook :=
  after [Receiver.Subscribe "x" 0%nat; Receiver.Connect].

Definition connected_x : Receiver.Hook :=
  after [Receiver.Subscribe "x" 0%nat; Receiver.Connect; Receiver.SourceOpen 0].

(** Two handlers of ["notification"], the first of which throws. *)
Definition two_handlers : Receiver.Hook :=
  after [Receiver.Subscribe "notification" 1%nat;
         Receiver.Subscribe "notification" 2%nat].

(** Three connections, two of them of user ["u"]; the peer of the second
    one has gone away. *)
Definition three_clients : list Server.SSEClient :=
  [Server.new_SSEClient "a" None;
   Server.new_SSEClient "b" (Some {| Server.opt_userId := Some "u" |});
   Server.new_SSEClient "c" (Some {| Server.opt_userId := Some "u" |})].

Definition registry3 : Server.SSEManager :=
  Server.addClient 2 three_clients
    (Server.addClient 1 three_clients
       (Server.addClient 0 three_clients Server.new_SSEManager)).

Definition client_b : Server.SSEClient :=
  Server.apply_op (Server.new_SSEClient "b"
                     (Some {| Server.opt_userId := Some "u" |})) Server.OpPeerGone.

Definition heap3 : list Server.SSEClient := <[1%nat := client_b]> three_clients.

Definition closed_client : Server.SSEClient :=
  (Server.close (Server.new_SSEClient "c1" None)).2.

End Scenario.

(** ** Reading a query string back

    What the receiving end of the request does with the query that
    [buildUrl] appends: split at [&], split each part at its first [=],
    percent-decode both sides. *)

Module Query.

Definition hex_val (c : ascii) : option nat :=
  let n := nat_of_ascii c in
  if Js.between 48 57 n then Some (n - 48)%nat
  else if Js.between 65 70 n then Some (n - 55)%nat
  else if Js.between 97 102 n then Some (n - 87)%nat
  else None.

(** [decodeURIComponent] on the bytes of the text; [None] stands for the
    [URIError] of a malformed escape. *)
Fixpoint decodeURIComponent (s : string) : option string :=
  match s with
  | EmptyString => Some ""
  | String c rest =>
      if Nat.eqb (nat_of_ascii c) 37 then
        match rest with
        | String h (String l rest') =>
            match hex_val h, hex_val l, decodeURIComponent rest' with
            | Some a, Some b, Some r => Some (String (ascii_of_nat (16 * a + b)) r)
            | _, _, _ => None
            end
        | _ => None
        end
      else
        match decodeURIComponent rest with
        | Some r => Some (String c r)
        | None => None
        end
  end.

(** [s.split(sep)] for a separator of one character. *)
Fixpoint split_on (sep : ascii) (cur : string) (s : string) : list string :=
  match s with
  | EmptyString => [cur]
  | String c rest =>
      if Ascii.eqb c sep then cur :: split_on sep "" rest
      else split_on sep (cur +:+ String c "") rest
  end.

(** The text before the first [sep] and, when there is one, the text
    after it. *)
Fixpoint split_first (sep : ascii) (s : string) : string * option string :=
  match s with
  | EmptyString => ("", None)
  | String c rest =>
      if Ascii.eqb c sep then ("", Some rest)
      else let '(a, b) := split_first sep rest in (String c a, b)
  end.

Definition parse_pair (part : string) : option (string * string) :=
  let '(k, v) := split_first "=" part in
  match decodeURIComponent k, decodeURIComponent (default "" v) with
  | Some k', Some v' => Some (k', v')
  | _, _ => None
  end.

Fixpoint parse_pairs (parts : list string) : option (list (string * string)) :=
  match parts with
  | [] => Some []
  | part :: rest =>
      match parse_pair part, parse_pairs rest with
      | Some p, Some ps => Some (p :: ps)
      | _, _ => None
      end
  end.

Definition parse_query (qs : string) : option (list (string * string)) :=
  parse_pairs (split_on "&" "" qs).

(** A string in which the character [sep] does not occur. *)
Fixpoint no_char (sep : ascii) (s : string) : bool :=
  match s with
  | EmptyString => true
  | String c rest => (negb (Ascii.eqb c sep) && no_char sep rest)%bool
  end.

End Query.

(** ** More of what holds of every state of a hook *)

Module Lifecycle.

Import Receiver.

(** An [EventSource] as [connect] builds it and the hook keeps it: for
    the url and the credentials mode of the hook, with at most one
    dispatcher per event name. *)
Definition well_built (urlString : string) (opts : Options) (src : EventSource) : Prop :=
  NoDup (es_listeners src).*1 /\
  es_url src = urlString /\
  es_withCredentials src = withCredentials opts /\
  (es_readyState src = CONNECTING \/ es_readyState src = OPEN \/
   es_readyState src = CLOSED).

(** The current [EventSource] is open. *)
Definition current_open (st : Hook) : Prop :=
  exists es src, eventSourceRef st = Some es /\ sources st !! es = Some src /\
                 es_readyState src = OPEN.

Record hook_wf (urlString : string) (opts : Options) (st : Hook) : Prop := {
  (* a set of handlers holds a handler once *)
  wf_sets name set :
    listenersRef st !! name = Some set -> NoDup set;
  wf_sources :
    Forall (well_built urlString opts) (sources st);
  (* at most one timeout is pending *)
  wf_timers :
    (length (timers st) <= 1)%nat;
  (* the attempt counter stays within [maxRetries] *)
  wf_retry :
    Z.of_nat (retryRef st) <= Z.max 0 (maxRetries opts);
  (* a pending timeout has the delay of the attempt that scheduled it *)
  wf_delay t d :
    (t, d) ∈ timers st ->
    (1 <= retryRef st)%nat /\
    d = Z.min (initialDelayMs opts * 2 ^ Z.of_nat (retryRef st - 1)) (maxDelayMs opts);
  (* the snapshot says [connected] only while the current EventSource is open *)
  wf_connected :
    connected (state st) = true -> readyState (state st) = OPEN /\ current_open st;
  wf_readyState :
    readyState (state st) = CONNECTING \/ readyState (state st) = OPEN \/
    readyState (state st) = CLOSED;
  wf_url :
    st_url (state st) = urlString;
}.

(** Two states with the same core, the same attempt counter and the same
    connection fields of the snapshot. *)
Definition same_shape (st st' : Hook) : Prop :=
  same_core st st' /\
  retryRef st' = retryRef st /\
  connected (state st') = connected (state st) /\
  readyState (state st') = readyState (state st) /\
  st_url (state st') = st_url (state st).

(** The snapshot after an event [ev] has been dispatched under [name]. *)
Definition received (opts : Options) (name : string) (ev : Transport.MessageEvent)
    (s : EventSourceState) : EventSourceState :=
  {| st_url := st_url s; connected := connected s; readyState := readyState s;
     lastEventId := if Js.truthy_str (Transport.me_lastEventId ev)
                    then Some (Transport.me_lastEventId ev) else lastEventId s;
     lastEventName := Some name;
     lastData := parse opts (Transport.me_data ev);
     error := error s |}.

(** The arguments of the handler calls for an event. *)
Definition handler_args (opts : Options) (ev : Transport.MessageEvent) : list Arg :=
  [ArgData (parse opts (Transport.me_data ev)); ArgEvent (Message ev)].

End Lifecycle.

(** ** What a receiver reads of the bytes that a connection writes *)

Module Wire.

Import Server Transport.

(** A string without a line terminator. *)
Fixpoint no_line_break (s : string) : bool :=
  match s with
  | EmptyString => true
  | String c rest =>
      (negb (Nat.eqb (nat_of_ascii c) 10) && negb (Nat.eqb (nat_of_ascii c) 13)
       && no_line_break rest)%bool
  end.

(** The text that [formatMessage] writes after [data: ]. *)
Definition payload_text (d : Js.json) : string :=
  match d with
  | Js.JStr text => text
  | _ => Js.stringify d
  end.

(** JSON values in which a number literal holds no line terminator (the
    literals of the JSON grammar never do). *)
Fixpoint plain (v : Js.json) : bool :=
  match v with
  | Js.JNumLit lit => no_line_break lit
  | Js.JArr items => forallb plain items
  | Js.JObj props => forallb (fun p => plain p.2) props
  | _ => true
  end.

(** A record whose strings fit on a line: its id, its event name and, when
    the payload is a string, the payload. *)
Definition line_safe (evt : ServerEvent) : bool :=
  (match evt_id evt with Some i => no_line_break i | None => true end
   && match event evt with Some e => no_line_break e | None => true end
   && match data evt with
      | Some (Js.JStr text) => no_line_break text
      | Some d => plain d
      | None => true
      end)%bool.

(** The last event id of the stream once the frame of [evt] has been read:
    an id that is empty is not written, one with a NUL is ignored by the
    reader. *)
Definition next_id (last : string) (evt : ServerEvent) : string :=
  match evt_id evt with
  | Some i => if (Js.truthy_str i && negb (has_nul i))%bool then i else last
  | None => last
  end.

Definition event_name (evt : ServerEvent) : string :=
  match event evt with
  | Some e => if Js.truthy_str e then e else "message"
  | None => "message"
  end.

(** The event that the frame of [evt] is read as; a frame without a [data]
    line dispatches nothing. *)
Definition event_of (last : string) (evt : ServerEvent) : option MessageEvent :=
  match data evt with
  | Some d =>
      Some {| me_type := event_name evt;
              me_data := payload_text d;
              me_lastEventId := next_id last evt |}
  | None => None
  end.

Fixpoint events_from (last : string) (evts : list ServerEvent) : list MessageEvent :=
  match evts with
  | [] => []
  | evt :: rest =>
      (option_list (event_of last evt) ++ events_from (next_id last evt) rest)%list
  end.

(** Everything written to the pipe of a connection, as one byte stream. *)
Definition bytes_written (c : SSEClient) : string :=
  foldr String.append "" (w_chunks (writer c)).

(** The line of a field that is written, with its terminator. *)
Definition field_line (label : string) (value : option string) : string :=
  match value with
  | Some v => label +:+ v +:+ Js.nl
  | None => ""
  end.

(** A string field that [formatMessage] writes: one that is truthy. *)
Definition written (value : option string) : option string :=
  match value with
  | Some v => if Js.truthy_str v then Some v else None
  | None => None
  end.

(** The frame that an operation writes to an open connection. *)
Definition chunk_of (op : ClientOp) : option string :=
  match op with
  | OpSend evt => Some (formatMessage evt)
  | OpPing now | OpTick now => Some (": ping " +:+ Js.string_of_Z now +:+ Js.nl +:+ Js.nl)
  | _ => None
  end.

(** The record of a send. *)
Definition sent (op : ClientOp) : option ServerEvent :=
  match op with
  | OpSend evt => Some evt
  | _ => None
  end.

(** Operations that leave a connection open: sends of records that fit on
    lines, pings, heartbeat ticks, starting and stopping the heartbeat. *)
Definition keeps_open (op : ClientOp) : bool :=
  match op with
  | OpSend evt => line_safe evt
  | OpPing _ | OpTick _ | OpStartHeartbeat _ | OpStopHeartbeat => true
  | OpClose | OpPeerGone => false
  end.

End Wire.

(** ** More concrete values *)

Module Sample.

(** A record with a string payload and a retry hint, no id and no name. *)
Definition text_hello : Server.ServerEvent :=
  {| Server.event := None; Server.data := Some (Js.JStr "hello");
     Server.evt_id := None; Server.retry := Some 3000 |}.

(** What is done to a connection that stays open: two sends with a
    heartbeat tick between them. *)
Definition session : list Server.ClientOp :=
  [Server.OpSend Scenario.event_x; Server.OpStartHeartbeat 15000;
   Server.OpTick 1700000000000; Server.OpSend text_hello].

(** A connection whose peer goes away after the first send. *)
Definition broken_session : list Server.ClientOp :=
  [Server.OpSend Scenario.event_x; Server.OpPeerGone; Server.OpTick 1].

(** An event without a name. *)
Definition message_1 : Transport.MessageEvent :=
  {| Transport.me_type := "message"; Transport.me_data := "1";
     Transport.me_lastEventId := "7" |}.

(** The open hook of [Scenario.connected_x] after an event named ["x"],
    after an event without a name, and after a disconnect followed by a
    new [connect]. *)
Definition delivered_x : Receiver.Hook :=
  Scenario.after [Receiver.Subscribe "x" 0%nat; Receiver.Connect; Receiver.SourceOpen 0;
                  Receiver.SourceEvent 0 Scenario.message_x].

Definition delivered_1 : Receiver.Hook :=
  Scenario.after [Receiver.Subscribe "x" 0%nat; Receiver.Connect; Receiver.SourceOpen 0;
                  Receiver.SourceEvent 0 message_1].

Definition reconnecting : Receiver.Hook :=
  Scenario.after [Receiver.Subscribe "x" 0%nat; Receiver.Connect; Receiver.SourceOpen 0;
                  Receiver.Disconnect; Receiver.Connect].



(** A query with characters that need encoding, a null and an empty
    value. *)
Definition query_options : Utils.UrlOptions :=
  {| Utils.url := "/api/sse";
     Utils.query := Some [("a b", Utils.QString "x&y=z"); ("c", Utils.QNull);
                          ("d", Utils.QString "")] |}.

End Sample.

(** * Properties *)

(** ** Strings *)

Section StringFacts.

Lemma append_nil_l (b : string) : "" +:+ b = b.
Proof. reflexivity. Qed.

Lemma append_cons (c : ascii) (a b : string) :
  String c a +:+ b = String c (a +:+ b).
Proof. reflexivity. Qed.

Lemma append_empty_r (a : string) : a +:+ "" = a.
Proof.
  induction a as [|c a IH]; [done |]. rewrite append_cons. by rewrite IH.
Qed.

Lemma append_assoc (a b c : string) : (a +:+ b) +:+ c = a +:+ (b +:+ c).
Proof.
  induction a as [|x a IH]; [done |]. rewrite !append_cons. by rewrite IH.
Qed.

Lemma truthy_append_r (a b : string) :
  Js.truthy_str b = true -> Js.truthy_str (a +:+ b) = true.
Proof. destruct a; [by rewrite append_nil_l | by rewrite append_cons]. Qed.

Lemma truthy_append_l (a b : string) :
  Js.truthy_str a = true -> Js.truthy_str (a +:+ b) = true.
Proof. destruct a; [done | by rewrite append_cons]. Qed.

Lemma truthy_join (sep x : string) (l : list string) :
  Js.truthy_str x = true -> Js.truthy_str (Js.join sep (x :: l)) = true.
Proof. intros Hx. destruct l; cbn; [done | by apply truthy_append_l]. Qed.

End StringFacts.

(** ** buildUrl *)

Section BuildUrl.

Import Utils.

Lemma encode_entry_truthy (e : string * QueryValue) :
  Js.truthy_str (encode_entry e) = true.
Proof. unfold encode_entry. apply truthy_append_r. reflexivity. Qed.

Lemma encode_kept (q : list (string * QueryValue)) :
  map encode_entry (filter (fun e => not_nullish e.2 = true) q)
  = map (fun e => Js.encodeURIComponent e.1 +:+ "=" +:+ Js.encodeURIComponent e.2)
        (Spec.kept_entries q).
Proof.
  induction q as [|[k x] q IH]; [done |].
  destruct x; cbn; case_decide; try done; cbn.
  f_equal. exact IH.
Qed.

(** C9: [buildUrl] returns a string input unchanged; for [{url, query}] it
    keeps exactly the entries whose value is neither null nor undefined,
    percent-encodes each kept key and value, joins them with [&] and
    appends them after [?], appending nothing when no entry is kept; the
    scenario of the specification evaluates to ["/api/sse?user_id=u1"]. *)
Theorem buildUrl_correct :
  (forall u : string, buildUrl (UrlString u) = u) /\
  (forall input : UrlInput, buildUrl input = Spec.buildUrl input) /\
  (forall (q : list (string * QueryValue)) (k x : string),
      (k, x) ∈ Spec.kept_entries q <-> (k, QString x) ∈ q) /\
  buildUrl (UrlObject
    {| url := "/api/sse";
       query := Some [("user_id", QString "u1"); ("channel", QNull)] |})
  = "/api/sse?user_id=u1".
Proof.
  split; [done |]. split; [| split; [| reflexivity]].
  - intros [u | [u q]]; [done |]. cbn [buildUrl Spec.buildUrl url query].
    rewrite encode_kept.
    destruct (Spec.kept_entries (default [] q)) as [|e kept] eqn:E.
    + cbn. by rewrite append_empty_r.
    + cbn [map]. rewrite truthy_join; [done |].
      apply truthy_append_r. reflexivity.
  - intros q k x. unfold Spec.kept_entries. rewrite list_elem_of_omap. split.
    + intros [[k' x'] [Hin Heq]]. cbn in Heq. destruct x'; simplify_eq. done.
    + intros Hin. exists (k, QString x). done.
Qed.

End BuildUrl.

(** ** Reconnect policy *)

Section ReconnectPolicy.

Import Receiver.

Variable urlString : string.
Variable behaviour : Handler -> list Arg -> option string.

Lemma scheduleReconnect_cases (opts : Options) (st : Hook) :
  scheduleReconnect opts st =
  if (reconnectEnabled opts && negb (destroyedRef st)
      && (Z.of_nat (retryRef st) <? maxRetries opts))%bool
  then scheduled (Spec.delay (initialDelayMs opts) (maxDelayMs opts) (retryRef st)) st
  else st.
Proof.
  unfold scheduleReconnect, scheduled, Spec.delay.
  destruct (reconnectEnabled opts), (destroyedRef st); cbn; try done.
  rewrite (Z.ltb_antisym (maxRetries opts)).
  destruct (maxRetries opts <=? Z.of_nat (retryRef st)); done.
Qed.

Lemma default_delay_capped (n : nat) : (4 <= n)%nat -> Spec.delay 1000 15000 n = 15000.
Proof.
  intros Hn. unfold Spec.delay. apply Z.min_r.
  assert (2 ^ 4 <= 2 ^ Z.of_nat n) by (apply Z.pow_le_mono_r; lia).
  lia.
Qed.

(** C1: with the default configuration the delay of attempt [n] is
    [min(1000 * 2^n, 15000)], so that the delays are 1000, 2000, 4000, 8000,
    15000, 15000, ...; [scheduleReconnect] schedules exactly when reconnect
    is enabled, the hook is not destroyed and [attempt < maxRetries], and
    then increments [attempt]; a connection that keeps failing is retried
    with these delays ten times and not an eleventh time. *)
Theorem reconnect_policy :
  (forall (opts : Options) (st : Hook),
      scheduleReconnect opts st =
      if (reconnectEnabled opts && negb (destroyedRef st)
          && (Z.of_nat (retryRef st) <? maxRetries opts))%bool
      then scheduled (Spec.delay (initialDelayMs opts) (maxDelayMs opts) (retryRef st)) st
      else st) /\
  (forall (delay : Z) (st : Hook),
      retryRef (scheduled delay st) = S (retryRef st) /\
      timerRef (scheduled delay st) = Some (next_timer st) /\
      timers (scheduled delay st) = timers st ++ [(next_timer st, delay)]) /\
  (forall n : nat,
      Spec.delay (initialDelayMs default_options) (maxDelayMs default_options) n
      = Z.min (1000 * 2 ^ Z.of_nat n) 15000) /\
  map (Spec.delay 1000 15000) (seq 0 6) = [1000; 2000; 4000; 8000; 15000; 15000] /\
  (forall n : nat, (4 <= n)%nat -> Spec.delay 1000 15000 n = 15000) /\
  (forall st : Hook,
      (10 <= retryRef st)%nat -> scheduleReconnect default_options st = st) /\
  map (fun n => timers <$> run urlString default_options behaviour
                            (failing_attempts n) (init urlString default_options))
      (seq 0 11)
  = [Some [(1%nat, 1000)]; Some [(2%nat, 2000)]; Some [(3%nat, 4000)];
     Some [(4%nat, 8000)]; Some [(5%nat, 15000)]; Some [(6%nat, 15000)];
     Some [(7%nat, 15000)]; Some [(8%nat, 15000)]; Some [(9%nat, 15000)];
     Some [(10%nat, 15000)]; Some []].
Proof.
  split; [exact scheduleReconnect_cases |].
  split; [done |]. split; [done |]. split; [reflexivity |].
  split; [exact default_delay_capped |].
  split.
  - intros st Hst. rewrite scheduleReconnect_cases.
    replace (Z.of_nat (retryRef st) <? maxRetries default_options) with false.
    + by rewrite andb_false_r.
    + symmetry. apply Z.ltb_ge. cbn. lia.
  - vm_compute. reflexivity.
Qed.

End ReconnectPolicy.

Lemma reconnect_policy_witness :
  (4 <= 7)%nat /\ Spec.delay 1000 15000 7 = 15000.
Proof.
  split; [lia |].
  apply (proj1 (proj2 (proj2 (proj2 (proj2
           (reconnect_policy "/api/sse" (fun _ _ => None))))))). lia.
Defined.

(** ** Server connection *)

Section ServerConnection.

Import Server.

Lemma close_fulfilled (c : SSEClient) : (close c).1 = Fulfilled.
Proof. unfold close. destruct (closed c); [done |]. by destruct (writer_close _). Qed.

Lemma close_closed (c : SSEClient) : closed (close c).2 = true.
Proof.
  unfold close. destruct (closed c) eqn:E; [done |]. by destruct (writer_close _).
Qed.

Lemma close_when_closed (c : SSEClient) : closed c = true -> close c = (Fulfilled, c).
Proof. intros H. unfold close. by rewrite H. Qed.

Lemma close_chunks (c : SSEClient) :
  w_chunks (writer (close c).2) = w_chunks (writer c).
Proof.
  unfold close, writer_close. destruct (closed c); [done |].
  cbn. by destruct (w_status (writer c)).
Qed.

Lemma writeRaw_when_closed (buf : string) (c : SSEClient) :
  closed c = true -> writeRaw buf c = (Fulfilled, c).
Proof. intros H. unfold writeRaw. by rewrite H. Qed.

Lemma writeRaw_fulfilled (buf : string) (c : SSEClient) : (writeRaw buf c).1 = Fulfilled.
Proof.
  unfold writeRaw. destruct (closed c); [done |].
  destruct (writer_write buf (writer c)) as [[] w]; [done | apply close_fulfilled].
Qed.

Lemma apply_op_when_closed (c : SSEClient) (op : ClientOp) :
  closed c = true ->
  closed (apply_op c op) = true /\
  w_chunks (writer (apply_op c op)) = w_chunks (writer c).
Proof.
  intros H. destruct op; cbn [apply_op].
  - unfold send. by rewrite writeRaw_when_closed.
  - unfold ping. by rewrite writeRaw_when_closed.
  - unfold heartbeat_tick, ping. by rewrite writeRaw_when_closed.
  - done.
  - done.
  - by rewrite close_when_closed.
  - cbn. split; [done |]. unfold writer_abort. by destruct (w_status (writer c)).
Qed.

(** C6: [close()] is idempotent, a second call changes nothing; once
    [closed] is true every [send] and every heartbeat tick leave the
    connection as it is, and whatever is done to the connection afterwards
    writes nothing to the pipe. *)
Theorem close_idempotent_and_final :
  (forall c : SSEClient,
      closed (close c).2 = true /\ close (close c).2 = (Fulfilled, (close c).2)) /\
  (forall (c : SSEClient) (evt : ServerEvent) (now : Z),
      closed c = true ->
      send evt c = (Fulfilled, c) /\
      ping now c = (Fulfilled, c) /\
      heartbeat_tick now c = c) /\
  (forall (c : SSEClient) (ops : list ClientOp),
      closed c = true ->
      closed (foldl apply_op c ops) = true /\
      w_chunks (writer (foldl apply_op c ops)) = w_chunks (writer c)).
Proof.
  split; [| split].
  - intros c. split; [apply close_closed |].
    apply close_when_closed, close_closed.
  - intros c evt now H. unfold heartbeat_tick, send, ping.
    by rewrite !writeRaw_when_closed.
  - intros c ops. revert c. induction ops as [|op ops IH]; intros c H; [done |].
    cbn [foldl]. destruct (apply_op_when_closed c op H) as [H1 H2].
    destruct (IH _ H1) as [H3 H4]. split; [done | congruence].
Qed.

End ServerConnection.

Lemma close_idempotent_and_final_witness :
  Server.closed Scenario.closed_client = true /\
  Server.send Scenario.event_x Scenario.closed_client
  = (Server.Fulfilled, Scenario.closed_client) /\
  Server.w_chunks (Server.writer
     (foldl Server.apply_op Scenario.closed_client
        [Server.OpStartHeartbeat 15000; Server.OpTick 7; Server.OpClose]))
  = [].
Proof.
  pose proof close_idempotent_and_final as (_ & Hsend & Hops).
  assert (Hc : Server.closed Scenario.closed_client = true) by reflexivity.
  split; [exact Hc |]. split.
  - exact (proj1 (Hsend _ _ 0 Hc)).
  - rewrite (proj2 (Hops _ _ Hc)). reflexivity.
Defined.

(** ** Connection registry *)

Section Registry.

Import Server.

Lemma elem_of_registered_for (u i : string) (h : Heap) (m : SSEManager) :
  i ∈ registered_for u h m <->
  exists r, clientsById m !! i = Some r /\ (h !! r) ≫= user_of = Some u.
Proof.
  unfold registered_for. rewrite elem_of_dom. split.
  - intros [r Hr]. apply map_lookup_filter_Some in Hr as [Hr Hp]. eauto.
  - intros (r & Hr & Hp). exists r. by apply map_lookup_filter_Some.
Qed.

Lemma registered_for_ext (u : string) (h h' : Heap) (m : SSEManager) :
  (forall r, (h' !! r) ≫= user_of = (h !! r) ≫= user_of) ->
  registered_for u h' m = registered_for u h m.
Proof.
  intros Hext. apply set_eq. intros i. rewrite !elem_of_registered_for.
  by setoid_rewrite Hext.
Qed.

Lemma registry_inv_ext (h h' : Heap) (m : SSEManager) :
  (forall r, id <$> h' !! r = id <$> h !! r) ->
  (forall r, (h' !! r) ≫= user_of = (h !! r) ≫= user_of) ->
  registry_inv h m -> registry_inv h' m.
Proof.
  intros Hid Hu [H1 H2 H3]. split.
  - intros r1 r2 i. rewrite !Hid. apply H1.
  - intros i r Hr. rewrite Hid. by apply H2.
  - intros u. rewrite (registered_for_ext u h h' m Hu). apply H3.
Qed.

(** Methods do not change [id] and [userId]. *)
Lemma close_identity (c : SSEClient) :
  id (close c).2 = id c /\ userId (close c).2 = userId c.
Proof. unfold close. destruct (closed c); [done |]. by destruct (writer_close _). Qed.

Lemma writeRaw_identity (buf : string) (c : SSEClient) :
  id (writeRaw buf c).2 = id c /\ userId (writeRaw buf c).2 = userId c.
Proof.
  unfold writeRaw. destruct (closed c); [done |].
  destruct (writer_write buf (writer c)) as [[] w]; [done |].
  apply (close_identity (set_writer w c)).
Qed.

Lemma apply_op_identity (c : SSEClient) (op : ClientOp) :
  id (apply_op c op) = id c /\ userId (apply_op c op) = userId c.
Proof.
  destruct op; cbn [apply_op]; try done.
  - apply writeRaw_identity.
  - apply writeRaw_identity.
  - unfold heartbeat_tick.
    pose proof (writeRaw_identity (": ping " +:+ Js.string_of_Z now +:+ Js.nl +:+ Js.nl) c)
      as [Hi Hu].
    unfold ping. destruct (writeRaw _ c) as [[] c'] eqn:E; cbn in *; [done |].
    destruct (close_identity c') as [Hi' Hu']. split; congruence.
  - apply close_identity.
Qed.

Lemma same_identity_lookup (h : Heap) (r : ref) (c c' : SSEClient) :
  h !! r = Some c -> id c' = id c -> userId c' = userId c ->
  (forall r', id <$> <[r := c']> h !! r' = id <$> h !! r') /\
  (forall r', (<[r := c']> h !! r') ≫= user_of = (h !! r') ≫= user_of).
Proof.
  intros Hr Hi Hu. split; intros r'.
  - destruct (decide (r = r')) as [<- | Hne].
    + rewrite list_lookup_insert_eq by (by eapply lookup_lt_Some).
      rewrite Hr. cbn. by rewrite Hi.
    + by rewrite list_lookup_insert_ne.
  - destruct (decide (r = r')) as [<- | Hne].
    + rewrite list_lookup_insert_eq by (by eapply lookup_lt_Some).
      rewrite Hr. cbn. unfold user_of. by rewrite Hu.
    + by rewrite list_lookup_insert_ne.
Qed.

Lemma call_identity (f : SSEClient -> Completion * SSEClient) (r : ref) (h : Heap) :
  (forall c, id (f c).2 = id c /\ userId (f c).2 = userId c) ->
  (forall r', id <$> (call f r h).2 !! r' = id <$> h !! r') /\
  (forall r', ((call f r h).2 !! r') ≫= user_of = (h !! r') ≫= user_of).
Proof.
  intros Hf. unfold call. destruct (h !! r) as [c |] eqn:Hr; [| done].
  destruct (f c) as [k c'] eqn:E. cbn.
  destruct (Hf c) as [Hi Hu]. rewrite E in Hi, Hu.
  by eapply same_identity_lookup.
Qed.

Lemma registry_inv_new : registry_inv [] new_SSEManager.
Proof.
  split.
  - intros r1 r2 i H. by rewrite lookup_nil in H.
  - intros i r H. cbn in H. by rewrite lookup_empty in H.
  - intros u. cbn [clientIdsByUser new_SSEManager]. rewrite lookup_empty.
    rewrite decide_True; [done |].
    apply set_eq. intros i. rewrite elem_of_registered_for. cbn.
    split; [| set_solver]. intros (r & Hr & _). by rewrite lookup_empty in Hr.
Qed.

Lemma registry_inv_construct (h : Heap) (m : SSEManager) (c : SSEClient) :
  id c ∉ (id <$> h) ->
  registry_inv h m -> registry_inv (h ++ [c]) m.
Proof.
  intros Hfresh [H1 H2 H3].
  assert (Hold : forall r i, id <$> h !! r = Some i -> id <$> (h ++ [c]) !! r = Some i).
  { intros r i Hr. destruct (h !! r) as [c0 |] eqn:E; [| done].
    by rewrite (lookup_app_l_Some _ _ _ _ E). }
  assert (Hcases : forall r i, id <$> (h ++ [c]) !! r = Some i ->
                     id <$> h !! r = Some i \/ (r = length h /\ i = id c)).
  { intros r i Hr. destruct (h !! r) as [c0 |] eqn:E.
    - rewrite (lookup_app_l_Some _ _ _ _ E) in Hr. by left.
    - right. apply lookup_ge_None in E.
      destruct ((h ++ [c]) !! r) as [c1 |] eqn:E1; [| done].
      apply lookup_app_Some in E1 as [E1 | [_ E1]].
      + apply lookup_lt_Some in E1. lia.
      + apply list_lookup_singleton_Some in E1 as [E1 <-].
        cbn in Hr. split; [lia | congruence]. }
  assert (Hin : forall r i, id <$> h !! r = Some i -> i ∈ (id <$> h)).
  { intros r i Hr. destruct (h !! r) as [c0 |] eqn:E; [| done].
    cbn in Hr. injection Hr as <-. apply list_elem_of_fmap. exists c0.
    split; [done |]. by eapply list_elem_of_lookup_2. }
  assert (Hreg : forall u, registered_for u (h ++ [c]) m = registered_for u h m).
  { intros u. apply set_eq. intros i. rewrite !elem_of_registered_for.
    split; intros (r & Hr & Hu); exists r; (split; [done |]).
    - pose proof (H2 _ _ Hr) as Hi.
      destruct (h !! r) as [c0 |] eqn:E; [| done].
      by rewrite (lookup_app_l_Some _ _ _ _ E) in Hu.
    - pose proof (H2 _ _ Hr) as Hi.
      destruct (h !! r) as [c0 |] eqn:E; [| done].
      by rewrite (lookup_app_l_Some _ _ _ _ E). }
  split.
  - intros r1 r2 i Hr1 Hr2.
    destruct (Hcases _ _ Hr1) as [Ha | [-> ->]], (Hcases _ _ Hr2) as [Hb | [-> Hb]];
      try done.
    + by eapply H1.
    + subst i. exfalso. apply Hfresh. by eapply Hin.
    + exfalso. apply Hfresh. by eapply Hin.
  - intros i r Hr. apply Hold. by apply H2.
  - intros u. rewrite Hreg. apply H3.
Qed.

Lemma user_of_Some (c : SSEClient) (u : string) :
  user_of c = Some u <-> userId c = Some u /\ Js.truthy_str u = true.
Proof.
  unfold user_of. destruct (userId c) as [u' |].
  - destruct (Js.truthy_str u') eqn:E.
    + split; [intros [= ->]; done | intros [[= ->] _]; done].
    + split; [done | intros [[= ->] Ht]; congruence].
  - split; [done | intros [? _]; done].
Qed.

(** The registered connections of a user after [clientsById.set(id, client)]. *)
Lemma registered_for_insert (u : string) (h : Heap) (m m' : SSEManager)
    (r : ref) (c : SSEClient) :
  registry_inv h m -> h !! r = Some c ->
  clientsById m' = <[id c := r]> (clientsById m) ->
  registered_for u h m' =
  if decide (user_of c = Some u) then registered_for u h m ∪ {[id c]}
  else registered_for u h m.
Proof.
  intros [H1 H2 _] Hr Hm'. apply set_eq. intros j.
  assert (Hj : j ∈ registered_for u h m' <->
               (j = id c /\ user_of c = Some u) \/
               (j ≠ id c /\ j ∈ registered_for u h m)).
  { rewrite !elem_of_registered_for, Hm'. split.
    - intros (r' & Hr' & Hu). destruct (decide (id c = j)) as [<- | Hne].
      + rewrite lookup_insert_eq in Hr'. injection Hr' as <-.
        rewrite Hr in Hu. by left.
      + rewrite lookup_insert_ne in Hr' by done. right. split; [done | eauto].
    - intros [[-> Hu] | [Hne (r' & Hr' & Hu)]].
      + exists r. rewrite lookup_insert_eq, Hr. done.
      + exists r'. by rewrite lookup_insert_ne. }
  rewrite Hj. clear Hj. case_decide as Hu.
  - rewrite elem_of_union, elem_of_singleton.
    destruct (decide (j = id c)); tauto.
  - split; [tauto |]. intros Hin.
    destruct (decide (j = id c)) as [-> | Hne]; [| by right].
    exfalso. apply Hu. apply elem_of_registered_for in Hin as (r' & Hr' & Hu').
    assert (r' = r) as ->.
    { eapply H1; [by apply H2 | by rewrite Hr]. }
    by rewrite Hr in Hu'.
Qed.

Lemma registry_inv_addClient (h : Heap) (m : SSEManager) (r : ref) :
  registry_inv h m -> registry_inv h (addClient r h m).
Proof.
  intros Hinv. unfold addClient. destruct (h !! r) as [c |] eqn:Hr; [| done].
  pose proof Hinv as [H1 H2 H3].
  assert (HbyId : forall (m' : SSEManager),
             clientsById m' = <[id c := r]> (clientsById m) ->
             forall i r', clientsById m' !! i = Some r' -> id <$> h !! r' = Some i).
  { intros m' -> i r' Hi. destruct (decide (id c = i)) as [<- | Hne].
    - rewrite lookup_insert_eq in Hi. injection Hi as <-. by rewrite Hr.
    - rewrite lookup_insert_ne in Hi by done. by apply H2. }
  assert (Hnone : user_of c = None ->
             registry_inv h {| clientsById := <[id c := r]> (clientsById m);
                               clientIdsByUser := clientIdsByUser m |}).
  { intros Hu.
    set (m' := {| clientsById := <[id c := r]> (clientsById m);
                  clientIdsByUser := clientIdsByUser m |}).
    split; [done | by apply (HbyId m') |].
    intros u. rewrite (registered_for_insert u h m m' r c Hinv Hr eq_refl).
    destruct (decide (user_of c = Some u)); [congruence | apply H3]. }
  destruct (userId c) as [u |] eqn:Hu; [| apply Hnone; unfold user_of; by rewrite Hu].
  destruct (Js.truthy_str u) eqn:Ht;
    [| apply Hnone; unfold user_of; by rewrite Hu, Ht].
  assert (Huser : user_of c = Some u) by (unfold user_of; by rewrite Hu, Ht).
  set (m' := {| clientsById := <[id c := r]> (clientsById m);
                clientIdsByUser := _ |}).
  split; [done | by apply (HbyId m') |].
  intros u'. rewrite (registered_for_insert u' h m m' r c Hinv Hr eq_refl).
  cbn [clientIdsByUser m']. destruct (decide (u = u')) as [<- | Hne].
  - rewrite lookup_insert_eq.
    destruct (decide (user_of c = Some u)); [| done].
    rewrite decide_False by set_solver.
    rewrite H3. by case_decide as E; [rewrite E |].
  - rewrite lookup_insert_ne by done.
    destruct (decide (user_of c = Some u')); [congruence | apply H3].
Qed.

Lemma removeClient_unknown (h : Heap) (m : SSEManager) (i : string) :
  clientsById m !! i = None -> removeClient i h m = (Fulfilled, h, m).
Proof. intros H. unfold removeClient. by rewrite H. Qed.

Lemma removeClient_known (h : Heap) (m : SSEManager) (i : string) (r : ref) :
  clientsById m !! i = Some r ->
  (removeClient i h m).1.2 = (call close r h).2 /\
  clientsById (removeClient i h m).2 = delete i (clientsById m) /\
  clientIdsByUser (removeClient i h m).2 =
    match (h !! r) ≫= user_of with
    | Some u =>
        match clientIdsByUser m !! u with
        | Some set =>
            if decide (set ∖ {[i]} = ∅) then delete u (clientIdsByUser m)
            else <[u := set ∖ {[i]}]> (clientIdsByUser m)
        | None => clientIdsByUser m
        end
    | None => clientIdsByUser m
    end.
Proof.
  intros H. unfold removeClient. rewrite H.
  destruct (call close r h) as [k h'] eqn:E. cbn. split; [done |]. split; [done |].
  destruct (h !! r) as [c |]; [| done]. cbn. unfold user_of.
  destruct (userId c) as [u |]; [| done].
  destruct (Js.truthy_str u); [| done].
  destruct (clientIdsByUser m !! u) as [set |]; [| done].
  destruct (decide (set ∖ {[i]} = ∅)) as [-> | Hne]; [done |].
  destruct (size (set ∖ {[i]})) eqn:Hs; [| done].
  apply size_empty_iff, leibniz_equiv in Hs. done.
Qed.

Lemma registered_for_delete (u i : string) (h h' : Heap) (m m' : SSEManager) :
  (forall r, (h' !! r) ≫= user_of = (h !! r) ≫= user_of) ->
  clientsById m' = delete i (clientsById m) ->
  registered_for u h' m' = registered_for u h m ∖ {[i]}.
Proof.
  intros Hext Hm'. apply set_eq. intros j.
  rewrite elem_of_difference, elem_of_singleton, !elem_of_registered_for, Hm'.
  setoid_rewrite Hext. split.
  - intros (r & Hr & Hu). apply lookup_delete_Some in Hr as [Hne Hr]. eauto.
  - intros [(r & Hr & Hu) Hne]. exists r. split; [| done].
    by apply lookup_delete_Some.
Qed.

Lemma registry_inv_removeClient (h : Heap) (m : SSEManager) (i : string) :
  registry_inv h m ->
  registry_inv (removeClient i h m).1.2 (removeClient i h m).2.
Proof.
  intros Hinv. destruct (clientsById m !! i) as [r |] eqn:Hi;
    [| by rewrite removeClient_unknown].
  destruct (removeClient_known h m i r Hi) as (Hh & HbyId & HbyUser).
  pose proof Hinv as [H1 H2 H3].
  destruct (call_identity close r h close_identity) as [Hid Hu].
  rewrite <- Hh in Hid, Hu.
  pose proof (H2 _ _ Hi) as Hc. destruct (h !! r) as [c |] eqn:Hr; [| done].
  cbn in Hc. injection Hc as Hc.
  assert (Hreg : forall u, registered_for u (removeClient i h m).1.2 (removeClient i h m).2
                           = registered_for u h m ∖ {[i]}).
  { intros u. by apply registered_for_delete. }
  assert (Hmine : forall u, i ∈ registered_for u h m <-> user_of c = Some u).
  { intros u. rewrite elem_of_registered_for. split.
    - intros (r' & Hr' & Hu'). rewrite Hi in Hr'. injection Hr' as <-.
      by rewrite Hr in Hu'.
    - intros Hu'. exists r. by rewrite Hr. }
  split.
  - intros r1 r2 j. rewrite !Hid. apply H1.
  - intros j r' Hj. rewrite HbyId in Hj. apply lookup_delete_Some in Hj as [_ Hj].
    rewrite Hid. by apply H2.
  - intros u. rewrite Hreg, HbyUser. cbn.
    destruct (user_of c) as [u0 |] eqn:Hu0.
    + assert (Hin : i ∈ registered_for u0 h m) by by apply Hmine.
      rewrite (H3 u0). rewrite decide_False by set_solver.
      destruct (decide (u0 = u)) as [<- | Hne].
      * case_decide as E.
        -- rewrite lookup_delete_eq. done.
        -- rewrite lookup_insert_eq. done.
      * assert (Hnot : i ∉ registered_for u h m).
        { rewrite Hmine. congruence. }
        replace (registered_for u h m ∖ {[i]}) with (registered_for u h m) by set_solver.
        case_decide as E.
        -- rewrite lookup_delete_ne by done. apply H3.
        -- rewrite lookup_insert_ne by done. apply H3.
    + assert (Hnot : i ∉ registered_for u h m).
      { rewrite Hmine. congruence. }
      replace (registered_for u h m ∖ {[i]}) with (registered_for u h m) by set_solver.
      apply H3.
Qed.

(** Every state of a registry satisfies the invariant. *)
Lemma reachable_inv (h : Heap) (m : SSEManager) :
  reachable h m -> registry_inv h m.
Proof.
  induction 1 as [| h m uuid options _ IH Hfresh | h m r _ IH _ | h m i _ IH
                  | h m r op c _ IH Hr].
  - apply registry_inv_new.
  - by apply registry_inv_construct.
  - by apply registry_inv_addClient.
  - by apply registry_inv_removeClient.
  - destruct (apply_op_identity c op) as [Hi Hu].
    destruct (same_identity_lookup h r c (apply_op c op) Hr Hi Hu) as [H1 H2].
    by eapply registry_inv_ext.
Qed.

Lemma gset_elem_nonempty (X : gset string) (i : string) : i ∈ X -> X ≠ ∅.
Proof. set_solver. Qed.

Lemma gset_last_elem (X : gset string) (i : string) :
  i ∈ X -> (X ∖ {[i]} = ∅ <-> X = {[i]}).
Proof.
  intros Hin. split; intros E.
  - apply set_eq. intros j. rewrite elem_of_singleton. split.
    + intros Hj. destruct (decide (j = i)) as [-> | Hne]; [done |].
      assert (j ∈ X ∖ {[i]}) as Hd by set_solver. rewrite E in Hd. set_solver.
    + by intros ->.
  - rewrite E. set_solver.
Qed.

(** C7: [removeConnection(id)] followed by [sendToClient(id, record)]
    does nothing; in every state of a registry the per-user index holds
    exactly the users with a registered connection, so that removing a
    connection of user [u] takes [u] out of the index, and [usersCount()]
    down by one, exactly when it was the last connection registered for
    [u], and leaves every other user's entry alone. *)
Theorem remove_then_send_and_user_index :
  (forall (h : Heap) (m : SSEManager) (i : string) (evt : ServerEvent),
      clientsById (removeClient i h m).2 !! i = None /\
      sendToClient i evt (removeClient i h m).1.2 (removeClient i h m).2
      = (Fulfilled, (removeClient i h m).1.2)) /\
  (forall (h : Heap) (m : SSEManager) (u : string),
      reachable h m ->
      (is_Some (clientIdsByUser m !! u) <-> registered_for u h m ≠ ∅)) /\
  (forall (h : Heap) (m : SSEManager) (i u : string) (r : ref) (c : SSEClient),
      reachable h m ->
      clientsById m !! i = Some r -> h !! r = Some c -> user_of c = Some u ->
      registered_for u (removeClient i h m).1.2 (removeClient i h m).2
      = registered_for u h m ∖ {[i]} /\
      (clientIdsByUser (removeClient i h m).2 !! u = None
       <-> registered_for u h m = {[i]}) /\
      usersCount (removeClient i h m).2
      = (if decide (registered_for u h m = {[i]})
         then usersCount m - 1 else usersCount m)%nat /\
      (forall u', u' ≠ u ->
         clientIdsByUser (removeClient i h m).2 !! u' = clientIdsByUser m !! u')).
Proof.
  split; [| split].
  - intros h m i evt.
    assert (Hgone : clientsById (removeClient i h m).2 !! i = None).
    { destruct (clientsById m !! i) as [r |] eqn:Hi.
      - destruct (removeClient_known h m i r Hi) as (_ & -> & _).
        apply lookup_delete_eq.
      - by rewrite removeClient_unknown. }
    split; [done |]. unfold sendToClient. by rewrite Hgone.
  - intros h m u Hreach. destruct (reachable_inv h m Hreach) as [_ _ H3].
    rewrite H3. case_decide as E.
    + split; [by intros [? ?] | done].
    + split; [done | intros _; by eexists].
  - intros h m i u r c Hreach Hi Hr Hu.
    pose proof (reachable_inv h m Hreach) as Hinv.
    pose proof (registry_inv_removeClient h m i Hinv) as [_ _ H3'].
    destruct Hinv as [H1 H2 H3].
    destruct (removeClient_known h m i r Hi) as (Hh & HbyId & HbyUser).
    destruct (call_identity close r h close_identity) as [_ Hext].
    rewrite <- Hh in Hext.
    assert (Hreg : forall u', registered_for u' (removeClient i h m).1.2
                                (removeClient i h m).2
                              = registered_for u' h m ∖ {[i]}).
    { intros u'. by apply registered_for_delete. }
    assert (Hin : i ∈ registered_for u h m).
    { apply elem_of_registered_for. exists r. by rewrite Hr. }
    pose proof (gset_last_elem _ _ Hin) as Hlast.
    pose proof (gset_elem_nonempty _ _ Hin) as Hne0.
    split; [apply Hreg |]. split; [| split].
    + rewrite H3', Hreg. case_decide as E; [by rewrite <- Hlast |].
      split; [done |]. intros E'. by apply Hlast in E'.
    + unfold usersCount. rewrite HbyUser, Hr. cbn. rewrite Hu, (H3 u).
      rewrite (decide_False (P := registered_for u h m = ∅)) by done.
      destruct (decide (registered_for u h m ∖ {[i]} = ∅)) as [E | E].
      * rewrite decide_True by by apply Hlast.
        rewrite map_size_delete_Some; [lia |]. rewrite H3.
        rewrite (decide_False (P := registered_for u h m = ∅)) by done.
        by eexists.
      * rewrite decide_False by by rewrite <- Hlast.
        apply map_size_insert_Some. rewrite H3.
        rewrite (decide_False (P := registered_for u h m = ∅)) by done.
        by eexists.
    + intros u' Hne. rewrite HbyUser, Hr. cbn. rewrite Hu, (H3 u).
      rewrite (decide_False (P := registered_for u h m = ∅)) by done.
      case_decide; [by rewrite lookup_delete_ne | by rewrite lookup_insert_ne].
Qed.

(** *** Fan-out *)

Lemma send_fulfilled (evt : ServerEvent) (c : SSEClient) : (send evt c).1 = Fulfilled.
Proof. apply writeRaw_fulfilled. Qed.

Lemma call_send_fulfilled (evt : ServerEvent) (r : ref) (h : Heap) :
  (call (send evt) r h).1 = Fulfilled.
Proof.
  unfold call. destruct (h !! r) as [c |]; [| done].
  pose proof (send_fulfilled evt c). by destruct (send evt c).
Qed.

Lemma call_send_lookup (evt : ServerEvent) (r r' : ref) (h : Heap) :
  (call (send evt) r h).2 !! r' =
  if decide (r' = r) then (fun c => (send evt c).2) <$> h !! r' else h !! r'.
Proof.
  unfold call. destruct (h !! r) as [c |] eqn:Hr.
  - destruct (send evt c) as [k c'] eqn:E. cbn. case_decide as Hd.
    + subst r'. rewrite list_lookup_insert_eq by (by eapply lookup_lt_Some).
      by rewrite Hr; cbn; rewrite E.
    + by rewrite list_lookup_insert_ne.
  - cbn. case_decide as Hd; [| done]. subst r'. by rewrite Hr.
Qed.

Lemma send_each_fulfilled (evt : ServerEvent) (targets : list ref) (h : Heap) :
  promise_all (send_each evt targets h).1 = Fulfilled.
Proof.
  revert h. induction targets as [| r targets IH]; intros h; [done |].
  cbn [send_each]. pose proof (call_send_fulfilled evt r h) as Hk.
  destruct (call (send evt) r h) as [k h1]. cbn in Hk. subst k.
  specialize (IH h1). destruct (send_each evt targets h1) as [ks h2].
  cbn in *. unfold promise_all in *. cbn. exact IH.
Qed.

(** Every target is sent to once, and nothing else is touched. *)
Lemma send_each_lookup (evt : ServerEvent) (targets : list ref) (h : Heap) (r : ref) :
  NoDup targets ->
  (send_each evt targets h).2 !! r =
  if decide (r ∈ targets) then (fun c => (send evt c).2) <$> h !! r else h !! r.
Proof.
  revert h. induction targets as [| t targets IH]; intros h Hnd.
  - cbn. by rewrite decide_False by apply not_elem_of_nil.
  - apply NoDup_cons in Hnd as [Hnotin Hnd]. cbn [send_each].
    pose proof (call_send_lookup evt t r h) as Hcall.
    destruct (call (send evt) t h) as [k h1]. cbn in Hcall.
    specialize (IH h1 Hnd). destruct (send_each evt targets h1) as [ks h2].
    cbn in *. rewrite IH, Hcall.
    destruct (decide (r = t)) as [-> | Hne].
    + rewrite (decide_False (P := t ∈ targets)) by done.
      by rewrite decide_True by apply list_elem_of_here.
    + destruct (decide (r ∈ targets)) as [Hin | Hnin].
      * by rewrite decide_True by by apply list_elem_of_further.
      * rewrite decide_False; [done |].
        intros [? | ?]%elem_of_cons; done.
Qed.

Lemma broadcast_targets_NoDup (h : Heap) (m : SSEManager) :
  registry_inv h m -> NoDup (map_to_list (clientsById m)).*2.
Proof.
  intros [H1 H2 _]. apply NoDup_fmap_2_strong; [| apply NoDup_map_to_list].
  intros [i r] [i' r'] Hin Hin' Heq. cbn in Heq. subst r'.
  apply elem_of_map_to_list in Hin, Hin'.
  apply H2 in Hin, Hin'. rewrite Hin in Hin'. by injection Hin' as ->.
Qed.

Lemma broadcast_target_iff (m : SSEManager) (r : ref) :
  r ∈ (map_to_list (clientsById m)).*2 <-> exists i, clientsById m !! i = Some r.
Proof.
  rewrite list_elem_of_fmap. split.
  - intros ([i r'] & -> & Hin). exists i. by apply elem_of_map_to_list.
  - intros [i Hi]. exists (i, r). split; [done |]. by apply elem_of_map_to_list.
Qed.

Lemma broadcast_lookup (evt : ServerEvent) (h : Heap) (m : SSEManager) (r : ref) :
  registry_inv h m ->
  (broadcast evt h m).2 !! r =
  if decide (r ∈ (map_to_list (clientsById m)).*2)
  then (fun c => (send evt c).2) <$> h !! r else h !! r.
Proof.
  intros Hinv. unfold broadcast.
  pose proof (send_each_lookup evt (map_to_list (clientsById m)).*2 h r
                (broadcast_targets_NoDup h m Hinv)) as Hl.
  by destruct (send_each evt _ h) as [ks h'].
Qed.

Lemma broadcast_fulfilled (evt : ServerEvent) (h : Heap) (m : SSEManager) :
  (broadcast evt h m).1 = Fulfilled.
Proof.
  unfold broadcast.
  pose proof (send_each_fulfilled evt (map_to_list (clientsById m)).*2 h) as Hk.
  by destruct (send_each evt _ h).
Qed.

(** A send on a connection whose write fails closes it and writes nothing. *)
Lemma send_write_fails (evt : ServerEvent) (c : SSEClient) :
  closed c = false -> w_status (writer c) ≠ Writable ->
  closed (send evt c).2 = true /\
  heartbeat (send evt c).2 = None /\
  w_chunks (writer (send evt c).2) = w_chunks (writer c).
Proof.
  intros Hc Hw. unfold send, writeRaw, writer_write. rewrite Hc.
  destruct (w_status (writer c)) eqn:E; [done | |];
    unfold close, writer_close; cbn; rewrite Hc, E; done.
Qed.

(** A send on an open connection with a writable pipe appends the frame. *)
Lemma send_delivers (evt : ServerEvent) (c : SSEClient) :
  closed c = false -> w_status (writer c) = Writable ->
  closed (send evt c).2 = false /\
  w_chunks (writer (send evt c).2) = w_chunks (writer c) ++ [formatMessage evt].
Proof.
  intros Hc Hw. unfold send, writeRaw, writer_write. by rewrite Hc, Hw.
Qed.

(** The states of a registry are closed under the sends of the registry. *)
Lemma reachable_call_send (evt : ServerEvent) (r : ref) (h : Heap) (m : SSEManager) :
  reachable h m -> reachable (call (send evt) r h).2 m.
Proof.
  intros Hreach. unfold call. destruct (h !! r) as [c |] eqn:Hr; [| done].
  pose proof (reach_client_op h m r (OpSend evt) c Hreach Hr) as H.
  cbn [apply_op] in H. by destruct (send evt c).
Qed.

Lemma reachable_send_each (evt : ServerEvent) (targets : list ref) (h : Heap)
    (m : SSEManager) :
  reachable h m -> reachable (send_each evt targets h).2 m.
Proof.
  revert h. induction targets as [| r targets IH]; intros h Hreach; [done |].
  cbn [send_each]. pose proof (reachable_call_send evt r h m Hreach) as H1.
  destruct (call (send evt) r h) as [k h1]. cbn in H1.
  specialize (IH h1 H1). by destruct (send_each evt targets h1).
Qed.

Lemma reachable_broadcast (evt : ServerEvent) (h : Heap) (m : SSEManager) :
  reachable h m -> reachable (broadcast evt h m).2 m.
Proof.
  intros Hreach. unfold broadcast.
  pose proof (reachable_send_each evt (map_to_list (clientsById m)).*2 h m Hreach) as H.
  by destruct (send_each evt _ h).
Qed.

Lemma reachable_sendToUser (user : string) (evt : ServerEvent) (h : Heap)
    (m : SSEManager) :
  reachable h m -> reachable (sendToUser user evt h m).2 m.
Proof.
  intros Hreach. unfold sendToUser.
  destruct (clientIdsByUser m !! user) as [ids |]; [| done].
  destruct (Nat.eqb (size ids) 0); [done |].
  pose proof (reachable_send_each evt
                (omap (fun cid => clientsById m !! cid) (elements ids)) h m Hreach) as H.
  by destruct (send_each evt _ h).
Qed.

Lemma reachable_sendToClient (clientId : string) (evt : ServerEvent) (h : Heap)
    (m : SSEManager) :
  reachable h m -> reachable (sendToClient clientId evt h m).2 m.
Proof.
  intros Hreach. unfold sendToClient.
  destruct (clientsById m !! clientId) as [r |]; [| done].
  by apply reachable_call_send.
Qed.

Lemma reachable_createClient (uuid : string) (options : option SSEClientOptions)
    (h : Heap) (m : SSEManager) :
  reachable h m -> uuid ∉ (id <$> h) ->
  reachable (createClient uuid options h m).1.2 (createClient uuid options h m).2.
Proof.
  intros Hreach Hfresh. unfold createClient. cbn.
  apply reach_addClient; [by apply reach_construct |].
  rewrite lookup_app_r by done. rewrite Nat.sub_diag. by eexists.
Qed.

(** C5: [broadcast(record)] over the registered connections, one of which
    has a failing write: the broadcast itself is fulfilled, the failing
    connection ends up closed with nothing written and nothing retried, and
    every other registered connection that is open receives the frame of
    the record exactly once; connections that are not registered are not
    touched. *)
Theorem broadcast_isolates_failure
    (h : Heap) (m : SSEManager) (evt : ServerEvent) (bad : ref) (cbad : SSEClient) :
  reachable h m ->
  clientsById m !! id cbad = Some bad ->
  h !! bad = Some cbad ->
  closed cbad = false ->
  w_status (writer cbad) ≠ Writable ->
  (broadcast evt h m).1 = Fulfilled /\
  (exists c', (broadcast evt h m).2 !! bad = Some c' /\
              closed c' = true /\
              w_chunks (writer c') = w_chunks (writer cbad)) /\
  (forall (i : string) (r : ref) (c : SSEClient),
      clientsById m !! i = Some r -> r ≠ bad ->
      h !! r = Some c -> closed c = false -> w_status (writer c) = Writable ->
      exists c', (broadcast evt h m).2 !! r = Some c' /\
                 closed c' = false /\
                 w_chunks (writer c') = w_chunks (writer c) ++ [formatMessage evt]) /\
  (forall r : ref,
      (forall i, clientsById m !! i ≠ Some r) ->
      (broadcast evt h m).2 !! r = h !! r).
Proof.
  intros Hreach Hbad Hhbad Hopen Hfail.
  pose proof (reachable_inv h m Hreach) as Hinv.
  split; [apply broadcast_fulfilled |]. split; [| split].
  - exists (send evt cbad).2. rewrite (broadcast_lookup evt h m bad Hinv).
    rewrite decide_True by (apply broadcast_target_iff; eauto).
    rewrite Hhbad. split; [done |].
    destruct (send_write_fails evt cbad Hopen Hfail) as (? & _ & ?). done.
  - intros i r c Hi Hne Hr Hc Hw. exists (send evt c).2.
    rewrite (broadcast_lookup evt h m r Hinv).
    rewrite decide_True by (apply broadcast_target_iff; eauto).
    rewrite Hr. split; [done |].
    by apply send_delivers.
  - intros r Hnot. rewrite (broadcast_lookup evt h m r Hinv).
    rewrite decide_False; [done |].
    intros [i Hi]%broadcast_target_iff. by apply (Hnot i).
Qed.

End Registry.

(** ** The two versions of the registry *)

Section TwoManagers.

Import Server.

Lemma clientsById_addClient (r : ref) (h : Heap) (m : SSEManager) (c : SSEClient) :
  h !! r = Some c ->
  clientsById (addClient r h m) = <[id c := r]> (clientsById m).
Proof.
  intros Hr. unfold addClient. rewrite Hr.
  destruct (userId c) as [u |]; [| done]. by destruct (Js.truthy_str u).
Qed.

Lemma close_sessionId (c : SSEClient) : sessionId (close c).2 = sessionId c.
Proof. unfold close. destruct (closed c); [done |]. by destruct (writer_close _). Qed.

Lemma writeRaw_sessionId (buf : string) (c : SSEClient) :
  sessionId (writeRaw buf c).2 = sessionId c.
Proof.
  unfold writeRaw. destruct (closed c); [done |].
  destruct (writer_write buf (writer c)) as [[] w]; [done |].
  by rewrite close_sessionId.
Qed.

Lemma apply_op_sessionId (c : SSEClient) (op : ClientOp) :
  sessionId (apply_op c op) = sessionId c.
Proof.
  destruct op; cbn [apply_op]; try done.
  - apply writeRaw_sessionId.
  - apply writeRaw_sessionId.
  - unfold heartbeat_tick, ping.
    pose proof (writeRaw_sessionId (": ping " +:+ Js.string_of_Z now +:+ Js.nl +:+ Js.nl) c)
      as H.
    destruct (writeRaw _ c) as [[] c']; cbn in *; by rewrite ?close_sessionId.
  - apply close_sessionId.
Qed.

Lemma call_close_sessionId (r : ref) (h : Heap) :
  Forall (fun c => sessionId c = None) h ->
  Forall (fun c => sessionId c = None) (call close r h).2.
Proof.
  intros Hall. unfold call. destruct (h !! r) as [c |] eqn:Hr; [| done].
  pose proof (close_sessionId c) as Hs. destruct (close c) as [k c']. cbn in *.
  apply Forall_insert; [done |]. rewrite Hs.
  by eapply (proj1 (Forall_lookup _ _) Hall).
Qed.

(** No client that a program builds has a [sessionId]. *)
Lemma reachable_sessionId (h : Heap) (m : SSEManager) :
  reachable h m -> Forall (fun c => sessionId c = None) h.
Proof.
  induction 1 as [| h m uuid options _ IH _ | h m client _ IH _
                  | h m clientId _ IH | h m client op c _ IH Hc].
  - constructor.
  - apply Forall_app. split; [done |]. by constructor.
  - done.
  - destruct (clientsById m !! clientId) as [r |] eqn:Hi.
    + destruct (removeClient_known h m clientId r Hi) as (-> & _).
      by apply call_close_sessionId.
    + by rewrite (removeClient_unknown h m clientId Hi).
  - apply Forall_insert; [done |]. rewrite apply_op_sessionId.
    by eapply (proj1 (Forall_lookup _ _) IH).
Qed.

Lemma embedded_manager_keys (ops : list RegistryOp) (h : Heap) (ml : Legacy.SSEManager) :
  Forall (fun c => sessionId c = None) h ->
  (forall k, Legacy.clientsById ml !! Some k = None) ->
  (Legacy.run_ops ops h ml).1 = h /\
  forall k, Legacy.clientsById (Legacy.run_ops ops h ml).2 !! Some k = None.
Proof.
  revert ml. induction ops as [| [r | i] ops IH]; intros ml Hall Hkeys; [done | |].
  - cbn [Legacy.run_ops]. apply IH; [done |]. intros k. unfold Legacy.addClient.
    destruct (h !! r) as [c |] eqn:Hr; [| done]. cbn.
    rewrite (proj1 (Forall_lookup _ _) Hall r c Hr).
    by rewrite lookup_insert_ne.
  - cbn [Legacy.run_ops]. unfold Legacy.removeClient. rewrite Hkeys. by apply IH.
Qed.

Lemma size_keyed_by_undefined (ml : gmap (option string) ref) :
  (forall k, ml !! Some k = None) -> (size ml <= 1)%nat.
Proof.
  intros Hkeys. destruct (ml !! None) as [r |] eqn:Hnone.
  - assert (ml = {[None := r]}) as ->; [| by rewrite map_size_singleton].
    apply map_eq. intros [k |].
    + by rewrite Hkeys, lookup_singleton_ne.
    + by rewrite Hnone, lookup_singleton_eq.
  - assert (ml = ∅) as ->; [| rewrite map_size_empty; lia].
    apply map_empty. by intros [k |].
Qed.

(** C10: the two versions do not behave alike on the clients a program
    builds.  No such client has a [sessionId], so the manager kept in
    [client.ts], which registers a client under [client.sessionId], stores
    every client under [undefined]: a client just added to a new manager is
    not found by [sendToClient(c.id, r)], which writes nothing, and
    [clientsCount()] never exceeds 1 whatever is added and removed; the
    manager with the user index registers under [client.id], delivers [r]
    to [c] and counts every client.  On three constructed clients the
    counts are 1 and 3. *)
Theorem embedded_manager_keys_every_client_by_undefined :
  (forall (h : Heap) (m : SSEManager),
      reachable h m -> Forall (fun c => sessionId c = None) h) /\
  (forall (h : Heap) (m : SSEManager) (ml : Legacy.SSEManager) (r : ref)
          (c : SSEClient) (evt : ServerEvent),
      reachable h m -> h !! r = Some c ->
      Legacy.clientsById (Legacy.addClient r h ml)
      = <[None := r]> (Legacy.clientsById ml) /\
      Legacy.sendToClient (id c) evt h (Legacy.addClient r h ml)
      = Legacy.sendToClient (id c) evt h ml /\
      Legacy.sendToClient (id c) evt h (Legacy.addClient r h Legacy.new_SSEManager)
      = (Fulfilled, h) /\
      sendToClient (id c) evt h (addClient r h m) = call (send evt) r h) /\
  (forall (h : Heap) (m : SSEManager) (ops : list RegistryOp),
      reachable h m ->
      (Legacy.clientsCount (Legacy.run_ops ops h Legacy.new_SSEManager).2 <= 1)%nat) /\
  Legacy.clientsCount
    (Legacy.run_ops [RAdd 0; RAdd 1; RAdd 2] Scenario.three_clients
       Legacy.new_SSEManager).2 = 1%nat /\
  clientsCount
    (run_ops [RAdd 0; RAdd 1; RAdd 2] Scenario.three_clients new_SSEManager).2 = 3%nat.
Proof.
  split; [exact reachable_sessionId |]. split; [| split; [| split]].
  - intros h m ml r c evt Hreach Hr.
    pose proof (proj1 (Forall_lookup _ _) (reachable_sessionId h m Hreach) r c Hr) as Hs.
    assert (E : Legacy.clientsById (Legacy.addClient r h ml)
                = <[None := r]> (Legacy.clientsById ml)).
    { unfold Legacy.addClient. by rewrite Hr, Hs. }
    split; [exact E |]. split; [| split].
    + unfold Legacy.sendToClient. rewrite E. by rewrite lookup_insert_ne.
    + unfold Legacy.sendToClient, Legacy.addClient. rewrite Hr, Hs. cbn.
      by rewrite lookup_insert_ne, lookup_empty.
    + unfold sendToClient.
      by rewrite (clientsById_addClient r h m c Hr), lookup_insert_eq.
  - intros h m ops Hreach. unfold Legacy.clientsCount.
    apply size_keyed_by_undefined.
    apply (embedded_manager_keys ops h Legacy.new_SSEManager);
      [by eapply reachable_sessionId | intros k; apply lookup_empty].
  - vm_compute. reflexivity.
  - vm_compute. reflexivity.
Qed.

(** C10, the failing input: one client built by the constructor of
    [SSEClient].  It has no [sessionId], so the version kept next to
    [client.ts] registers it under [undefined], where its own comment on the
    map says [clientId -> client], and [sendToClient(c.id, r)] finds
    nothing. *)
Lemma managers_not_equivalent : ~ Spec.managers_equivalent.
Proof.
  intros [Hdeliver _].
  destruct (Hdeliver [new_SSEClient "c1" None] 0%nat (new_SSEClient "c1" None)
              Scenario.event_x eq_refl) as [_ Hlegacy].
  vm_compute in Hlegacy. discriminate Hlegacy.
Qed.

End TwoManagers.

(** ** The listener registry of the hook *)

Section Listeners.

Import Receiver Transport.

Variable urlString : string.
Variable opts : Options.
Variable behaviour : Handler -> list Arg -> option string.

Lemma set_log_log (st : Hook) : set_log (log st) st = st.
Proof. by destruct st. Qed.

Lemma foldl_call_handler (name : string) (args : list Arg) (set : list Handler)
    (st : Hook) :
  foldl (call_handler behaviour name args) st set
  = set_log (log st ++ flat_map (handler_effects behaviour name args) set) st.
Proof.
  revert st. induction set as [| fn set IH]; intros st.
  - cbn. by rewrite app_nil_r, set_log_log.
  - cbn [foldl flat_map]. rewrite IH. unfold call_handler, handler_effects, push_log.
    destruct (behaviour fn args) as [err |]; cbn;
      unfold set_log; cbn; f_equal; by rewrite <- ?app_assoc.
Qed.

Lemma emit_log (name : string) (args : list Arg) (st : Hook) :
  emit behaviour name args st
  = set_log (log st ++ flat_map (handler_effects behaviour name args)
                                (default [] (listenersRef st !! name))) st.
Proof.
  unfold emit. destruct (listenersRef st !! name) as [set |]; cbn.
  - apply foldl_call_handler.
  - by rewrite app_nil_r, set_log_log.
Qed.

Lemma calls_app (l1 l2 : list Effect) : calls (l1 ++ l2) = calls l1 ++ calls l2.
Proof. unfold calls. apply omap_app. Qed.

Lemma calls_handler_effects (name : string) (args : list Arg) (set : list Handler) :
  calls (flat_map (handler_effects behaviour name args) set)
  = (fun fn => (fn, args)) <$> set.
Proof.
  induction set as [| fn set IH]; [done |].
  cbn [flat_map]. rewrite calls_app, IH. unfold handler_effects.
  by destruct (behaviour fn args).
Qed.

(** C8: on a dispatch the handlers registered for the name are all called,
    once each, in the order in which they were registered, with the same
    arguments; a handler that throws is reported on [console.error] and the
    handlers after it are called all the same.  A newly registered handler
    goes to the end of the order. *)
Theorem emit_calls_every_handler_in_order :
  (forall (name : string) (args : list Arg) (st : Hook),
      log (emit behaviour name args st)
      = log st ++ flat_map (handler_effects behaviour name args)
                           (default [] (listenersRef st !! name)) /\
      calls (log (emit behaviour name args st))
      = calls (log st) ++ ((fun fn => (fn, args)) <$> default [] (listenersRef st !! name))) /\
  (forall (name : string) (args : list Arg) (st : Hook) (fn : Handler) (err : string),
      fn ∈ default [] (listenersRef st !! name) ->
      behaviour fn args = Some err ->
      ConsoleError ("Listener for " +:+ String Js.dquote name
                      +:+ String Js.dquote " threw") (Some err)
        ∈ log (emit behaviour name args st)) /\
  (forall (name : string) (ev : MessageEvent) (st : Hook),
      calls (log (dispatch opts behaviour name ev st))
      = calls (log st) ++
          ((fun fn => (fn, [ArgData (parse opts (me_data ev)); ArgEvent (Message ev)]))
             <$> default [] (listenersRef st !! name))) /\
  (forall (name : string) (fn : Handler) (st : Hook),
      listenersRef (addListener name fn st) !! name
      = Some (if decide (fn ∈ default [] (listenersRef st !! name))
              then default [] (listenersRef st !! name)
              else default [] (listenersRef st !! name) ++ [fn])).
Proof.
  split; [| split; [| split]].
  - intros name args st. rewrite emit_log. cbn. split; [done |].
    by rewrite calls_app, calls_handler_effects.
  - intros name args st fn err Hin Herr. rewrite emit_log. cbn.
    apply elem_of_app. right. apply list_elem_of_In, in_flat_map.
    exists fn. split; [by apply list_elem_of_In |].
    unfold handler_effects. rewrite Herr. right. by left.
  - intros name ev st. unfold dispatch.
    destruct (listenersRef st !! name) as [set |] eqn:E; cbn; [| by rewrite app_nil_r].
    destruct (Nat.eqb (length set) 0) eqn:Hlen.
    { destruct set; [| done]. cbn. by rewrite app_nil_r. }
    rewrite emit_log. cbn [log set_log set_state listenersRef]. rewrite E.
    by rewrite calls_app, calls_handler_effects.
  - intros name fn st. unfold addListener, attachNamedIfNeeded.
    assert (Hset : forall st', listenersRef st' = <[name := set_add fn
                      (default [] (listenersRef st !! name))]> (listenersRef st) ->
                    listenersRef st' !! name
                    = Some (if decide (fn ∈ default [] (listenersRef st !! name))
                            then default [] (listenersRef st !! name)
                            else default [] (listenersRef st !! name) ++ [fn])).
    { intros st' ->. by rewrite lookup_insert_eq. }
    destruct (Utils.isReservedEvent name); [by apply Hset |]. cbn.
    destruct (eventSourceRef st); [| by apply Hset].
    destruct (decide (is_Some (dispatchersRef st !! name))); by apply Hset.
Qed.

End Listeners.

(** ** The connection state machine of the hook *)

Section StateMachine.

Import Receiver Transport.

Variable urlString : string.
Variable opts : Options.
Variable behaviour : Handler -> list Arg -> option string.

(** Projections of updated states. *)
Ltac hook_simpl :=
  cbn [eventSourceRef retryRef timerRef destroyedRef listenersRef dispatchersRef
       state sources timers next_timer next_dispatch log
       set_eventSourceRef set_retryRef set_timerRef set_destroyedRef
       set_listenersRef set_dispatchersRef set_state set_sources set_timers
       set_next_timer set_next_dispatch set_log update_source push_log] in *.

Lemma same_core_refl (st : Hook) : same_core st st.
Proof. by repeat split. Qed.

Lemma same_core_trans (st1 st2 st3 : Hook) :
  same_core st1 st2 -> same_core st2 st3 -> same_core st1 st3.
Proof.
  intros (A1 & A2 & A3 & A4 & A5 & A6) (B1 & B2 & B3 & B4 & B5 & B6).
  repeat split; congruence.
Qed.

Lemma same_core_inv (st st' : Hook) : same_core st st' -> hook_inv st -> hook_inv st'.
Proof.
  intros (E1 & E2 & E3 & E4 & E5 & E6) [H1 H2 H3 H4 H5].
  split; rewrite ?E1, ?E2, ?E3, ?E4, ?E5, ?E6; done.
Qed.

Lemma same_core_quiescent (st st' : Hook) :
  same_core st st' -> quiescent st -> quiescent st'.
Proof.
  intros (E1 & E2 & E3 & E4 & E5 & E6). unfold quiescent.
  by rewrite E1, E4, E5, E6.
Qed.

Lemma emit_same_core (name : string) (args : list Arg) (st : Hook) :
  same_core st (emit behaviour name args st).
Proof. rewrite emit_log. by repeat split. Qed.

Lemma dispatch_same_core (name : string) (ev : MessageEvent) (st : Hook) :
  same_core st (dispatch opts behaviour name ev st).
Proof.
  unfold dispatch. destruct (listenersRef st !! name) as [set |]; [| apply same_core_refl].
  destruct (Nat.eqb (length set) 0); [apply same_core_refl |].
  rewrite emit_log. by repeat split.
Qed.

Lemma onmessage_same_core (ev : MessageEvent) (st : Hook) :
  same_core st (onmessage opts behaviour ev st).
Proof. unfold onmessage. rewrite emit_log. by repeat split. Qed.

(** *** Attaching and detaching dispatchers *)

Lemma lookup_update_source (r r' : nat) (f : EventSource -> EventSource) (st : Hook) :
  sources (update_source r f st) !! r' =
  if decide (r = r') then f <$> sources st !! r' else sources st !! r'.
Proof.
  unfold update_source. cbn. case_decide as E.
  - subst. apply list_lookup_alter_eq.
  - by apply list_lookup_alter_ne.
Qed.

Lemma elem_of_addEventListener (name : string) (d : nat) (src : EventSource)
    (l : string * nat) :
  l ∈ es_listeners (addEventListener name d src) <->
  l ∈ es_listeners src \/ l = (name, d).
Proof.
  unfold addEventListener. case_decide as E; cbn.
  - split; [by left |]. intros [? | ->]; done.
  - rewrite elem_of_app, list_elem_of_singleton. done.
Qed.

Lemma readyState_addEventListener (name : string) (d : nat) (src : EventSource) :
  es_readyState (addEventListener name d src) = es_readyState src.
Proof. unfold addEventListener. by case_decide. Qed.

Lemma elem_of_removeEventListener (name : string) (d : nat) (src : EventSource)
    (l : string * nat) :
  l ∈ es_listeners (removeEventListener name d src) <->
  l ∈ es_listeners src /\ l ≠ (name, d).
Proof. unfold removeEventListener. cbn. rewrite list_elem_of_filter. tauto. Qed.

Lemma attachNamedIfNeeded_inv (name : string) (st : Hook) :
  hook_inv st -> is_Some (listenersRef st !! name) ->
  hook_inv (attachNamedIfNeeded name st).
Proof.
  intros Hinv Hname. unfold attachNamedIfNeeded.
  destruct (Utils.isReservedEvent name) eqn:Hres; [done |].
  destruct (eventSourceRef st) as [es |] eqn:Hes; [| done].
  destruct (decide (is_Some (dispatchersRef st !! name))) as [Hd | Hd]; [done |].
  apply eq_None_not_Some in Hd.
  pose proof Hinv as [H1 H2 H3 H4 H5]. rewrite Hes in H3.
  destruct H3 as (src & Hsrc & Hiff).
  split; hook_simpl.
  - exact H1.
  - intros n d. destruct (decide (name = n)) as [<- | Hne].
    + by rewrite lookup_insert_eq.
    + rewrite lookup_insert_ne by done. apply H2.
  - rewrite Hes. exists (addEventListener name (next_dispatch st) src). split.
    + rewrite list_lookup_alter_eq. by rewrite Hsrc.
    + intros n d. rewrite elem_of_addEventListener, Hiff.
      destruct (decide (name = n)) as [<- | Hne].
      * rewrite lookup_insert_eq, Hd. split; [intros [? | [= ->]]; done |].
        intros [= ->]. by right.
      * rewrite lookup_insert_ne by done. split; [intros [? | [= ? ?]]; done |].
        by left.
  - intros es' src' Hsrc' Hne. rewrite Hes in Hne.
    rewrite list_lookup_alter_ne in Hsrc' by congruence.
    apply (H4 es' src' Hsrc'). by rewrite Hes.
  - intros t Ht. destruct (H5 t Ht) as [Ht1 Ht2]. split; [done |].
    intros es' src' Hsrc'. destruct (decide (es = es')) as [<- | Hne].
    + rewrite list_lookup_alter_eq, Hsrc in Hsrc'. cbn in Hsrc'.
      injection Hsrc' as <-. rewrite readyState_addEventListener. by eapply Ht2.
    + rewrite list_lookup_alter_ne in Hsrc' by done. by eapply Ht2.
Qed.

Lemma set_add_nonempty (fn : Handler) (set : list Handler) : set_add fn set ≠ [].
Proof.
  unfold set_add. case_decide as E.
  - intros ->. by apply not_elem_of_nil in E.
  - by destruct set.
Qed.

Lemma addListener_inv (name : string) (fn : Handler) (st : Hook) :
  hook_inv st -> hook_inv (addListener name fn st).
Proof.
  intros [H1 H2 H3 H4 H5]. unfold addListener.
  apply attachNamedIfNeeded_inv; [| hook_simpl; by rewrite lookup_insert_eq].
  split; hook_simpl; try done.
  - intros n set. destruct (decide (name = n)) as [<- | Hne].
    + rewrite lookup_insert_eq. intros [= <-]. apply set_add_nonempty.
    + rewrite lookup_insert_ne by done. apply H1.
  - intros n d Hd. destruct (H2 n d Hd) as [Hr Hl]. split; [done |].
    destruct (decide (name = n)) as [<- | Hne].
    + by rewrite lookup_insert_eq.
    + by rewrite lookup_insert_ne.
Qed.

Lemma unsubscribe_inv (name : string) (fn : Handler) (st : Hook) :
  hook_inv st -> hook_inv (unsubscribe name fn st).
Proof.
  intros Hinv. pose proof Hinv as [H1 H2 H3 H4 H5]. unfold unsubscribe.
  destruct (listenersRef st !! name) as [current |] eqn:Hcur; [| done].
  destruct (Nat.ltb 0 (length (set_delete fn current))) eqn:Hlen.
  { (* handlers remain *)
    split; hook_simpl; try done.
    - intros n set. destruct (decide (name = n)) as [<- | Hne].
      + rewrite lookup_insert_eq. intros [= <-] E. by rewrite E in Hlen.
      + rewrite lookup_insert_ne by done. apply H1.
    - intros n d Hd. destruct (H2 n d Hd) as [Hr Hl]. split; [done |].
      destruct (decide (name = n)) as [<- | Hne].
      + by rewrite lookup_insert_eq.
      + by rewrite lookup_insert_ne. }
  (* the last handler is gone *)
  hook_simpl.
  set (detached :=
         match dispatchersRef st !! name, eventSourceRef st with
         | Some disp, Some es =>
             if Utils.isReservedEvent name then _
             else update_source es (removeEventListener name disp) _
         | _, _ => _
         end).
  assert (Hcore : eventSourceRef detached = eventSourceRef st /\
                  timerRef detached = timerRef st /\
                  timers detached = timers st /\
                  dispatchersRef detached = dispatchersRef st /\
                  listenersRef detached
                  = delete name (<[name := set_delete fn current]> (listenersRef st))).
  { subst detached.
    destruct (dispatchersRef st !! name) eqn:Hd0, (eventSourceRef st) eqn:Hes0;
      try destruct (Utils.isReservedEvent name); hook_simpl; rewrite ?Hes0, ?Hd0;
      by repeat split. }
  destruct Hcore as (C1 & C2 & C3 & C4 & C5).
  assert (Hsrc : forall es' src',
             sources detached !! es' = Some src' ->
             exists src, sources st !! es' = Some src /\
               es_readyState src' = es_readyState src /\
               (forall l, l ∈ es_listeners src' <->
                          l ∈ es_listeners src /\
                          (eventSourceRef st = Some es' -> l.1 ≠ name))).
  { intros es' src' Hs. subst detached.
    destruct (dispatchersRef st !! name) as [disp |] eqn:Hd.
    - destruct (eventSourceRef st) as [es |] eqn:Hes.
      + destruct (H2 _ _ Hd) as [Hres _]. rewrite Hres in Hs.
        destruct H3 as (src & Hsrc & Hiff).
        rewrite lookup_update_source in Hs. hook_simpl.
        destruct (decide (es = es')) as [<- | Hne].
        * rewrite Hsrc in Hs. cbn in Hs. injection Hs as <-.
          exists src. split; [done |]. split; [done |].
          intros [n d]. rewrite elem_of_removeEventListener. cbn. split.
          -- intros [Hin Hne]. split; [done |]. intros _ ->.
             apply Hiff in Hin. rewrite Hd in Hin. by injection Hin as ->.
          -- intros [Hin Hne]. split; [done |]. intros [= -> ->]. by apply Hne.
        * exists src'. split; [done |]. split; [done |].
          intros l. split; [| tauto]. intros Hin. split; [done |]. congruence.
      + exists src'. hook_simpl. split; [done |]. split; [done |].
        intros l. split; [| tauto]. intros Hin. split; done.
    - assert (sources st !! es' = Some src') as Hs'.
      { by destruct (eventSourceRef st). }
      exists src'. split; [done |]. split; [done |].
      intros [n d]. split; [| tauto]. intros Hin. split; [done |].
      intros Hes. cbn. intros ->. rewrite Hes in H3.
      destruct H3 as (src & Hsrc & Hiff). rewrite Hs' in Hsrc. injection Hsrc as <-.
      apply Hiff in Hin. by rewrite Hd in Hin. }
  assert (Hsrc' : forall es' src,
             sources st !! es' = Some src -> is_Some (sources detached !! es')).
  { intros es' src Hs. subst detached.
    destruct (dispatchersRef st !! name), (eventSourceRef st); try by eexists.
    destruct (Utils.isReservedEvent name); [by eexists |].
    rewrite lookup_update_source. hook_simpl. case_decide; rewrite Hs; by eexists. }
  clearbody detached.
  split; hook_simpl; rewrite ?C1, ?C2, ?C3, ?C4, ?C5.
  - intros n set Hn. apply lookup_delete_Some in Hn as [Hne Hn].
    rewrite lookup_insert_ne in Hn by done. by eapply H1.
  - intros n d Hn. apply lookup_delete_Some in Hn as [Hne Hn].
    destruct (H2 n d Hn) as [Hr Hl]. split; [done |].
    by rewrite lookup_delete_ne, lookup_insert_ne.
  - destruct (eventSourceRef st) as [es |] eqn:Hes.
    + destruct H3 as (src & Hsrc0 & Hiff).
      destruct (Hsrc' es src Hsrc0) as [src' Hs'].
      destruct (Hsrc es src' Hs') as (src0 & Hs0 & _ & Hl).
      rewrite Hsrc0 in Hs0. injection Hs0 as <-.
      exists src'. split; [done |]. intros n d. rewrite Hl, Hiff. cbn. split.
      * intros [Hd Hne]. apply lookup_delete_Some. split; [| done].
        intros ->. by apply Hne.
      * intros [Hne Hd]%lookup_delete_Some. split; [done |]. by intros _ ->.
    + rewrite H3. apply delete_empty.
  - intros es' src' Hs' Hne. destruct (Hsrc es' src' Hs') as (src & Hs & Hrs & Hl).
    destruct (H4 es' src Hs Hne) as [Hc Hnil]. split; [congruence |].
    apply elem_of_nil_inv. intros l Hin. apply Hl in Hin as [Hin _].
    rewrite Hnil in Hin. by apply not_elem_of_nil in Hin.
  - intros t Ht. destruct (H5 t Ht) as [Ht1 Ht2]. split; [done |].
    intros es' src' Hs'. destruct (Hsrc es' src' Hs') as (src & Hs & Hrs & _).
    rewrite Hrs. by eapply Ht2.
Qed.

Lemma attachNamedIfNeeded_fields (name : string) (st : Hook) :
  eventSourceRef (attachNamedIfNeeded name st) = eventSourceRef st /\
  listenersRef (attachNamedIfNeeded name st) = listenersRef st /\
  timers (attachNamedIfNeeded name st) = timers st /\
  timerRef (attachNamedIfNeeded name st) = timerRef st /\
  dom (dispatchersRef (attachNamedIfNeeded name st))
  = dom (dispatchersRef st) ∪
      (if Utils.isReservedEvent name then ∅
       else match eventSourceRef st with Some _ => {[name]} | None => ∅ end).
Proof.
  unfold attachNamedIfNeeded. destruct (Utils.isReservedEvent name).
  { repeat split; try done. set_solver. }
  destruct (eventSourceRef st) as [es |] eqn:Hes.
  2: { repeat split; try done. set_solver. }
  destruct (decide (is_Some (dispatchersRef st !! name))) as [Hd | Hd].
  - repeat split; try done. apply elem_of_dom in Hd. set_solver.
  - hook_simpl. repeat split; try done. rewrite dom_insert_L. set_solver.
Qed.

Lemma attach_each_inv (names : list string) (st : Hook) :
  hook_inv st ->
  (forall n, n ∈ names -> is_Some (listenersRef st !! n)) ->
  let st' := foldl (fun st name =>
                      if Utils.isReservedEvent name then st
                      else attachNamedIfNeeded name st) st names in
  hook_inv st' /\
  eventSourceRef st' = eventSourceRef st /\
  listenersRef st' = listenersRef st /\
  timers st' = timers st /\
  timerRef st' = timerRef st /\
  (forall n, n ∈ dom (dispatchersRef st') <->
             n ∈ dom (dispatchersRef st) \/
             (n ∈ names /\ Utils.isReservedEvent n = false /\
              is_Some (eventSourceRef st))).
Proof.
  revert st. induction names as [| name names IH]; intros st Hinv Hnames.
  - cbn. split_and!; try done. intros n. split; [by left |].
    intros [? | [Hn _]]; [done |]. by apply not_elem_of_nil in Hn.
  - cbn [foldl].
    set (st1 := if Utils.isReservedEvent name then st else attachNamedIfNeeded name st).
    assert (Hinv1 : hook_inv st1).
    { subst st1. destruct (Utils.isReservedEvent name); [done |].
      apply attachNamedIfNeeded_inv; [done |]. apply Hnames, list_elem_of_here. }
    destruct (attachNamedIfNeeded_fields name st) as (A1 & A2 & A3 & A4 & A5).
    assert (F : eventSourceRef st1 = eventSourceRef st /\
                listenersRef st1 = listenersRef st /\
                timers st1 = timers st /\ timerRef st1 = timerRef st /\
                dom (dispatchersRef st1)
                = dom (dispatchersRef st) ∪
                    (if Utils.isReservedEvent name then ∅
                     else match eventSourceRef st with Some _ => {[name]} | None => ∅ end)).
    { subst st1. destruct (Utils.isReservedEvent name); [| done].
      repeat split; try done. set_solver. }
    destruct F as (F1 & F2 & F3 & F4 & F5). clearbody st1.
    destruct (IH st1 Hinv1) as (I0 & I1 & I2 & I3 & I4 & I5).
    { intros n Hn. rewrite F2. apply Hnames. by apply list_elem_of_further. }
    split_and!; try congruence. intros n. split.
    + intros Hn. apply I5 in Hn as [Hn | (Hn & Hr & He)].
      * rewrite F5 in Hn. apply elem_of_union in Hn as [Hn | Hn]; [by left |].
        right. destruct (Utils.isReservedEvent name) eqn:Hres;
          [by apply not_elem_of_empty in Hn |].
        destruct (eventSourceRef st); [| by apply not_elem_of_empty in Hn].
        apply elem_of_singleton in Hn as ->.
        split; [apply list_elem_of_here |]. done.
      * right. rewrite F1 in He. split; [by apply list_elem_of_further | done].
    + intros [Hn | (Hn & Hr & He)]; apply I5.
      * left. rewrite F5. by apply elem_of_union_l.
      * apply elem_of_cons in Hn as [-> | Hn].
        -- left. rewrite F5, Hr. destruct He as [es ->]. set_solver.
        -- right. by rewrite F1.
Qed.

Lemma attachAllNamed_inv (st : Hook) :
  hook_inv st ->
  hook_inv (attachAllNamed st) /\
  eventSourceRef (attachAllNamed st) = eventSourceRef st /\
  listenersRef (attachAllNamed st) = listenersRef st /\
  timers (attachAllNamed st) = timers st /\
  timerRef (attachAllNamed st) = timerRef st /\
  (forall n, n ∈ dom (dispatchersRef (attachAllNamed st)) <->
             n ∈ dom (dispatchersRef st) \/
             (is_Some (listenersRef st !! n) /\ Utils.isReservedEvent n = false /\
              is_Some (eventSourceRef st))).
Proof.
  intros Hinv. unfold attachAllNamed.
  assert (Hkeys : forall n, n ∈ (map_to_list (listenersRef st)).*1 <->
                            is_Some (listenersRef st !! n)).
  { intros n. rewrite list_elem_of_fmap. split.
    - intros ([n' set] & -> & Hin). apply elem_of_map_to_list in Hin. by eexists.
    - intros [set Hset]. exists (n, set). split; [done |].
      by apply elem_of_map_to_list. }
  destruct (attach_each_inv (map_to_list (listenersRef st)).*1 st Hinv)
    as (I0 & I1 & I2 & I3 & I4 & I5).
  { intros n Hn. by apply Hkeys. }
  split_and!; try done. intros n. split.
  - intros Hn. apply I5 in Hn as [? | (? & ? & ?)]; [by left |].
    right. split; [by apply Hkeys | done].
  - intros [? | (? & ? & ?)]; apply I5; [by left |].
    right. split; [by apply Hkeys | done].
Qed.

(** *** Tearing down *)

Lemma remove_each (es : nat) (L : list (string * nat)) (st : Hook) :
  let st' := foldl (fun st '(name, d) =>
                      update_source es (removeEventListener name d) st) st L in
  (eventSourceRef st' = eventSourceRef st /\ timerRef st' = timerRef st /\
   listenersRef st' = listenersRef st /\ dispatchersRef st' = dispatchersRef st /\
   timers st' = timers st /\ destroyedRef st' = destroyedRef st /\
   log st' = log st) /\
  length (sources st') = length (sources st) /\
  forall es' src',
    sources st' !! es' = Some src' ->
    exists src, sources st !! es' = Some src /\
      es_readyState src' = es_readyState src /\
      forall l, l ∈ es_listeners src' ->
                l ∈ es_listeners src /\ (es' = es -> l ∉ L).
Proof.
  revert st. induction L as [| [n d] L IH]; intros st.
  - cbn. split; [by repeat split |]. split; [done |].
    intros es' src' Hs. exists src'.
    split_and!; try done. intros l Hl. split; [done |]. intros _. apply not_elem_of_nil.
  - cbn [foldl]. destruct (IH (update_source es (removeEventListener n d) st))
      as (Hcore & Hlen & Hsrc).
    split; [| split].
    + destruct Hcore as (C1 & C2 & C3 & C4 & C5 & C6 & C7). hook_simpl.
      by repeat split.
    + rewrite Hlen. hook_simpl. apply length_alter.
    + intros es' src' Hs. destruct (Hsrc es' src' Hs) as (src1 & Hs1 & Hrs & Hl).
      rewrite lookup_update_source in Hs1.
      destruct (decide (es = es')) as [<- | Hne].
      * destruct (sources st !! es) as [src |] eqn:Hs0; [| done].
        cbn in Hs1. injection Hs1 as <-. exists src. split_and!; try done.
        intros l Hin. destruct (Hl l Hin) as [Hin1 Hnot].
        apply elem_of_removeEventListener in Hin1 as [Hin1 Hne].
        split; [done |]. intros _ [-> | Hin2]%elem_of_cons; [done |].
        by apply Hnot.
      * exists src1. split_and!; try done. intros l Hin.
        destruct (Hl l Hin) as [Hin1 _]. split; [done |]. congruence.
Qed.

Lemma pending_timers_cleared (st : Hook) :
  hook_inv st ->
  match timerRef st with
  | Some t => filter (fun p => p.1 ≠ t) (timers st) = []
  | None => timers st = []
  end.
Proof.
  intros [_ _ _ _ H5]. destruct (timerRef st) as [t |] eqn:Ht.
  - apply elem_of_nil_inv. intros [t' d] [Hne Hin]%list_elem_of_filter. cbn in Hne.
    destruct (H5 t') as [Ht' _].
    { apply list_elem_of_fmap. by exists (t', d). }
    congruence.
  - apply elem_of_nil_inv. intros [t' d] Hin.
    destruct (H5 t') as [Ht' _]; [| done].
    apply list_elem_of_fmap. by exists (t', d).
Qed.

Lemma cleanup_quiescent (st : Hook) :
  hook_inv st ->
  quiescent (cleanup st) /\
  timerRef (cleanup st) = None /\
  listenersRef (cleanup st) = listenersRef st /\
  length (sources (cleanup st)) = length (sources st) /\
  destroyedRef (cleanup st) = destroyedRef st /\
  log (cleanup st) = log st.
Proof.
  intros Hinv. pose proof (pending_timers_cleared st Hinv) as Htimers.
  pose proof Hinv as [H1 H2 H3 H4 H5]. unfold cleanup.
  set (st1 := match timerRef st with
              | Some t => set_timerRef None (clearTimeout t st)
              | None => st
              end).
  assert (S1 : timers st1 = [] /\ timerRef st1 = None /\
               eventSourceRef st1 = eventSourceRef st /\
               listenersRef st1 = listenersRef st /\
               dispatchersRef st1 = dispatchersRef st /\
               sources st1 = sources st /\
               destroyedRef st1 = destroyedRef st /\
               log st1 = log st).
  { subst st1. destruct (timerRef st) as [t |] eqn:Ht; [| done].
    unfold clearTimeout. hook_simpl. by rewrite Htimers. }
  destruct S1 as (T1 & T2 & T3 & T4 & T5 & T6 & T7 & T8). clearbody st1.
  rewrite T3, T5.
  destruct (eventSourceRef st) as [es |] eqn:Hes.
  - destruct (remove_each es (map_to_list (dispatchersRef st)) st1)
      as (Hcore & Hlen2 & Hsrc).
    set (st2 := foldl _ st1 _) in *.
    destruct Hcore as (C1 & C2 & C3 & C4 & C5 & C7 & C8). hook_simpl. clearbody st2.
    rewrite C1, T3. hook_simpl.
    destruct H3 as (src & Hs & Hiff).
    split_and!; try congruence.
    + unfold quiescent. hook_simpl. split_and!; try congruence.
      intros es' src' Hs'. destruct (decide (es = es')) as [<- | Hne].
      * rewrite list_lookup_alter_eq in Hs'.
        destruct (sources st2 !! es) as [src2 |] eqn:Hs2; [| done].
        cbn in Hs'. injection Hs' as <-. split; [done |].
        destruct (Hsrc es src2 Hs2) as (src0 & Hs0 & _ & Hl).
        rewrite T6, Hs in Hs0. injection Hs0 as <-.
        cbn. apply elem_of_nil_inv. intros [n d] Hin.
        destruct (Hl _ Hin) as [Hin0 Hnot]. apply (Hnot eq_refl).
        apply elem_of_map_to_list. by apply Hiff.
      * rewrite list_lookup_alter_ne in Hs' by done.
        destruct (Hsrc es' src' Hs') as (src0 & Hs0 & Hrs & Hl).
        rewrite T6 in Hs0. destruct (H4 es' src0 Hs0) as [Hc Hnil]; [congruence |].
        split; [congruence |]. apply elem_of_nil_inv. intros l Hin.
        destruct (Hl l Hin) as [Hin0 _]. rewrite Hnil in Hin0.
        by apply not_elem_of_nil in Hin0.
    + rewrite length_alter. congruence.
  - hook_simpl. rewrite T3. hook_simpl. split_and!; try congruence.
    unfold quiescent. hook_simpl. split_and!; try done.
    intros es' src' Hs'. rewrite T6 in Hs'. by apply (H4 es' src' Hs').
Qed.

Lemma quiescent_inv (st : Hook) :
  quiescent st ->
  (forall name set, listenersRef st !! name = Some set -> set ≠ []) ->
  hook_inv st.
Proof.
  intros (Q1 & Q2 & Q3 & Q4) Hsets. split.
  - exact Hsets.
  - intros n d. by rewrite Q3, lookup_empty.
  - by rewrite Q2.
  - intros es src Hs _. by apply (Q4 es src).
  - intros t. rewrite Q1. cbn. by intros ?%not_elem_of_nil.
Qed.

Lemma cleanup_inv (st : Hook) : hook_inv st -> hook_inv (cleanup st).
Proof.
  intros Hinv. destruct (cleanup_quiescent st Hinv) as (Q & _ & HL & _ & _ & _).
  apply quiescent_inv; [done |]. rewrite HL. by destruct Hinv.
Qed.

Lemma disconnect_quiescent (st : Hook) :
  hook_inv st -> quiescent (disconnect st) /\ destroyedRef (disconnect st) = true.
Proof.
  intros Hinv. unfold disconnect.
  assert (Hinv' : hook_inv (set_destroyedRef true st)).
  { eapply same_core_inv; [| exact Hinv]. by repeat split. }
  destruct (cleanup_quiescent _ Hinv') as (Q & _ & _ & _ & D & _).
  split.
  - eapply same_core_quiescent; [| exact Q]. by repeat split.
  - hook_simpl. by rewrite D.
Qed.

Lemma connect_inv (st : Hook) : hook_inv st -> hook_inv (connect urlString opts st).
Proof.
  intros Hinv. unfold connect. case_decide as Hopen.
  { eapply same_core_inv; [| exact Hinv]. by repeat split. }
  assert (Hinv' : hook_inv (set_destroyedRef false st)).
  { eapply same_core_inv; [| exact Hinv]. by repeat split. }
  destruct (cleanup_quiescent _ Hinv') as ((Q1 & Q2 & Q3 & Q4) & Ht & HL & Hlen & _ & _).
  set (st1 := cleanup (set_destroyedRef false st)) in *. clearbody st1.
  split; hook_simpl.
  - rewrite HL. by destruct Hinv.
  - intros n d. by rewrite Q3, lookup_empty.
  - eexists. split; [apply list_lookup_middle; done |].
    intros n d. cbn. rewrite Q3, lookup_empty. split; [| done].
    by intros ?%not_elem_of_nil.
  - intros es src Hs Hne. apply lookup_app_Some in Hs as [Hs | [Hge Hs]].
    + by apply (Q4 es src).
    + apply list_lookup_singleton_Some in Hs as [Hs _].
      exfalso. apply Hne. f_equal. lia.
  - intros t. rewrite Q1. cbn. by intros ?%not_elem_of_nil.
Qed.

(** *** Callbacks of the platform *)

Lemma scheduleReconnect_inv (st : Hook) :
  hook_inv st -> timers st = [] ->
  (forall es src, sources st !! es = Some src -> es_readyState src = CLOSED) ->
  hook_inv (scheduleReconnect opts st).
Proof.
  intros Hinv Ht Hclosed. rewrite scheduleReconnect_cases.
  destruct (_ && _ && _)%bool; [| done].
  destruct Hinv as [H1 H2 H3 H4 H5]. unfold scheduled.
  split; hook_simpl; try done.
  intros t. rewrite Ht. cbn. intros Hin%list_elem_of_singleton. by subst t.
Qed.

(** An EventSource that is not closed is the current one, and no timeout is
    pending then. *)
Lemma live_source_current (st : Hook) (es : nat) (src : EventSource) :
  hook_inv st -> sources st !! es = Some src -> es_readyState src ≠ CLOSED ->
  eventSourceRef st = Some es /\ timers st = [].
Proof.
  intros [_ _ _ H4 H5] Hs Hlive. split.
  - destruct (decide (eventSourceRef st = Some es)) as [? | Hne]; [done |].
    by destruct (H4 es src Hs Hne).
  - apply elem_of_nil_inv. intros [t d] Hin.
    destruct (H5 t) as [_ Hall].
    { apply list_elem_of_fmap. by exists (t, d). }
    by apply Hlive, (Hall es).
Qed.

Lemma update_readyState_inv (st : Hook) (es : nat) (rs : Z) :
  hook_inv st -> eventSourceRef st = Some es -> timers st = [] ->
  hook_inv (update_source es (es_set_readyState rs) st).
Proof.
  intros [H1 H2 H3 H4 H5] Hes Ht. split; hook_simpl; try done.
  - rewrite Hes in *. destruct H3 as (src & Hs & Hiff).
    exists (es_set_readyState rs src). split; [| done].
    by rewrite list_lookup_alter_eq, Hs.
  - intros es' src' Hs' Hne. rewrite list_lookup_alter_ne in Hs' by congruence.
    by apply (H4 es' src').
  - intros t. rewrite Ht. cbn. by intros ?%not_elem_of_nil.
Qed.

Lemma onopen_inv (st : Hook) : hook_inv st -> hook_inv (onopen behaviour st).
Proof.
  intros Hinv. unfold onopen. apply attachAllNamed_inv.
  eapply same_core_inv; [apply emit_same_core |].
  eapply same_core_inv; [| exact Hinv]. by repeat split.
Qed.

Lemma onerror_inv (st : Hook) (es : nat) (e : DomEvent) :
  hook_inv st ->
  (default CLOSED (es_readyState <$> sources st !! es) = CLOSED ->
   timers st = [] /\
   forall es' src, sources st !! es' = Some src -> es_readyState src = CLOSED) ->
  hook_inv (onerror opts behaviour es e st).
Proof.
  intros Hinv Hpre. unfold onerror. hook_simpl.
  set (rs := default CLOSED (es_readyState <$> sources st !! es)) in *.
  set (st1 := emit behaviour "error" [ArgEvent e] _).
  assert (Hcore : same_core st st1).
  { subst st1. eapply same_core_trans; [| apply emit_same_core]. by repeat split. }
  clearbody st1. pose proof (same_core_inv _ _ Hcore Hinv) as Hinv1.
  destruct (Z.eqb rs CLOSED) eqn:E; [| done].
  apply Z.eqb_eq in E. destruct (Hpre E) as [Ht Hall].
  destruct Hcore as (_ & _ & _ & _ & C5 & C6).
  apply scheduleReconnect_inv; [done | congruence |].
  intros es' src. rewrite C5. apply Hall.
Qed.

Lemma dispatch_each_same_core (ev : MessageEvent) (ls : list (string * nat)) (st : Hook) :
  same_core st
    (foldl (fun st '(name, _) =>
              if String.eqb name (me_type ev) then dispatch opts behaviour name ev st
              else st) st ls).
Proof.
  revert st. induction ls as [| [n d] ls IH]; intros st; [apply same_core_refl |].
  cbn [foldl]. eapply same_core_trans; [| apply IH].
  destruct (String.eqb n (me_type ev)); [apply dispatch_same_core | apply same_core_refl].
Qed.

Lemma fire_event_inv (st : Hook) (es : nat) (src : EventSource) (ev : MessageEvent) :
  hook_inv st -> sources st !! es = Some src -> es_readyState src = OPEN ->
  hook_inv (fire_event opts behaviour es ev st).
Proof.
  intros Hinv Hs Hopen. unfold fire_event.
  eapply same_core_inv; [apply dispatch_each_same_core |].
  destruct (String.eqb (me_type ev) "message").
  { eapply same_core_inv; [apply onmessage_same_core | done]. }
  destruct (String.eqb (me_type ev) "open"); [by apply onopen_inv |].
  destruct (String.eqb (me_type ev) "error"); [| done].
  apply onerror_inv; [done |]. rewrite Hs. cbn. rewrite Hopen. done.
Qed.

Lemma step_inv (a : Action) (st st' : Hook) :
  hook_inv st -> step urlString opts behaviour a st = Some st' -> hook_inv st'.
Proof.
  intros Hinv Hstep. destruct a as [| | n fn | n fn | es | es fatal tag | es ev | t];
    cbn [step] in Hstep.
  - injection Hstep as <-. by apply connect_inv.
  - injection Hstep as <-. destruct (disconnect_quiescent st Hinv) as [Q _].
    apply quiescent_inv; [done |].
    unfold disconnect. hook_simpl.
    assert (Hinv' : hook_inv (set_destroyedRef true st)).
    { eapply same_core_inv; [| exact Hinv]. by repeat split. }
    destruct (cleanup_quiescent _ Hinv') as (_ & _ & -> & _ & _ & _). by destruct Hinv.
  - injection Hstep as <-. by apply addListener_inv.
  - injection Hstep as <-. by apply unsubscribe_inv.
  - destruct (sources st !! es) as [src |] eqn:Hs; [| done].
    destruct (Z.eqb (es_readyState src) CONNECTING) eqn:E; [| done].
    injection Hstep as <-. apply Z.eqb_eq in E.
    destruct (live_source_current st es src Hinv Hs) as [Hes Ht];
      [by rewrite E |].
    apply onopen_inv. by apply update_readyState_inv.
  - destruct (sources st !! es) as [src |] eqn:Hs; [| done].
    destruct (Z.eqb (es_readyState src) CLOSED) eqn:E; [done |].
    injection Hstep as <-. apply Z.eqb_neq in E.
    destruct (live_source_current st es src Hinv Hs E) as [Hes Ht].
    apply onerror_inv; [by apply update_readyState_inv |].
    hook_simpl. rewrite list_lookup_alter_eq, Hs. cbn. intros Hrs.
    split; [done |]. intros es' src' Hs'.
    destruct (decide (es = es')) as [<- | Hne].
    + rewrite list_lookup_alter_eq, Hs in Hs'. cbn in Hs'. by injection Hs' as <-.
    + rewrite list_lookup_alter_ne in Hs' by done.
      destruct Hinv as [_ _ _ H4 _]. apply (H4 es' src' Hs'). congruence.
  - destruct (sources st !! es) as [src |] eqn:Hs; [| done].
    destruct (Z.eqb (es_readyState src) OPEN) eqn:E; [| done].
    injection Hstep as <-. apply Z.eqb_eq in E. by eapply fire_event_inv.
  - case_decide as Hin; [| done]. injection Hstep as <-.
    apply connect_inv. pose proof (pending_timers_cleared st Hinv) as Hclr.
    destruct Hinv as [H1 H2 H3 H4 H5]. destruct (H5 t Hin) as [Ht _].
    rewrite Ht in Hclr. split; hook_simpl; try done.
    intros t'. rewrite Hclr. cbn. by intros ?%not_elem_of_nil.
Qed.

Lemma init_inv : hook_inv (init urlString opts).
Proof.
  split; cbn; try done.
  by intros t ?%not_elem_of_nil.
Qed.

Lemma run_inv (acts : list Action) (st st' : Hook) :
  hook_inv st -> run urlString opts behaviour acts st = Some st' -> hook_inv st'.
Proof.
  revert st. induction acts as [| a acts IH]; intros st Hinv Hrun.
  - cbn in Hrun. by injection Hrun as <-.
  - cbn [run] in Hrun.
    destruct (step urlString opts behaviour a st) as [st1 |] eqn:Hstep; [| done].
    eapply IH; [| done]. by eapply step_inv.
Qed.

(** Every state of a hook satisfies the invariant. *)
Lemma reachable_hook_inv (st : Hook) :
  reachable urlString opts behaviour st -> hook_inv st.
Proof. intros [acts Hrun]. eapply run_inv; [apply init_inv | done]. Qed.

(** *** After disconnect *)




(** *** Attached dispatchers and registered handlers *)

Lemma attached_dom (st : Hook) : hook_inv st -> attached st = dom (dispatchersRef st).
Proof.
  intros [_ _ H3 _ _]. unfold attached.
  destruct (eventSourceRef st) as [es |].
  - destruct H3 as (src & Hs & Hiff). rewrite Hs. cbn.
    apply set_eq. intros n. rewrite elem_of_list_to_set, list_elem_of_fmap, elem_of_dom.
    split.
    + intros ([n' d] & -> & Hin). exists d. by apply Hiff.
    + intros [d Hd]. exists (n, d). split; [done |]. by apply Hiff.
  - by rewrite H3, dom_empty_L.
Qed.

Lemma elem_of_active (st : Hook) (n : string) :
  hook_inv st ->
  n ∈ active st <-> Utils.isReservedEvent n = false /\ is_Some (listenersRef st !! n).
Proof.
  intros [H1 _ _ _ _]. unfold active. rewrite elem_of_dom. split.
  - intros [set Hset]. apply map_lookup_filter_Some in Hset as [Hset [Hr _]].
    split; [done | by eexists].
  - intros [Hr [set Hset]]. exists set. apply map_lookup_filter_Some.
    split; [done |]. split; [done |]. cbn. by eapply H1.
Qed.

Lemma attached_active_synced (st : Hook) :
  hook_inv st -> (attached st = active st <-> synced st).
Proof.
  intros Hinv. rewrite (attached_dom st Hinv). unfold synced. split.
  - intros E n. rewrite <- elem_of_dom, E. by apply elem_of_active.
  - intros Hs. apply set_eq. intros n. rewrite elem_of_dom, Hs.
    symmetry. by apply elem_of_active.
Qed.

Lemma addListener_fields (n : string) (fn : Handler) (st : Hook) :
  eventSourceRef (addListener n fn st) = eventSourceRef st /\
  listenersRef (addListener n fn st)
  = <[n := set_add fn (default [] (listenersRef st !! n))]> (listenersRef st) /\
  forall n', is_Some (dispatchersRef (addListener n fn st) !! n') <->
             is_Some (dispatchersRef st !! n') \/
             (n' = n /\ Utils.isReservedEvent n = false /\ is_Some (eventSourceRef st)).
Proof.
  unfold addListener.
  set (st1 := set_listenersRef _ st).
  destruct (attachNamedIfNeeded_fields n st1) as (A1 & A2 & _ & _ & A5).
  split_and!; try done. intros n'. rewrite <- !elem_of_dom, A5. subst st1. hook_simpl.
  rewrite elem_of_union. destruct (Utils.isReservedEvent n).
  - split; [intros [? | ?%not_elem_of_empty]; [by left | done] |].
    intros [? | (_ & ? & _)]; [by left | done].
  - destruct (eventSourceRef st) as [es |].
    + rewrite elem_of_singleton. split; intros [? | ?]; try by left.
      * right. split_and!; eauto.
      * right. tauto.
    + split; [intros [? | ?%not_elem_of_empty]; [by left | done] |].
      intros [? | (_ & _ & [? ?])]; [by left | done].
Qed.

Lemma unsubscribe_fields (n : string) (fn : Handler) (st : Hook) :
  eventSourceRef (unsubscribe n fn st) = eventSourceRef st /\
  match listenersRef st !! n with
  | None =>
      listenersRef (unsubscribe n fn st) = listenersRef st /\
      dispatchersRef (unsubscribe n fn st) = dispatchersRef st
  | Some current =>
      if Nat.ltb 0 (length (set_delete fn current)) then
        listenersRef (unsubscribe n fn st)
        = <[n := set_delete fn current]> (listenersRef st) /\
        dispatchersRef (unsubscribe n fn st) = dispatchersRef st
      else
        listenersRef (unsubscribe n fn st) = delete n (listenersRef st) /\
        dispatchersRef (unsubscribe n fn st) = delete n (dispatchersRef st)
  end.
Proof.
  unfold unsubscribe. destruct (listenersRef st !! n) as [current |]; [| done].
  destruct (Nat.ltb 0 (length (set_delete fn current))); [done |]. hook_simpl.
  destruct (dispatchersRef st !! n) eqn:Hd, (eventSourceRef st) eqn:Hes;
    try destruct (Utils.isReservedEvent n); hook_simpl;
    rewrite ?Hd, ?Hes, ?delete_insert_eq; done.
Qed.

Lemma subscription_keeps_synced (a : Action) (st : Hook) :
  hook_inv st -> is_Some (eventSourceRef st) -> synced st ->
  subscription_call a = true ->
  exists st', step urlString opts behaviour a st = Some st' /\
              is_Some (eventSourceRef st') /\ synced st'.
Proof.
  intros Hinv Hes Hsync Ha. unfold synced in *.
  destruct a as [| | n fn | n fn | | | |]; try done;
    cbn [step]; eexists; (split; [reflexivity |]).
  - destruct (addListener_fields n fn st) as (F1 & F2 & F3).
    split; [by rewrite F1 |]. intros n'. rewrite F3, F2, Hsync.
    destruct (decide (n = n')) as [<- | Hne].
    + rewrite lookup_insert_eq. split.
      * intros [[? ?] | (_ & ? & _)]; (split; [done | by eexists]).
      * intros [? _]. right. done.
    + rewrite lookup_insert_ne by done. split; [| tauto].
      intros [? | (? & _)]; [done | congruence].
  - destruct (unsubscribe_fields n fn st) as [F1 F2].
    split; [by rewrite F1 |]. intros n'.
    destruct (listenersRef st !! n) as [current |] eqn:Hcur.
    + destruct (Nat.ltb 0 (length (set_delete fn current))).
      * destruct F2 as [-> ->]. rewrite Hsync.
        destruct (decide (n = n')) as [<- | Hne].
        -- rewrite lookup_insert_eq, Hcur. split; intros [? _]; (split; [done | by eexists]).
        -- by rewrite lookup_insert_ne.
      * destruct F2 as [-> ->]. destruct (decide (n = n')) as [<- | Hne].
        -- rewrite !lookup_delete_eq. split; [by intros [? ?] | by intros [_ [? ?]]].
        -- rewrite !lookup_delete_ne by done. apply Hsync.
    + destruct F2 as [-> ->]. apply Hsync.
Qed.

Lemma onopen_synced (st : Hook) :
  hook_inv st -> is_Some (eventSourceRef st) -> synced (onopen behaviour st).
Proof.
  intros Hinv Hes. unfold onopen.
  set (st1 := emit behaviour "open" [] _).
  assert (Hcore : same_core st st1).
  { subst st1. eapply same_core_trans; [| apply emit_same_core]. by repeat split. }
  clearbody st1. pose proof (same_core_inv _ _ Hcore Hinv) as Hinv1.
  destruct Hcore as (C1 & _ & C3 & C4 & _ & _).
  destruct (attachAllNamed_inv st1 Hinv1) as (I0 & I1 & I2 & _ & _ & I5).
  intros n. rewrite <- elem_of_dom, I5, I2, C1, elem_of_dom. split.
  - intros [Hd | (? & ? & _)]; [| done]. destruct Hd as [d Hd].
    destruct Hinv1 as [_ H2 _ _ _]. by apply (H2 n d).
  - intros [? ?]. right. done.
Qed.

(** C2, as amended: a dispatcher is only ever attached for a name that is
    not reserved and has a handler; while the hook has no EventSource no
    dispatcher is attached at all (attachment waits for the next open);
    when an EventSource opens, the attached names become exactly the
    non-reserved names with a handler; and from a state with an
    EventSource where the two sets are equal, every sequence of subscribe
    and unsubscribe calls keeps them equal.  Removing the last handler of
    a name leaves no dispatcher attached for it. *)
Theorem dispatchers_match_handlers_while_connected (st : Hook) :
  reachable urlString opts behaviour st ->
  (forall n, n ∈ attached st -> Utils.isReservedEvent n = false /\ n ∈ active st) /\
  (eventSourceRef st = None -> attached st = ∅) /\
  (forall es st',
      step urlString opts behaviour (SourceOpen es) st = Some st' ->
      attached st' = active st') /\
  (is_Some (eventSourceRef st) -> attached st = active st ->
   forall acts, forallb subscription_call acts = true ->
     exists st', run urlString opts behaviour acts st = Some st' /\
                 is_Some (eventSourceRef st') /\
                 attached st' = active st') /\
  (forall n fn, listenersRef st !! n = Some [fn] ->
                (n ∉ attached (unsubscribe n fn st)) /\ (n ∉ active (unsubscribe n fn st))).
Proof.
  intros Hreach. pose proof (reachable_hook_inv st Hreach) as Hinv.
  split_and!.
  - intros n Hn. rewrite (attached_dom st Hinv) in Hn. apply elem_of_dom in Hn as [d Hd].
    destruct Hinv as [H1 H2 H3 H4 H5]. destruct (H2 n d Hd) as [Hr Hl].
    split; [done |]. by apply elem_of_active.
  - intros Hnone. unfold attached. by rewrite Hnone.
  - intros es st' Hstep.
    pose proof (step_inv _ _ _ Hinv Hstep) as Hinv'.
    apply (attached_active_synced st' Hinv'). cbn [step] in Hstep.
    destruct (sources st !! es) as [src |] eqn:Hs; [| done].
    destruct (Z.eqb (es_readyState src) CONNECTING) eqn:E; [| done].
    injection Hstep as <-. apply Z.eqb_eq in E.
    destruct (live_source_current st es src Hinv Hs) as [Hes Ht]; [by rewrite E |].
    apply onopen_synced; [by apply update_readyState_inv |]. hook_simpl. by eexists.
  - intros Hes Heq acts. apply (attached_active_synced st Hinv) in Heq.
    clear Hreach. revert st Hinv Hes Heq.
    induction acts as [| a acts IH]; intros st Hinv Hes Hsync Hall.
    + exists st. split_and!; try done. by apply attached_active_synced.
    + cbn [forallb] in Hall. apply andb_true_iff in Hall as [Ha Hall].
      destruct (subscription_keeps_synced a st Hinv Hes Hsync Ha) as (st1 & Hs & He1 & Hs1).
      destruct (IH st1 (step_inv _ _ _ Hinv Hs) He1 Hs1 Hall) as (st' & Hrun & He' & Heq').
      exists st'. split_and!; try done. cbn [run]. by rewrite Hs.
  - intros n fn Hn.
    pose proof (unsubscribe_inv n fn st Hinv) as Hinv'.
    destruct (unsubscribe_fields n fn st) as [_ F2]. rewrite Hn in F2.
    assert (Hgone : listenersRef (unsubscribe n fn st) !! n = None).
    { unfold set_delete in F2. cbn in F2. rewrite decide_False in F2
        by (intros Hne; apply Hne; reflexivity).
      cbn in F2. destruct F2 as [-> _]. apply lookup_delete_eq. }
    assert (Hnot : n ∉ active (unsubscribe n fn st)).
    { rewrite (elem_of_active _ _ Hinv'), Hgone. by intros [_ [? ?]]. }
    split; [| done]. intros Hatt. apply Hnot.
    rewrite (attached_dom _ Hinv') in Hatt. apply elem_of_dom in Hatt as [d Hd].
    destruct Hinv' as [_ H2 _ _ _]. destruct (H2 n d Hd) as [Hr Hl].
    rewrite Hgone in Hl. by destruct Hl.
Qed.

End StateMachine.

(** ** Round trip through the wire format *)

Example frame_of_event_x :
  Server.formatMessage Scenario.event_x
  = "id: 42" +:+ Js.nl +:+ "event: x" +:+ Js.nl +:+
    "data: {" +:+ String Js.dquote "a" +:+ String Js.dquote ":1}" +:+ Js.nl +:+ Js.nl.
Proof. vm_compute. reflexivity. Qed.

Example heartbeat_frame_is_no_event :
  Transport.events_of_stream
    (": ping 1700000000000" +:+ Js.nl +:+ Js.nl +:+
     "data: hello" +:+ Js.nl +:+ Js.nl)
  = [{| Transport.me_type := "message"; Transport.me_data := "hello";
        Transport.me_lastEventId := "" |}].
Proof. vm_compute. reflexivity. Qed.

Example decoder_falls_back : Utils.safeParseJson "not-json" = Js.JStr "not-json".
Proof. vm_compute. reflexivity. Qed.

Example decoder_reads_json :
  Utils.safeParseJson
    (Js.stringify (Js.JObj [("a", Js.JNum 1);
                            ("b", Js.JArr [Js.JStr "x"; Js.JNull; Js.JBool true; Js.JNum (-12)])]))
  = Js.JObj [("a", Js.JNum 1);
             ("b", Js.JArr [Js.JStr "x"; Js.JNull; Js.JBool true; Js.JNum (-12)])].
Proof. vm_compute. reflexivity. Qed.

Section RoundTrip.

Import Receiver Transport.

Variable urlString : string.
Variable behaviour : Handler -> list Arg -> option string.

Lemma dispatch_x_received (set : list Handler) (st : Hook) :
  listenersRef st !! "x" = Some set -> set ≠ [] ->
  Scenario.received_x set (dispatch default_options behaviour "x" Scenario.message_x st).
Proof.
  intros Hset Hne. unfold dispatch. rewrite Hset.
  destruct set as [| fn0 set0]; [done |]. cbn [length Nat.eqb].
  rewrite emit_log. cbn [log set_log set_state listenersRef state]. rewrite Hset.
  unfold Scenario.received_x.
  cbn [log set_log state set_state lastData lastEventId lastEventName].
  split_and!; try reflexivity.
  intros fn Hin. rewrite calls_app, calls_handler_effects.
  apply elem_of_app. right. apply list_elem_of_fmap. exists fn. split; [| done].
  reflexivity.
Qed.

Lemma dispatch_x_keeps (set : list Handler) (st : Hook) :
  Scenario.received_x set st ->
  Scenario.received_x set (dispatch default_options behaviour "x" Scenario.message_x st).
Proof.
  intros (R1 & R2 & R3 & R4). unfold dispatch.
  destruct (listenersRef st !! "x") as [set' |] eqn:Hset; [| done].
  destruct (Nat.eqb (length set') 0); [done |].
  rewrite emit_log. unfold Scenario.received_x.
  cbn [log set_log state set_state lastData lastEventId lastEventName listenersRef].
  split_and!; try reflexivity.
  intros fn Hin. rewrite calls_app. apply elem_of_app. left. by apply R4.
Qed.

Lemma dispatch_each_x (set : list Handler) (ls : list (string * nat)) (st : Hook) :
  listenersRef st !! "x" = Some set -> set ≠ [] ->
  Scenario.received_x set st \/ (exists d, ("x", d) ∈ ls) ->
  Scenario.received_x set
    (foldl (fun st '(name, _) =>
              if String.eqb name (me_type Scenario.message_x)
              then dispatch default_options behaviour name Scenario.message_x st
              else st) st ls).
Proof.
  revert st. induction ls as [| [n d] ls IH]; intros st Hset Hne Hcase.
  - destruct Hcase as [? | [d Hd]]; [done |]. by apply not_elem_of_nil in Hd.
  - cbn [foldl]. destruct (String.eqb n (me_type Scenario.message_x)) eqn:E.
    + apply String.eqb_eq in E. cbn in E. subst n. apply IH; [| done |].
      * destruct (dispatch_same_core default_options behaviour "x" Scenario.message_x st)
          as (_ & _ & -> & _). done.
      * left. destruct Hcase as [? | _]; [by apply dispatch_x_keeps |].
        by apply dispatch_x_received.
    + apply IH; [done | done |]. destruct Hcase as [? | [d' Hd]]; [by left |].
      right. apply elem_of_cons in Hd as [[= <- <-] | Hd]; [| by exists d'].
      by rewrite String.eqb_refl in E.
Qed.

(** C3: the frame that [formatMessage] builds for
    [{event:"x", data:{a:1}, id:"42"}] reaches the receiver as one event of
    type ["x"] whose payload the default decoder turns into [{a:1}]; when
    the dispatcher attached for ["x"] runs on it, the snapshot has
    [lastData = {a:1}], [lastEventId = "42"] and [lastEventName = "x"], and
    every handler of ["x"] has been called with [{a:1}]. *)
Theorem wire_round_trip :
  events_of_stream (Server.formatMessage Scenario.event_x) = [Scenario.message_x] /\
  Utils.safeParseJson (me_data Scenario.message_x) = Js.JObj [("a", Js.JNum 1)] /\
  (forall (st : Hook) (set : list Handler),
      listenersRef st !! "x" = Some set -> set ≠ [] ->
      Scenario.received_x set
        (dispatch default_options behaviour "x" Scenario.message_x st)) /\
  (forall (st st' : Hook) (es : nat),
      reachable urlString default_options behaviour st ->
      "x" ∈ attached st ->
      step urlString default_options behaviour (SourceEvent es Scenario.message_x) st
      = Some st' ->
      Scenario.received_x (default [] (listenersRef st !! "x")) st').
Proof.
  split; [vm_compute; reflexivity |]. split; [vm_compute; reflexivity |].
  split; [intros st set; apply dispatch_x_received |].
  intros st st' es Hreach Hatt Hstep.
  pose proof (reachable_hook_inv urlString default_options behaviour st Hreach) as Hinv.
  cbn [step] in Hstep. destruct (sources st !! es) as [src |] eqn:Hs; [| done].
  destruct (Z.eqb (es_readyState src) OPEN) eqn:E; [| done].
  injection Hstep as <-. apply Z.eqb_eq in E.
  destruct (live_source_current st es src Hinv Hs) as [Hes _]; [by rewrite E |].
  assert (Hd : exists d, ("x", d) ∈ es_listeners src).
  { unfold attached in Hatt. rewrite Hes, Hs in Hatt. cbn in Hatt.
    apply elem_of_list_to_set, list_elem_of_fmap in Hatt as ([n d] & Hn & Hin).
    cbn in Hn. subst n. by exists d. }
  assert (Hset : exists set, listenersRef st !! "x" = Some set /\ set ≠ []).
  { rewrite (attached_dom st Hinv) in Hatt. apply elem_of_dom in Hatt as [d' Hd'].
    destruct Hinv as [H1 H2 _ _ _]. destruct (H2 _ _ Hd') as [_ [set Hset]].
    exists set. split; [done |]. by eapply H1. }
  destruct Hset as (set & Hset & Hne). rewrite Hset. cbn [default from_option].
  unfold fire_event. rewrite Hs. cbn [fmap option_fmap option_map default from_option].
  change (String.eqb (me_type Scenario.message_x) "message") with false.
  change (String.eqb (me_type Scenario.message_x) "open") with false.
  change (String.eqb (me_type Scenario.message_x) "error") with false.
  cbn iota. apply dispatch_each_x; [done | done | by right].
Qed.

End RoundTrip.

(** ** The properties on concrete states *)

Lemma after_reachable (acts : list Receiver.Action) :
  is_Some (Receiver.run Scenario.url Receiver.default_options Scenario.throws_first acts
             (Receiver.init Scenario.url Receiver.default_options)) ->
  Receiver.reachable Scenario.url Receiver.default_options Scenario.throws_first
    (Scenario.after acts).
Proof. intros [st H]. exists acts. unfold Scenario.after. by rewrite H. Qed.

Lemma retrying_reachable :
  Receiver.reachable Scenario.url Receiver.default_options Scenario.throws_first
    Scenario.retrying.
Proof. apply after_reachable. vm_compute. eexists. reflexivity. Qed.

Lemma connecting_x_reachable :
  Receiver.reachable Scenario.url Receiver.default_options Scenario.throws_first
    Scenario.connecting_x.
Proof. apply after_reachable. vm_compute. eexists. reflexivity. Qed.

Lemma connected_x_reachable :
  Receiver.reachable Scenario.url Receiver.default_options Scenario.throws_first
    Scenario.connected_x.
Proof. apply after_reachable. vm_compute. eexists. reflexivity. Qed.

Lemma connected_x_opened :
  Receiver.step Scenario.url Receiver.default_options Scenario.throws_first
    (Receiver.SourceOpen 0) Scenario.connecting_x = Some Scenario.connected_x.
Proof. vm_compute. reflexivity. Qed.

Lemma heap3_reachable : Server.reachable Scenario.heap3 Scenario.registry3.
Proof.
  assert (R0 : Server.reachable Scenario.three_clients Server.new_SSEManager).
  { apply (Server.reach_construct [_; _]).
    - apply (Server.reach_construct [_]).
      + apply (Server.reach_construct []); [apply Server.reach_new |].
        apply not_elem_of_nil.
      + cbn. intros H%list_elem_of_singleton. discriminate H.
    - cbn. intros H. apply elem_of_cons in H as [H | H]; [discriminate H |].
      apply list_elem_of_singleton in H. discriminate H. }
  apply (Server.reach_client_op Scenario.three_clients _ 1 Server.OpPeerGone
           (Server.new_SSEClient "b" (Some {| Server.opt_userId := Some "u" |})));
    [| reflexivity].
  repeat (apply Server.reach_addClient; [| eexists; reflexivity]).
  exact R0.
Qed.

(** C2 does not hold as stated: a handler subscribed before any connection
    exists has no dispatcher attached. *)
Lemma dispatchers_do_not_match_before_open :
  ~ Spec.dispatchers_match_handlers Scenario.url Receiver.default_options
      Scenario.throws_first.
Proof.
  intros H.
  specialize (H (Receiver.init Scenario.url Receiver.default_options)
                (Receiver.addListener "x" 0%nat
                   (Receiver.init Scenario.url Receiver.default_options))
                [Receiver.Subscribe "x" 0%nat]).
  assert (Hr : Receiver.reachable Scenario.url Receiver.default_options
                 Scenario.throws_first
                 (Receiver.init Scenario.url Receiver.default_options))
    by (by exists []).
  specialize (H Hr eq_refl eq_refl).
  assert (Hin : "x" ∈ Receiver.active
                  (Receiver.addListener "x" 0%nat
                     (Receiver.init Scenario.url Receiver.default_options))).
  { apply elem_of_active.
    - apply addListener_inv, init_inv.
    - split; [reflexivity |].
      destruct (addListener_fields Scenario.throws_first "x" 0%nat
                  (Receiver.init Scenario.url Receiver.default_options)) as (_ & -> & _).
      rewrite lookup_insert_eq. by eexists. }
  rewrite <- H in Hin. by apply not_elem_of_empty in Hin.
Qed.

Lemma dispatchers_match_handlers_while_connected_witness :
  exists st',
    Receiver.run Scenario.url Receiver.default_options Scenario.throws_first
      [Receiver.Subscribe "y" 3%nat; Receiver.Unsubscribe "x" 0%nat]
      Scenario.connected_x = Some st' /\
    is_Some (Receiver.eventSourceRef st') /\
    Receiver.attached st' = Receiver.active st'.
Proof.
  pose proof (dispatchers_match_handlers_while_connected Scenario.url
                Receiver.default_options Scenario.throws_first
                Scenario.connecting_x connecting_x_reachable) as (_ & _ & Hopen & _).
  pose proof (dispatchers_match_handlers_while_connected Scenario.url
                Receiver.default_options Scenario.throws_first
                Scenario.connected_x connected_x_reachable) as (_ & _ & _ & Hseq & _).
  apply Hseq.
  - vm_compute. eexists. reflexivity.
  - exact (Hopen 0%nat Scenario.connected_x connected_x_opened).
  - reflexivity.
Defined.

Lemma wire_round_trip_witness :
  Scenario.received_x [0%nat]
    (Scenario.after [Receiver.Subscribe "x" 0%nat; Receiver.Connect;
                     Receiver.SourceOpen 0;
                     Receiver.SourceEvent 0 Scenario.message_x]).
Proof.
  pose proof (wire_round_trip Scenario.url Scenario.throws_first) as (_ & _ & _ & H).
  assert (E : default [] (Receiver.listenersRef Scenario.connected_x !! "x") = [0%nat])
    by (vm_compute; reflexivity).
  rewrite <- E.
  apply (H Scenario.connected_x _ 0%nat connected_x_reachable).
  - assert (Hl : default [] (Receiver.es_listeners <$>
                   Receiver.sources Scenario.connected_x !! 0%nat) = [("x", 0%nat)])
      by (vm_compute; reflexivity).
    assert (He : Receiver.eventSourceRef Scenario.connected_x = Some 0%nat)
      by (vm_compute; reflexivity).
    unfold Receiver.attached. rewrite He, Hl.
    apply elem_of_list_to_set. apply list_elem_of_here.
  - vm_compute. reflexivity.
Defined.


Lemma broadcast_isolates_failure_witness :
  (Server.broadcast Scenario.event_x Scenario.heap3 Scenario.registry3).1
  = Server.Fulfilled /\
  (exists c', (Server.broadcast Scenario.event_x Scenario.heap3 Scenario.registry3).2
                !! 1%nat = Some c' /\
              Server.closed c' = true /\ Server.w_chunks (Server.writer c') = []) /\
  (exists c', (Server.broadcast Scenario.event_x Scenario.heap3 Scenario.registry3).2
                !! 2%nat = Some c' /\
              Server.closed c' = false /\
              Server.w_chunks (Server.writer c')
              = [Server.formatMessage Scenario.event_x]).
Proof.
  destruct (broadcast_isolates_failure Scenario.heap3 Scenario.registry3
              Scenario.event_x 1%nat Scenario.client_b heap3_reachable)
    as (Hk & Hbad & Hgood & _).
  - vm_compute. reflexivity.
  - reflexivity.
  - reflexivity.
  - vm_compute. discriminate.
  - split; [exact Hk |]. split; [exact Hbad |].
    apply (Hgood "c" 2%nat (Server.new_SSEClient "c"
                              (Some {| Server.opt_userId := Some "u" |}))).
    + vm_compute. reflexivity.
    + lia.
    + reflexivity.
    + reflexivity.
    + reflexivity.
Defined.

Lemma remove_then_send_and_user_index_witness :
  Server.registered_for "u" (Server.removeClient "b" Scenario.heap3 Scenario.registry3).1.2
    (Server.removeClient "b" Scenario.heap3 Scenario.registry3).2
  = Server.registered_for "u" Scenario.heap3 Scenario.registry3 ∖ {["b"]} /\
  (is_Some (Server.clientIdsByUser Scenario.registry3 !! "u")
   <-> Server.registered_for "u" Scenario.heap3 Scenario.registry3 ≠ ∅).
Proof.
  pose proof remove_then_send_and_user_index as (_ & Hindex & Hremove).
  split.
  - apply (Hremove Scenario.heap3 Scenario.registry3 "b" "u" 1%nat Scenario.client_b
             heap3_reachable).
    + vm_compute. reflexivity.
    + reflexivity.
    + reflexivity.
  - apply Hindex. exact heap3_reachable.
Defined.

Lemma emit_calls_every_handler_in_order_witness :
  Receiver.ConsoleError
    ("Listener for " +:+ String Js.dquote "notification" +:+ String Js.dquote " threw")
    (Some "boom")
  ∈ Receiver.log (Receiver.emit Scenario.throws_first "notification"
                    Scenario.args_x Scenario.two_handlers) /\
  Receiver.calls (Receiver.log (Receiver.emit Scenario.throws_first "notification"
                                  Scenario.args_x Scenario.two_handlers))
  = [(1%nat, Scenario.args_x); (2%nat, Scenario.args_x)].
Proof.
  pose proof (emit_calls_every_handler_in_order Receiver.default_options
                Scenario.throws_first) as (Hlog & Hthrow & _ & _).
  split.
  - assert (E : default [] (Receiver.listenersRef Scenario.two_handlers
                              !! "notification") = [1%nat; 2%nat])
      by (vm_compute; reflexivity).
    assert (Hin : 1%nat ∈ default [] (Receiver.listenersRef Scenario.two_handlers
                                        !! "notification"))
      by (rewrite E; apply list_elem_of_here).
    exact (Hthrow "notification" Scenario.args_x Scenario.two_handlers 1%nat "boom"
             Hin eq_refl).
  - rewrite (proj2 (Hlog "notification" Scenario.args_x Scenario.two_handlers)).
    vm_compute. reflexivity.
Defined.

Lemma embedded_manager_keys_every_client_by_undefined_witness :
  Legacy.sendToClient "c" Scenario.event_x Scenario.heap3
    (Legacy.addClient 2 Scenario.heap3 Legacy.new_SSEManager)
  = (Server.Fulfilled, Scenario.heap3) /\
  Server.sendToClient "c" Scenario.event_x Scenario.heap3
    (Server.addClient 2 Scenario.heap3 Scenario.registry3)
  = Server.call (Server.send Scenario.event_x) 2 Scenario.heap3 /\
  (Legacy.clientsCount
     (Legacy.run_ops [Server.RAdd 0; Server.RAdd 1; Server.RRemove "a"; Server.RAdd 2]
        Scenario.heap3 Legacy.new_SSEManager).2 <= 1)%nat.
Proof.
  pose proof embedded_manager_keys_every_client_by_undefined
    as (_ & Hsend & Hcount & _).
  destruct (Hsend Scenario.heap3 Scenario.registry3 Legacy.new_SSEManager 2%nat
              (Server.new_SSEClient "c" (Some {| Server.opt_userId := Some "u" |}))
              Scenario.event_x heap3_reachable eq_refl) as (_ & _ & Hlegacy & Hserver).
  split; [exact Hlegacy |]. split; [exact Hserver |].
  apply (Hcount Scenario.heap3 Scenario.registry3 _ heap3_reachable).
Defined.

Lemma buildUrl_correct_witness :
  ("user_id", "u1") ∈ Spec.kept_entries
     [("user_id", Utils.QString "u1"); ("channel", Utils.QNull)].
Proof.
  apply (proj1 (proj2 (proj2 buildUrl_correct))). apply list_elem_of_here.
Defined.

(** ** From the frames of a connection to the events of a receiver *)

Section WireFacts.

Import Server Transport Wire.

Lemma no_line_break_app (a b : string) :
  no_line_break (a +:+ b) = (no_line_break a && no_line_break b)%bool.
Proof.
  induction a as [| c a IH]; [done |]. rewrite append_cons. cbn [no_line_break].
  rewrite IH. by rewrite andb_assoc.
Qed.

Lemma lines_from_line (cur line rest : string) :
  no_line_break line = true ->
  lines_from cur (line +:+ Js.nl +:+ rest) = (cur +:+ line) :: lines_from "" rest.
Proof.
  revert cur. induction line as [| c line IH]; intros cur H.
  - rewrite append_nil_l, append_empty_r. reflexivity.
  - cbn [no_line_break] in H. apply andb_true_iff in H as [H1 H2].
    apply andb_true_iff in H1 as [Ha Hb]. rewrite append_cons. cbn [lines_from].
    destruct (Nat.eqb (nat_of_ascii c) 10); [done |].
    destruct (Nat.eqb (nat_of_ascii c) 13); [done |].
    rewrite IH by done. by rewrite append_assoc.
Qed.

Lemma string_of_uint_no_line_break (d : Decimal.uint) :
  no_line_break (NilEmpty.string_of_uint d) = true.
Proof. induction d; cbn; done. Qed.

Lemma string_of_Z_no_line_break (n : Z) : no_line_break (Js.string_of_Z n) = true.
Proof.
  unfold Js.string_of_Z, NilZero.string_of_int, NilZero.string_of_uint.
  destruct (Z.to_int n) as [d | d]; destruct d; try done;
    cbn [no_line_break]; cbn; apply string_of_uint_no_line_break.
Qed.

Lemma drop_last_LF_nl (p : string) : drop_last_LF (p +:+ Js.nl) = p.
Proof.
  induction p as [| c p IH]; [done |]. rewrite append_cons.
  cbn [drop_last_LF]. rewrite IH. by destruct p.
Qed.

(** *** The text of a JSON value holds no line terminator *)

Lemma json_nested_ind (P : Js.json -> Prop) :
  P Js.JNull -> (forall b, P (Js.JBool b)) -> (forall n, P (Js.JNum n)) ->
  (forall lit, P (Js.JNumLit lit)) -> (forall s, P (Js.JStr s)) ->
  (forall items, Forall P items -> P (Js.JArr items)) ->
  (forall props, Forall (fun p => P p.2) props -> P (Js.JObj props)) ->
  forall v, P v.
Proof.
  intros Hnull Hbool Hnum Hlit Hstr Harr Hobj. fix IH 1.
  intros [| b | n | lit | s | items | props];
    [apply Hnull | apply Hbool | apply Hnum | apply Hlit | apply Hstr | |].
  - apply Harr. revert items. fix IHl 1.
    intros [| x items]; constructor; [apply IH | apply IHl].
  - apply Hobj. revert props. fix IHl 1.
    intros [| [k x] props]; constructor; [apply IH | apply IHl].
Qed.

Lemma quote_char_no_line_break (c : ascii) : no_line_break (Js.quote_char c) = true.
Proof. destruct c as [[] [] [] [] [] [] [] []]; reflexivity. Qed.

Lemma quote_no_line_break (s : string) : no_line_break (Js.quote s) = true.
Proof.
  unfold Js.quote. cbn [no_line_break]. rewrite no_line_break_app.
  assert (no_line_break (Js.quote_body s) = true) as ->.
  { induction s as [| c s IH]; [done |]. cbn [Js.quote_body].
    by rewrite no_line_break_app, quote_char_no_line_break, IH. }
  reflexivity.
Qed.

Lemma join_no_line_break (sep : string) (l : list string) :
  no_line_break sep = true -> Forall (fun x => no_line_break x = true) l ->
  no_line_break (Js.join sep l) = true.
Proof.
  intros Hsep. induction 1 as [| x l Hx Hl IH]; [done |].
  destruct l as [| y l]; [done |]. cbn [Js.join] in *.
  by rewrite !no_line_break_app, Hx, Hsep, IH.
Qed.

Lemma stringify_no_line_break (v : Js.json) :
  plain v = true -> no_line_break (Js.stringify v) = true.
Proof.
  induction v as [| [] | n | lit | s | items IH | props IH] using json_nested_ind;
    intros Hp; try done.
  - apply string_of_Z_no_line_break.
  - apply quote_no_line_break.
  - cbn [Js.stringify plain] in *. rewrite !no_line_break_app.
    rewrite join_no_line_break; [done | done |].
    apply Forall_fmap, Forall_forall. intros x Hx. cbn.
    rewrite Forall_forall in IH. apply IH; [done |].
    rewrite forallb_forall in Hp. by apply Hp, list_elem_of_In.
  - cbn [Js.stringify plain] in *. rewrite !no_line_break_app.
    rewrite join_no_line_break; [done | done |].
    apply Forall_fmap, Forall_forall. intros [k x] Hx. cbn.
    rewrite !no_line_break_app, quote_no_line_break.
    rewrite Forall_forall in IH. pose proof (IH (k, x) Hx) as IHx. cbn in IHx.
    rewrite IHx; [done |].
    rewrite forallb_forall in Hp. by apply (Hp (k, x)), list_elem_of_In.
Qed.

Lemma payload_text_no_line_break (evt : ServerEvent) (d : Js.json) :
  line_safe evt = true -> data evt = Some d ->
  no_line_break (payload_text d) = true.
Proof.
  unfold line_safe. intros H Hd. rewrite Hd in H.
  apply andb_true_iff in H as [_ H].
  destruct d; try (by apply stringify_no_line_break); done.
Qed.

(** *** One frame *)

Lemma formatMessage_parts (evt : ServerEvent) (rest : string) :
  formatMessage evt +:+ rest
  = field_line "id: " (written (evt_id evt)) +:+
    field_line "event: " (written (event evt)) +:+
    field_line "retry: "
      (match retry evt with
       | Some ms => if Z.eqb ms 0 then None else Some (Js.string_of_Z ms)
       | None => None
       end) +:+
    field_line "data: " (payload_text <$> data evt) +:+ Js.nl +:+ rest.
Proof.
  destruct evt as [e d i r]. unfold formatMessage, field_line, written, payload_text.
  cbn [evt_id event retry data].
  destruct i as [i |]; [destruct (Js.truthy_str i) |];
    (destruct e as [e |]; [destruct (Js.truthy_str e) |]);
    (destruct r as [r |]; [destruct (Z.eqb r 0) |]);
    destruct d as [d |]; cbn [fmap option_fmap option_map];
    rewrite ?append_assoc; reflexivity.
Qed.

Lemma interpret_field_line (label field : string) (o : option string)
    (rest : string) (b : Buffers) :
  no_line_break label = true ->
  (forall v ls b', interpret ((label +:+ v) :: ls) b'
                   = interpret ls (process_field field v b')) ->
  (forall v, o = Some v -> no_line_break v = true) ->
  interpret (lines_from "" (field_line label o +:+ rest)) b
  = interpret (lines_from "" rest)
      (match o with Some v => process_field field v b | None => b end).
Proof.
  intros Hlabel Hline Ho. destruct o as [v |]; [| done]. unfold field_line.
  replace ((label +:+ v +:+ Js.nl) +:+ rest)
    with ((label +:+ v) +:+ Js.nl +:+ rest) by (by rewrite !append_assoc).
  rewrite lines_from_line.
  - by rewrite append_nil_l, Hline.
  - by rewrite no_line_break_app, Hlabel, (Ho v).
Qed.

Lemma written_no_line_break (o : option string) :
  match o with Some i => no_line_break i | None => true end = true ->
  forall v, written o = Some v -> no_line_break v = true.
Proof.
  destruct o as [i |]; [| done]. cbn. destruct (Js.truthy_str i); [| done].
  by intros ? v [= <-].
Qed.

Lemma append_nl_cons (p : string) : exists c r, p +:+ Js.nl = String c r.
Proof. destruct p as [| c p]; [by exists Js.LF, "" | by exists c, (p +:+ Js.nl)]. Qed.

Lemma interpret_frame (evt : ServerEvent) (rest last : string) :
  line_safe evt = true ->
  interpret (lines_from "" (formatMessage evt +:+ rest))
    {| buf_data := ""; buf_type := ""; buf_id := last |}
  = option_list (event_of last evt) ++
    interpret (lines_from "" rest)
      {| buf_data := ""; buf_type := ""; buf_id := next_id last evt |}.
Proof.
  intros Hsafe. pose proof Hsafe as Hs. unfold line_safe in Hs.
  apply andb_true_iff in Hs as [Hs Hdata]. apply andb_true_iff in Hs as [Hid Hname].
  rewrite formatMessage_parts.
  rewrite (interpret_field_line "id: " "id");
    [| done | intros; reflexivity | by apply written_no_line_break].
  rewrite (interpret_field_line "event: " "event");
    [| done | intros; reflexivity | by apply written_no_line_break].
  rewrite (interpret_field_line "retry: " "retry");
    [| done | intros; reflexivity |].
  2: { intros v Hv. destruct (retry evt) as [ms |]; [| done].
       destruct (Z.eqb ms 0); [done |]. injection Hv as <-.
       apply string_of_Z_no_line_break. }
  rewrite (interpret_field_line "data: " "data");
    [| done | intros; reflexivity |].
  2: { intros v Hv. destruct (data evt) as [d |] eqn:Hd; [| done].
       injection Hv as <-. by eapply payload_text_no_line_break. }
  change (lines_from "" (Js.nl +:+ rest)) with ("" :: lines_from "" rest).
  unfold event_of, written, next_id, event_name.
  destruct (evt_id evt) as [i |];
    [destruct (Js.truthy_str i) eqn:Hi; [destruct (has_nul i) eqn:Hnul |] |];
    (destruct (event evt) as [e |]; [destruct (Js.truthy_str e) eqn:He |]);
    (destruct (retry evt) as [ms |]; [destruct (Z.eqb ms 0) |]);
    destruct (data evt) as [d |]; cbn; rewrite ?Hi, ?Hnul, ?He; cbn;
    rewrite ?append_nil_l, ?drop_last_LF_nl;
    try (destruct (append_nl_cons (payload_text d)) as (c & r & ->)); reflexivity.
Qed.

Lemma interpret_ping (now : Z) (rest last : string) :
  interpret
    (lines_from "" ((": ping " +:+ Js.string_of_Z now +:+ Js.nl +:+ Js.nl) +:+ rest))
    {| buf_data := ""; buf_type := ""; buf_id := last |}
  = interpret (lines_from "" rest)
      {| buf_data := ""; buf_type := ""; buf_id := last |}.
Proof.
  replace ((": ping " +:+ Js.string_of_Z now +:+ Js.nl +:+ Js.nl) +:+ rest)
    with ((": ping " +:+ Js.string_of_Z now) +:+ Js.nl +:+ (Js.nl +:+ rest))
    by (by rewrite !append_assoc).
  rewrite lines_from_line
    by (by rewrite no_line_break_app, string_of_Z_no_line_break).
  reflexivity.
Qed.

(** *** The pipe of a connection that stays open *)

Lemma writeRaw_open (buf : string) (c : SSEClient) :
  closed c = false -> w_status (writer c) = Writable ->
  (writeRaw buf c).2
  = set_writer {| w_status := Writable; w_chunks := w_chunks (writer c) ++ [buf] |} c.
Proof.
  intros Hc Hw. unfold writeRaw, writer_write. by rewrite Hc, Hw.
Qed.

Lemma heartbeat_tick_open (now : Z) (c : SSEClient) :
  closed c = false -> w_status (writer c) = Writable ->
  heartbeat_tick now c = (ping now c).2.
Proof.
  intros Hc Hw. unfold heartbeat_tick, ping, writeRaw, writer_write.
  by rewrite Hc, Hw.
Qed.

Lemma open_ops_chunks (ops : list ClientOp) (c : SSEClient) :
  closed c = false -> w_status (writer c) = Writable ->
  forallb keeps_open ops = true ->
  closed (foldl apply_op c ops) = false /\
  w_status (writer (foldl apply_op c ops)) = Writable /\
  w_chunks (writer (foldl apply_op c ops)) = w_chunks (writer c) ++ omap chunk_of ops.
Proof.
  revert c. induction ops as [| op ops IH]; intros c Hc Hw Hops.
  - cbn. by rewrite app_nil_r.
  - cbn [forallb] in Hops. apply andb_true_iff in Hops as [Hop Hops].
    cbn [foldl].
    assert (Hstep : closed (apply_op c op) = false /\
                    w_status (writer (apply_op c op)) = Writable /\
                    w_chunks (writer (apply_op c op))
                    = w_chunks (writer c) ++ option_list (chunk_of op)).
    { destruct op; try done; cbn [apply_op chunk_of option_list];
        unfold send, ping; rewrite ?heartbeat_tick_open by done; unfold ping;
        rewrite ?writeRaw_open by done; cbn; rewrite ?app_nil_r; done. }
    destruct Hstep as (S1 & S2 & S3).
    destruct (IH (apply_op c op) S1 S2 Hops) as (I1 & I2 & I3).
    split; [exact I1 | split; [exact I2 |]]. rewrite I3, S3, <- app_assoc. f_equal.
    cbn. by destruct (chunk_of op).
Qed.

Lemma interpret_chunks (ops : list ClientOp) (last : string) :
  forallb keeps_open ops = true ->
  interpret (lines_from "" (foldr String.append "" (omap chunk_of ops)))
    {| buf_data := ""; buf_type := ""; buf_id := last |}
  = events_from last (omap sent ops).
Proof.
  revert last. induction ops as [| op ops IH]; intros last Hops; [done |].
  cbn [forallb] in Hops. apply andb_true_iff in Hops as [Hop Hops].
  destruct op; try done; cbn [omap list_omap chunk_of sent foldr events_from];
    rewrite ?interpret_ping, ?interpret_frame by done; rewrite ?IH by done; done.
Qed.

(** X1: while a connection stays open, a receiver that reads its pipe
    gets exactly the records that were sent, in the order of the sends:
    each record with a payload is one event whose type is the record's
    event name (["message"] without one), whose data is the payload text
    and whose last event id is the latest id sent so far; heartbeat pings
    and records without a payload are read as no event at all. *)
Theorem receiver_reads_the_records_sent (uuid : string)
    (options : option SSEClientOptions) (ops : list ClientOp) :
  forallb keeps_open ops = true ->
  events_of_stream (bytes_written (foldl apply_op (new_SSEClient uuid options) ops))
  = events_from "" (omap sent ops).
Proof.
  intros Hops. unfold events_of_stream, bytes_written.
  destruct (open_ops_chunks ops (new_SSEClient uuid options)) as (_ & _ & ->);
    [done | done | done |].
  cbn [new_SSEClient writer w_chunks app]. by apply interpret_chunks.
Qed.

(** X2: a string payload is written as it is, so a line terminator inside
    it ends the [data:] line and what follows is read as further fields of
    the frame: for a payload [a LF "event: " y] the receiver gets an event
    of type [y] whose data is [a], whatever event name the record
    carries. *)
Theorem string_payload_is_written_verbatim (e i : option string) (r : option Z)
    (a y : string) :
  line_safe {| event := e; data := None; evt_id := i; retry := r |} = true ->
  no_line_break a = true -> no_line_break y = true -> Js.truthy_str y = true ->
  let evt := {| event := e;
                data := Some (Js.JStr (a +:+ Js.nl +:+ "event: " +:+ y));
                evt_id := i; retry := r |} in
  events_of_stream (formatMessage evt)
  = [{| me_type := y; me_data := a; me_lastEventId := next_id "" evt |}].
Proof.
  intros Hsafe Ha Hy Hty evt. unfold line_safe in Hsafe.
  cbn [evt_id event data] in Hsafe.
  apply andb_true_iff in Hsafe as [Hs _]. apply andb_true_iff in Hs as [Hid Hname].
  unfold events_of_stream. rewrite <- (append_empty_r (formatMessage evt)).
  rewrite formatMessage_parts. subst evt.
  cbn [evt_id event data retry fmap option_fmap option_map payload_text].
  replace (field_line "data: " (Some (a +:+ Js.nl +:+ "event: " +:+ y)) +:+ Js.nl +:+ "")
    with (field_line "data: " (Some a) +:+ field_line "event: " (Some y) +:+ Js.nl +:+ "")
    by (unfold field_line; by rewrite !append_assoc).
  rewrite (interpret_field_line "id: " "id");
    [| done | intros; reflexivity | by apply written_no_line_break].
  rewrite (interpret_field_line "event: " "event");
    [| done | intros; reflexivity | by apply written_no_line_break].
  rewrite (interpret_field_line "retry: " "retry");
    [| done | intros; reflexivity |].
  2: { intros v Hv. destruct r as [ms |]; [| done].
       destruct (Z.eqb ms 0); [done |]. injection Hv as <-.
       apply string_of_Z_no_line_break. }
  rewrite (interpret_field_line "data: " "data");
    [| done | intros; reflexivity | by intros ? [= <-]].
  rewrite (interpret_field_line "event: " "event");
    [| done | intros; reflexivity | by intros ? [= <-]].
  change (lines_from "" (Js.nl +:+ "")) with [""].
  unfold written, next_id. cbn [evt_id].
  destruct i as [i |];
    [destruct (Js.truthy_str i) eqn:Hi; [destruct (has_nul i) eqn:Hnul |] |];
    (destruct e as [e |]; [destruct (Js.truthy_str e) eqn:He |]);
    (destruct r as [ms |]; [destruct (Z.eqb ms 0) |]);
    cbn; rewrite ?Hi, ?Hnul, ?He; cbn;
    rewrite ?append_nil_l, ?drop_last_LF_nl, ?Hty;
    destruct (append_nl_cons a) as (c & s & ->); reflexivity.
Qed.

End WireFacts.

(** ** More on the connection registry *)

Section RegistryMore.

Import Server.

Lemma NoDup_omap_inj {A B : Type} (f : A -> option B) (l : list A) :
  NoDup l ->
  (forall x y z, x ∈ l -> y ∈ l -> f x = Some z -> f y = Some z -> x = y) ->
  NoDup (omap f l).
Proof.
  induction 1 as [| x l Hx Hl IH]; intros Hinj; [constructor |].
  assert (Hrest : NoDup (omap f l)).
  { apply IH. intros a b z Ha Hb. apply Hinj; by apply list_elem_of_further. }
  cbn. destruct (f x) as [z |] eqn:E; [| done].
  constructor; [| done]. rewrite list_elem_of_omap. intros (y & Hy & Hfy).
  assert (x = y) as ->; [| done].
  apply (Hinj x y z); [apply list_elem_of_here | by apply list_elem_of_further | done | done].
Qed.

Lemma sendToUser_targets (h : Heap) (m : SSEManager) (u : string) (r : ref) :
  registry_inv h m ->
  r ∈ omap (fun cid => clientsById m !! cid) (elements (registered_for u h m)) <->
  exists i c, clientsById m !! i = Some r /\ h !! r = Some c /\ user_of c = Some u.
Proof.
  intros Hinv. rewrite list_elem_of_omap. split.
  - intros (i & Hi & Hr). apply elem_of_elements, elem_of_registered_for in Hi
      as (r' & Hr' & Hu). rewrite Hr in Hr'. injection Hr' as <-.
    destruct (h !! r) as [c |] eqn:Hc; [| done]. by exists i, c.
  - intros (i & c & Hi & Hc & Hu). exists i. split; [| done].
    apply elem_of_elements, elem_of_registered_for. exists r. by rewrite Hc.
Qed.

Lemma sendToUser_targets_NoDup (h : Heap) (m : SSEManager) (ids : gset string) :
  registry_inv h m ->
  NoDup (omap (fun cid => clientsById m !! cid) (elements ids)).
Proof.
  intros Hinv. apply NoDup_omap_inj; [apply NoDup_elements |].
  intros i j r _ _ Hi Hj. apply (inv_byId h m Hinv) in Hi, Hj. congruence.
Qed.

(** X3: [sendToUser] never rejects; on a registry that the program has
    built it sends the record once to every connection registered for the
    user, leaves every other connection as it is, and does nothing when the
    user has no connection. *)
Theorem sendToUser_reaches_the_connections_of_the_user
    (h : Heap) (m : SSEManager) (u : string) (evt : ServerEvent) :
  reachable h m ->
  (sendToUser u evt h m).1 = Fulfilled /\
  (forall (i : string) (r : ref) (c : SSEClient),
      clientsById m !! i = Some r -> h !! r = Some c -> user_of c = Some u ->
      (sendToUser u evt h m).2 !! r = Some (send evt c).2) /\
  (forall r : ref,
      (forall i c, clientsById m !! i = Some r -> h !! r = Some c ->
                   user_of c ≠ Some u) ->
      (sendToUser u evt h m).2 !! r = h !! r) /\
  (registered_for u h m = ∅ -> sendToUser u evt h m = (Fulfilled, h)).
Proof.
  intros Hreach. pose proof (reachable_inv h m Hreach) as Hinv.
  unfold sendToUser. rewrite (inv_byUser h m Hinv u).
  destruct (decide (registered_for u h m = ∅)) as [Hempty | Hsome].
  { split_and!; try done. intros i r c Hi Hc Hu.
    assert (i ∈ registered_for u h m) as Hin.
    { apply elem_of_registered_for. exists r. by rewrite Hc. }
    rewrite Hempty in Hin. by apply not_elem_of_empty in Hin. }
  assert (Nat.eqb (size (registered_for u h m)) 0 = false) as ->.
  { apply Nat.eqb_neq. intros Hsize. apply size_empty_iff in Hsize.
    by apply leibniz_equiv in Hsize. }
  set (targets := omap (fun cid => clientsById m !! cid)
                       (elements (registered_for u h m))).
  pose proof (send_each_fulfilled evt targets h) as Hk.
  pose proof (fun r => send_each_lookup evt targets h r
                         (sendToUser_targets_NoDup h m _ Hinv)) as Hl.
  destruct (send_each evt targets h) as [ks h'] eqn:E. cbn in *.
  split; [done |]. split; [| split; [| done]].
  - intros i r c Hi Hc Hu. rewrite Hl, decide_True, Hc; [done |].
    apply sendToUser_targets; [done |]. by exists i, c.
  - intros r Hr. rewrite Hl, decide_False; [done |].
    intros (i & c & Hi & Hc & Hu)%sendToUser_targets; [| done].
    by apply (Hr i c).
Qed.

(** X4: registering a client twice is the same as registering it once;
    a registration adds one to [clientsCount] exactly when the id was not
    registered yet. *)
Theorem addClient_twice (h : Heap) (m : SSEManager) (r : ref) :
  addClient r h (addClient r h m) = addClient r h m /\
  (forall c, h !! r = Some c ->
     clientsCount (addClient r h m)
     = if decide (is_Some (clientsById m !! id c)) then clientsCount m
       else S (clientsCount m)).
Proof.
  split.
  - unfold addClient. destruct (h !! r) as [c |] eqn:Hc; [| done].
    destruct (userId c) as [u |]; [destruct (Js.truthy_str u) |];
      cbn [clientsById clientIdsByUser]; rewrite insert_insert_eq; try done.
    f_equal. rewrite lookup_insert_eq. cbn [default]. rewrite insert_insert_eq.
    f_equal. set_solver.
  - intros c Hc. unfold clientsCount. rewrite (clientsById_addClient r h m c Hc).
    case_decide as Hi.
    + by rewrite map_size_insert_Some.
    + apply eq_None_not_Some in Hi. by rewrite map_size_insert_None.
Qed.

(** X5: on a registry that the program has built, registering a client
    whose id is not registered and removing it again gives back the
    registry, both indexes; the connection has been closed. *)
Theorem addClient_then_removeClient
    (h : Heap) (m : SSEManager) (r : ref) (c : SSEClient) :
  reachable h m -> h !! r = Some c -> clientsById m !! id c = None ->
  (removeClient (id c) h (addClient r h m)).2 = m /\
  (removeClient (id c) h (addClient r h m)).1.2 = <[r := (close c).2]> h.
Proof.
  intros Hreach Hc Hfresh. pose proof (reachable_inv h m Hreach) as Hinv.
  assert (Hi : clientsById (addClient r h m) !! id c = Some r).
  { by rewrite (clientsById_addClient r h m c Hc), lookup_insert_eq. }
  destruct (removeClient_known h (addClient r h m) (id c) r Hi) as (Hh & HbyId & HbyUser).
  split.
  2: { rewrite Hh. unfold call. rewrite Hc. by destruct (close c). }
  assert (E1 : clientsById (removeClient (id c) h (addClient r h m)).2 = clientsById m).
  { rewrite HbyId, (clientsById_addClient r h m c Hc), delete_insert_eq.
    by apply delete_id. }
  assert (E2 : clientIdsByUser (removeClient (id c) h (addClient r h m)).2
               = clientIdsByUser m).
  { rewrite HbyUser, Hc. cbn [mbind option_bind]. unfold addClient. rewrite Hc.
    unfold user_of. destruct (userId c) as [u |]; [| done].
    destruct (Js.truthy_str u); [| done]. cbn [clientIdsByUser].
    rewrite lookup_insert_eq.
    pose proof (inv_byUser h m Hinv u) as Hu.
    assert (Hnotin : id c ∉ registered_for u h m).
    { intros (r' & Hr' & _)%elem_of_registered_for. by rewrite Hfresh in Hr'. }
    destruct (decide (registered_for u h m = ∅)) as [Hempty | Hsome].
    - rewrite Hu. cbn [from_option]. rewrite decide_True by set_solver.
      rewrite delete_insert_eq. by apply delete_id.
    - rewrite Hu. cbn [from_option]. unfold Datatypes.id.
      assert ((registered_for u h m ∪ {[id c]}) ∖ {[id c]} = registered_for u h m)
        as -> by set_solver.
      rewrite decide_False by done. rewrite insert_insert_eq. by apply insert_id. }
  revert E1 E2. generalize (removeClient (id c) h (addClient r h m)).2.
  intros [byId byUser]. destruct m. cbn. by intros -> ->.
Qed.

(** X6: [removeClient] of a registered id never rejects, takes one
    connection out of the registry and closes it, leaving what it has
    written and every other connection as they are (an open connection
    also loses its heartbeat timer); removing the id again changes
    nothing. *)
Theorem removeClient_closes_the_connection
    (h : Heap) (m : SSEManager) (i : string) (r : ref) (c : SSEClient) :
  clientsById m !! i = Some r -> h !! r = Some c ->
  (removeClient i h m).1.1 = Fulfilled /\
  clientsCount (removeClient i h m).2 = pred (clientsCount m) /\
  (exists c', (removeClient i h m).1.2 !! r = Some c' /\
              closed c' = true /\ id c' = id c /\
              w_chunks (writer c') = w_chunks (writer c) /\
              (closed c = false -> heartbeat c' = None)) /\
  (forall r', r' ≠ r -> (removeClient i h m).1.2 !! r' = h !! r') /\
  removeClient i (removeClient i h m).1.2 (removeClient i h m).2
  = (Fulfilled, (removeClient i h m).1.2, (removeClient i h m).2).
Proof.
  intros Hi Hc.
  destruct (removeClient_known h m i r Hi) as (Hh & HbyId & _).
  assert (Hk : (removeClient i h m).1.1 = Fulfilled).
  { unfold removeClient. rewrite Hi. unfold call. rewrite Hc.
    pose proof (close_fulfilled c). by destruct (close c). }
  assert (Hcall : (call close r h).2 = <[r := (close c).2]> h).
  { unfold call. rewrite Hc. by destruct (close c). }
  split; [done |]. split; [| split; [| split]].
  - unfold clientsCount. rewrite HbyId. by rewrite map_size_delete_Some.
  - exists (close c).2. rewrite Hh, Hcall.
    rewrite list_lookup_insert_eq by (by eapply lookup_lt_Some).
    split_and!; [done | apply close_closed | apply close_identity
                | apply close_chunks |].
    intros Hopen. unfold close. rewrite Hopen. by destruct (writer_close _).
  - intros r' Hne. rewrite Hh, Hcall. by rewrite list_lookup_insert_ne.
  - apply removeClient_unknown. rewrite HbyId. apply lookup_delete_eq.
Qed.

Lemma size_list_to_set_le (l : list string) :
  (size (list_to_set l : gset string) <= length l)%nat.
Proof.
  induction l as [| x l IH]; cbn [list_to_set length].
  - by rewrite size_empty.
  - rewrite size_union_alt, size_singleton.
    assert (size (list_to_set l ∖ {[x]} : gset string)
            <= size (list_to_set l : gset string))%nat
      by (apply subseteq_size; set_solver).
    lia.
Qed.

Lemma length_omap_le {A B : Type} (f : A -> option B) (l : list A) :
  (length (omap f l) <= length l)%nat.
Proof.
  induction l as [| x l IH]; [done |]. cbn. destruct (f x); cbn; lia.
Qed.

(** X7: on every registry that the program has built, the two indexes
    agree: a user's set is never empty and holds exactly the ids under
    which a connection of that user is registered, a connection is
    registered under its own id, and there are never more users than
    connections. *)
Theorem user_index_follows_the_primary_index (h : Heap) (m : SSEManager) :
  reachable h m ->
  (forall (u : string) (ids : gset string),
      clientIdsByUser m !! u = Some ids ->
      ids ≠ ∅ /\
      forall i, i ∈ ids <->
                exists r c, clientsById m !! i = Some r /\ h !! r = Some c /\
                            user_of c = Some u) /\
  (forall (i u : string) (r : ref) (c : SSEClient),
      clientsById m !! i = Some r -> h !! r = Some c -> user_of c = Some u ->
      exists ids, clientIdsByUser m !! u = Some ids /\ i ∈ ids) /\
  (forall (i : string) (r : ref),
      clientsById m !! i = Some r -> exists c, h !! r = Some c /\ id c = i) /\
  (usersCount m <= clientsCount m)%nat.
Proof.
  intros Hreach. pose proof (reachable_inv h m Hreach) as Hinv.
  assert (Hmem : forall u i, i ∈ registered_for u h m <->
                   exists r c, clientsById m !! i = Some r /\ h !! r = Some c /\
                               user_of c = Some u).
  { intros u i. rewrite elem_of_registered_for. split.
    - intros (r & Hr & Hu). destruct (h !! r) as [c |] eqn:Hc; [| done].
      by exists r, c.
    - intros (r & c & Hr & Hc & Hu). exists r. by rewrite Hc. }
  split; [| split; [| split]].
  - intros u ids Hu. rewrite (inv_byUser h m Hinv u) in Hu.
    destruct (decide (registered_for u h m = ∅)); [done |].
    injection Hu as <-. split; [done |]. apply Hmem.
  - intros i u r c Hi Hc Hu. rewrite (inv_byUser h m Hinv u).
    assert (i ∈ registered_for u h m) as Hin by (apply Hmem; by exists r, c).
    rewrite decide_False by (by eapply gset_elem_nonempty).
    by eexists.
  - intros i r Hi. apply (inv_byId h m Hinv) in Hi.
    destruct (h !! r) as [c |]; [| done]. exists c. split; [done |].
    cbn in Hi. congruence.
  - unfold usersCount, clientsCount.
    rewrite <- (size_dom (clientIdsByUser m)), <- (length_map_to_list (clientsById m)).
    set (users := omap (fun kv : string * ref => (h !! kv.2) ≫= user_of)
                       (map_to_list (clientsById m))).
    transitivity (size (list_to_set users : gset string)).
    + apply subseteq_size. intros u Hu. apply elem_of_dom in Hu as [ids Hu].
      rewrite (inv_byUser h m Hinv u) in Hu.
      destruct (decide (registered_for u h m = ∅)) as [| Hne]; [done |].
      apply set_choose_L in Hne as [i Hi].
      apply elem_of_registered_for in Hi as (r & Hr & Hur).
      apply elem_of_list_to_set, list_elem_of_omap. exists (i, r).
      split; [by apply elem_of_map_to_list | done].
    + etransitivity; [apply size_list_to_set_le | apply length_omap_le].
Qed.

(** X8: [createClient] with an identifier that no client object carries
    yet builds one open connection, registers it under that identifier and,
    when it has a user, adds the identifier to the set of that user; every
    other entry of the two indexes stays as it was. *)
Theorem createClient_registers_one_new_connection
    (h : Heap) (m : SSEManager) (uuid : string) (options : option SSEClientOptions) :
  reachable h m -> uuid ∉ (id <$> h) ->
  (createClient uuid options h m).1.2 !! (createClient uuid options h m).1.1
  = Some (new_SSEClient uuid options) /\
  (forall r c, h !! r = Some c -> (createClient uuid options h m).1.2 !! r = Some c) /\
  clientsById m !! uuid = None /\
  clientsById (createClient uuid options h m).2
  = <[uuid := (createClient uuid options h m).1.1]> (clientsById m) /\
  clientsCount (createClient uuid options h m).2 = S (clientsCount m) /\
  (forall u,
      clientIdsByUser (createClient uuid options h m).2 !! u
      = if decide (user_of (new_SSEClient uuid options) = Some u)
        then Some (registered_for u h m ∪ {[uuid]})
        else clientIdsByUser m !! u) /\
  reachable (createClient uuid options h m).1.2 (createClient uuid options h m).2.
Proof.
  intros Hreach Hfresh. pose proof (reachable_inv h m Hreach) as Hinv.
  assert (Hnew : (h ++ [new_SSEClient uuid options]) !! length h
                 = Some (new_SSEClient uuid options)).
  { rewrite lookup_app_r by done. by rewrite Nat.sub_diag. }
  assert (Hnone : clientsById m !! uuid = None).
  { destruct (clientsById m !! uuid) as [r |] eqn:Hr; [| done].
    exfalso. apply Hfresh. apply (inv_byId h m Hinv) in Hr.
    destruct (h !! r) as [c |] eqn:Hc; [| done]. cbn in Hr. injection Hr as <-.
    apply list_elem_of_fmap. exists c. split; [done |].
    by eapply list_elem_of_lookup_2. }
  assert (HbyId : clientsById (createClient uuid options h m).2
                  = <[uuid := length h]> (clientsById m)).
  { unfold createClient. cbn [snd]. by rewrite (clientsById_addClient _ _ _ _ Hnew). }
  split; [exact Hnew |]. split; [| split; [exact Hnone | split; [exact HbyId |]]].
  { intros r c Hc. unfold createClient. cbn. by apply lookup_app_l_Some. }
  split; [| split; [| by apply reachable_createClient]].
  - unfold clientsCount. rewrite HbyId. by apply map_size_insert_None.
  - intros u. unfold createClient. cbn [snd]. unfold addClient. rewrite Hnew.
    pose proof (inv_byUser h m Hinv) as Hu.
    assert (Hdef : forall u', default ∅ (clientIdsByUser m !! u') = registered_for u' h m).
    { intros u'. rewrite Hu. by destruct (decide (registered_for u' h m = ∅)) as [-> |]. }
    unfold user_of. destruct (userId (new_SSEClient uuid options)) as [u' |].
    2: { by rewrite decide_False. }
    destruct (Js.truthy_str u'); [| by rewrite decide_False].
    cbn [clientIdsByUser]. destruct (decide (Some u' = Some u)) as [[= ->] | Hne].
    + by rewrite lookup_insert_eq, Hdef.
    + rewrite lookup_insert_ne; [done | congruence].
Qed.

End RegistryMore.

(** ** More on the server connection *)

Section ConnectionMore.

Import Server.

(** X9: a tick of the heartbeat timer writes one ping frame to a
    connection whose pipe is writable and changes nothing else; on a
    connection whose pipe has failed it closes the connection and cancels
    the timer, so that a connection whose peer is gone stops its own
    heartbeat; restarting the heartbeat replaces the period. *)
Theorem heartbeat_tick_pings_or_closes (c : SSEClient) (now : Z) :
  (closed c = false -> w_status (writer c) = Writable ->
   heartbeat_tick now c
   = set_writer {| w_status := Writable;
                   w_chunks := w_chunks (writer c)
                               ++ [": ping " +:+ Js.string_of_Z now +:+ Js.nl +:+ Js.nl] |}
       c) /\
  (closed c = false -> w_status (writer c) ≠ Writable ->
   closed (heartbeat_tick now c) = true /\
   heartbeat (heartbeat_tick now c) = None /\
   writer (heartbeat_tick now c) = writer c) /\
  (forall ms ms', startHeartbeat ms' (startHeartbeat ms c) = startHeartbeat ms' c).
Proof.
  split; [| split; [| done]].
  - intros Hc Hw. unfold heartbeat_tick, ping, writeRaw, writer_write.
    by rewrite Hc, Hw.
  - intros Hc Hw. unfold heartbeat_tick, ping, writeRaw, writer_write, close.
    rewrite Hc. destruct (w_status (writer c)) eqn:E; [done | |]; cbn;
      rewrite Hc; unfold writer_close; cbn; rewrite E; cbn; done.
Qed.

Lemma apply_op_released (c : SSEClient) (op : ClientOp) :
  (closed c = true -> w_status (writer c) ≠ Writable) ->
  closed (apply_op c op) = true -> w_status (writer (apply_op c op)) ≠ Writable.
Proof.
  intros Hinv.
  assert (Hclose : forall c0, (closed c0 = true -> w_status (writer c0) ≠ Writable) ->
                     w_status (writer (close c0).2) ≠ Writable).
  { intros c0 H0. unfold close. destruct (closed c0) eqn:E0; [by apply H0 |].
    unfold writer_close. cbn. destruct (w_status (writer c0)) eqn:E; cbn; by rewrite ?E. }
  assert (Hwrite : forall buf, closed (writeRaw buf c).2 = true ->
                     w_status (writer (writeRaw buf c).2) ≠ Writable).
  { intros buf. unfold writeRaw. destruct (closed c) eqn:E0; [intros _; by apply Hinv |].
    unfold writer_write. destruct (w_status (writer c)) eqn:E; cbn; [by rewrite E0 | |];
      intros _; apply Hclose; cbn; by rewrite E. }
  destruct op; cbn [apply_op].
  - apply Hwrite.
  - apply Hwrite.
  - unfold heartbeat_tick, ping.
    pose proof (writeRaw_fulfilled (": ping " +:+ Js.string_of_Z now +:+ Js.nl +:+ Js.nl) c)
      as Hk.
    pose proof (Hwrite (": ping " +:+ Js.string_of_Z now +:+ Js.nl +:+ Js.nl)) as Hw.
    destruct (writeRaw _ c) as [k c']. cbn in *. subst k. exact Hw.
  - done.
  - done.
  - intros _. by apply Hclose.
  - cbn. intros Hc. unfold writer_abort. specialize (Hinv Hc).
    destruct (w_status (writer c)) eqn:E; cbn; by rewrite ?E.
Qed.

(** X10: whatever is done to a connection after its construction, once it
    is closed its pipe is no longer writable (the write end has been closed
    or had failed before), and its [id] and [userId] are those it was
    built with. *)
Theorem closed_connection_has_released_its_pipe
    (uuid : string) (options : option SSEClientOptions) (ops : list ClientOp) :
  (closed (foldl apply_op (new_SSEClient uuid options) ops) = true ->
   w_status (writer (foldl apply_op (new_SSEClient uuid options) ops)) ≠ Writable) /\
  id (foldl apply_op (new_SSEClient uuid options) ops) = uuid /\
  userId (foldl apply_op (new_SSEClient uuid options) ops)
  = userId (new_SSEClient uuid options).
Proof.
  assert (H : forall c : SSEClient,
             (closed c = true -> w_status (writer c) ≠ Writable) ->
             (closed (foldl apply_op c ops) = true ->
              w_status (writer (foldl apply_op c ops)) ≠ Writable) /\
             id (foldl apply_op c ops) = id c /\
             userId (foldl apply_op c ops) = userId c).
  { induction ops as [| op ops IH]; intros c Hc; [done |]. cbn [foldl].
    destruct (IH (apply_op c op)) as (I1 & I2 & I3); [by apply apply_op_released |].
    destruct (apply_op_identity c op) as [J1 J2]. split; [done |]. split; congruence. }
  by apply (H (new_SSEClient uuid options)).
Qed.

End ConnectionMore.

(** ** More on the states of the hook *)

Section LifecycleFacts.

Import Receiver Transport Lifecycle.

Variable urlString : string.
Variable opts : Options.
Variable behaviour : Handler -> list Arg -> option string.

Ltac hook_simpl :=
  cbn [eventSourceRef retryRef timerRef destroyedRef listenersRef dispatchersRef
       state sources timers next_timer next_dispatch log
       set_eventSourceRef set_retryRef set_timerRef set_destroyedRef
       set_listenersRef set_dispatchersRef set_state set_sources set_timers
       set_next_timer set_next_dispatch set_log update_source push_log
       st_url connected readyState lastEventId lastEventName lastData error] in *.

(** *** States of the same shape *)

Lemma same_shape_refl (st : Hook) : same_shape st st.
Proof. by repeat split. Qed.

Lemma same_shape_trans (st1 st2 st3 : Hook) :
  same_shape st1 st2 -> same_shape st2 st3 -> same_shape st1 st3.
Proof.
  intros ((A1 & A2 & A3 & A4 & A5 & A6) & A7 & A8 & A9 & A10)
         ((B1 & B2 & B3 & B4 & B5 & B6) & B7 & B8 & B9 & B10).
  repeat split; congruence.
Qed.

Lemma same_shape_wf (st st' : Hook) :
  same_shape st st' -> hook_wf urlString opts st -> hook_wf urlString opts st'.
Proof.
  intros ((E1 & E2 & E3 & E4 & E5 & E6) & E7 & E8 & E9 & E10) [W1 W2 W3 W4 W5 W6 W7 W8].
  split; unfold current_open in *; rewrite ?E1, ?E3, ?E5, ?E6, ?E7, ?E8, ?E9, ?E10; done.
Qed.

Lemma emit_same_shape (name : string) (args : list Arg) (st : Hook) :
  same_shape st (emit behaviour name args st).
Proof. rewrite emit_log. by repeat split. Qed.

Lemma dispatch_received (name : string) (ev : MessageEvent) (st : Hook) (set : list Handler) :
  listenersRef st !! name = Some set -> set ≠ [] ->
  dispatch opts behaviour name ev st
  = set_log (log st ++ flat_map (handler_effects behaviour name (handler_args opts ev)) set)
      (set_state (received opts name ev (state st)) st).
Proof.
  intros Hset Hne. unfold dispatch. rewrite Hset.
  destruct set as [| fn set]; [done |]. cbn [length Nat.eqb].
  rewrite emit_log. hook_simpl. by rewrite Hset.
Qed.

Lemma dispatch_same_shape (name : string) (ev : MessageEvent) (st : Hook) :
  same_shape st (dispatch opts behaviour name ev st).
Proof.
  unfold dispatch. destruct (listenersRef st !! name) as [set |]; [| apply same_shape_refl].
  destruct (Nat.eqb (length set) 0); [apply same_shape_refl |].
  rewrite emit_log. by repeat split.
Qed.

Lemma onmessage_same_shape (ev : MessageEvent) (st : Hook) :
  same_shape st (onmessage opts behaviour ev st).
Proof. unfold onmessage. rewrite emit_log. by repeat split. Qed.

Lemma dispatch_each_same_shape (ev : MessageEvent) (ls : list (string * nat)) (st : Hook) :
  same_shape st
    (foldl (fun st '(name, _) =>
              if String.eqb name (me_type ev) then dispatch opts behaviour name ev st
              else st) st ls).
Proof.
  revert st. induction ls as [| [n d] ls IH]; intros st; [apply same_shape_refl |].
  cbn [foldl]. eapply same_shape_trans; [| apply IH].
  destruct (String.eqb n (me_type ev)); [apply dispatch_same_shape | apply same_shape_refl].
Qed.

(** *** EventSource objects stay well built *)

Lemma well_built_addEventListener (name : string) (d : nat) (src : EventSource) :
  (forall d', (name, d') ∉ es_listeners src) ->
  well_built urlString opts src -> well_built urlString opts (addEventListener name d src).
Proof.
  intros Hnew (N & U & C & R). unfold addEventListener. case_decide as E; [done |].
  split; [| done]. cbn. rewrite fmap_app. apply NoDup_app. split; [done |].
  split; [| apply NoDup_singleton].
  intros n Hn. cbn. rewrite list_elem_of_singleton. intros ->.
  apply list_elem_of_fmap in Hn as ([n' d'] & Heq & Hin). cbn in Heq. subst n'.
  by apply (Hnew d').
Qed.

Lemma well_built_removeEventListener (name : string) (d : nat) (src : EventSource) :
  well_built urlString opts src -> well_built urlString opts (removeEventListener name d src).
Proof.
  intros (N & U & C & R). split; [| done]. cbn.
  eapply sublist_NoDup; [exact N |]. apply fmap_sublist, sublist_filter.
Qed.

Lemma well_built_readyState (rs : Z) (src : EventSource) :
  rs = CONNECTING \/ rs = OPEN \/ rs = CLOSED ->
  well_built urlString opts src -> well_built urlString opts (es_set_readyState rs src).
Proof. intros Hrs (N & U & C & R). by split. Qed.

Lemma current_open_alter (es : nat) (f : EventSource -> EventSource) (st st' : Hook) :
  (forall src, es_readyState (f src) = es_readyState src) ->
  eventSourceRef st' = eventSourceRef st ->
  sources st' = alter f es (sources st) ->
  current_open st -> current_open st'.
Proof.
  intros Hf E1 E2 (es0 & src & H1 & H2 & H3). unfold current_open.
  rewrite E1, E2. destruct (decide (es = es0)) as [-> | Hne].
  - exists es0, (f src). rewrite list_lookup_alter_eq, H2. by rewrite Hf.
  - exists es0, src. by rewrite list_lookup_alter_ne.
Qed.

(** *** The functions of the hook keep its states well formed *)

Lemma attachNamedIfNeeded_wf (name : string) (st : Hook) :
  hook_inv st -> hook_wf urlString opts st ->
  hook_wf urlString opts (attachNamedIfNeeded name st).
Proof.
  intros Hinv Hwf. unfold attachNamedIfNeeded.
  destruct (Utils.isReservedEvent name); [done |].
  destruct (eventSourceRef st) as [es |] eqn:Hes; [| done].
  destruct (decide (is_Some (dispatchersRef st !! name))) as [Hd | Hd]; [done |].
  apply eq_None_not_Some in Hd.
  pose proof Hinv as [H1 H2 H3 H4 H5]. rewrite Hes in H3.
  destruct H3 as (src & Hsrc & Hiff).
  destruct Hwf as [W1 W2 W3 W4 W5 W6 W7 W8]. split; hook_simpl; try done.
  - apply Forall_alter; [done |]. intros x Hx Hwb.
    apply well_built_addEventListener; [| done].
    intros d' Hin. rewrite Hsrc in Hx. injection Hx as <-.
    apply Hiff in Hin. congruence.
  - intros Hc. destruct (W6 Hc) as [Hrs Hopen]. split; [done |].
    eapply (current_open_alter es (addEventListener name (next_dispatch st)));
      [apply readyState_addEventListener | | | exact Hopen]; done.
Qed.

Lemma attach_each_wf (names : list string) (st : Hook) :
  hook_inv st -> hook_wf urlString opts st ->
  (forall n, n ∈ names -> is_Some (listenersRef st !! n)) ->
  hook_wf urlString opts
    (foldl (fun st name =>
              if Utils.isReservedEvent name then st
              else attachNamedIfNeeded name st) st names).
Proof.
  revert st. induction names as [| name names IH]; intros st Hinv Hwf Hnames; [done |].
  cbn [foldl].
  assert (Hname : is_Some (listenersRef st !! name)) by apply Hnames, list_elem_of_here.
  destruct (attachNamedIfNeeded_fields behaviour name st) as (_ & A2 & _).
  apply IH.
  - destruct (Utils.isReservedEvent name); [done |]. by apply attachNamedIfNeeded_inv.
  - destruct (Utils.isReservedEvent name); [done |]. by apply attachNamedIfNeeded_wf.
  - intros n Hn. destruct (Utils.isReservedEvent name); [| rewrite A2];
      by apply Hnames, list_elem_of_further.
Qed.

Lemma attachAllNamed_wf (st : Hook) :
  hook_inv st -> hook_wf urlString opts st -> hook_wf urlString opts (attachAllNamed st).
Proof.
  intros Hinv Hwf. apply attach_each_wf; [done | done |].
  intros n Hn. apply list_elem_of_fmap in Hn as ([n' set] & -> & Hin).
  apply elem_of_map_to_list in Hin. by eexists.
Qed.

Lemma NoDup_set_add (fn : Handler) (set : list Handler) :
  NoDup set -> NoDup (set_add fn set).
Proof.
  intros Hset. unfold set_add. case_decide as E; [done |].
  apply NoDup_app. split; [done |]. split; [| apply NoDup_singleton].
  intros g Hg Hin. apply list_elem_of_singleton in Hin. by subst.
Qed.

Lemma listeners_added_inv (name : string) (fn : Handler) (st : Hook) :
  hook_inv st ->
  hook_inv (set_listenersRef
              (<[name := set_add fn (default [] (listenersRef st !! name))]>
                 (listenersRef st)) st).
Proof.
  intros [H1 H2 H3 H4 H5]. split; hook_simpl; try done.
  - intros n set. destruct (decide (name = n)) as [<- | Hne].
    + rewrite lookup_insert_eq. intros [= <-]. apply set_add_nonempty.
    + rewrite lookup_insert_ne by done. apply H1.
  - intros n d Hd. destruct (H2 n d Hd) as [Hr Hl]. split; [done |].
    destruct (decide (name = n)) as [<- | Hne].
    + by rewrite lookup_insert_eq.
    + by rewrite lookup_insert_ne.
Qed.

Lemma addListener_wf (name : string) (fn : Handler) (st : Hook) :
  hook_inv st -> hook_wf urlString opts st ->
  hook_wf urlString opts (addListener name fn st).
Proof.
  intros Hinv Hwf. unfold addListener.
  apply attachNamedIfNeeded_wf; [by apply listeners_added_inv |].
  destruct Hwf as [W1 W2 W3 W4 W5 W6 W7 W8]. split; hook_simpl; try done.
  intros n set. destruct (decide (name = n)) as [<- | Hne].
  - rewrite lookup_insert_eq. intros [= <-]. apply NoDup_set_add.
    destruct (listenersRef st !! name) as [set0 |] eqn:E; [by eapply W1 | constructor].
  - rewrite lookup_insert_ne by done. apply W1.
Qed.

Lemma unsubscribe_wf (name : string) (fn : Handler) (st : Hook) :
  hook_wf urlString opts st -> hook_wf urlString opts (unsubscribe name fn st).
Proof.
  intros Hwf. pose proof Hwf as [W1 W2 W3 W4 W5 W6 W7 W8]. unfold unsubscribe.
  destruct (listenersRef st !! name) as [current |] eqn:Hcur; [| done].
  assert (Hsets : forall n set,
            <[name := set_delete fn current]> (listenersRef st) !! n = Some set ->
            NoDup set).
  { intros n set. destruct (decide (name = n)) as [<- | Hne].
    - rewrite lookup_insert_eq. intros [= <-]. apply NoDup_filter. by eapply W1.
    - rewrite lookup_insert_ne by done. apply W1. }
  destruct (Nat.ltb 0 (length (set_delete fn current))).
  { split; hook_simpl; done. }
  hook_simpl.
  assert (Hsets' : forall n set,
            delete name (<[name := set_delete fn current]> (listenersRef st)) !! n
            = Some set -> NoDup set).
  { intros n set Hn. apply lookup_delete_Some in Hn as [_ Hn]. by eapply Hsets. }
  destruct (dispatchersRef st !! name) as [disp |]; [| split; hook_simpl; done].
  destruct (eventSourceRef st) as [es |] eqn:Hes; [| split; hook_simpl; done].
  destruct (Utils.isReservedEvent name); [split; hook_simpl; done |].
  split; hook_simpl; try done.
  - apply Forall_alter; [done |]. intros x _. apply well_built_removeEventListener.
  - intros Hc. destruct (W6 Hc) as [Hrs Hopen]. split; [done |].
    eapply (current_open_alter es (removeEventListener name disp));
      [| | | exact Hopen]; done.
Qed.

Lemma remove_each_more (es : nat) (L : list (string * nat)) (st : Hook) :
  state (foldl (fun st '(name, d) =>
                  update_source es (removeEventListener name d) st) st L) = state st /\
  retryRef (foldl (fun st '(name, d) =>
                     update_source es (removeEventListener name d) st) st L)
  = retryRef st /\
  (Forall (well_built urlString opts) (sources st) ->
   Forall (well_built urlString opts)
     (sources (foldl (fun st '(name, d) =>
                        update_source es (removeEventListener name d) st) st L))).
Proof.
  revert st. induction L as [| [n d] L IH]; intros st; [done |]. cbn [foldl].
  destruct (IH (update_source es (removeEventListener n d) st)) as (I1 & I2 & I3).
  split; [by rewrite I1 |]. split; [by rewrite I2 |].
  intros Hwb. apply I3. hook_simpl. apply Forall_alter; [done |].
  intros x _. apply well_built_removeEventListener.
Qed.

Lemma cleanup_effects (st : Hook) :
  state (cleanup st) = state st /\
  retryRef (cleanup st) = retryRef st /\
  (Forall (well_built urlString opts) (sources st) ->
   Forall (well_built urlString opts) (sources (cleanup st))).
Proof.
  unfold cleanup.
  set (st1 := match timerRef st with
              | Some t => set_timerRef None (clearTimeout t st)
              | None => st
              end).
  assert (S1 : state st1 = state st /\ retryRef st1 = retryRef st /\
               sources st1 = sources st).
  { subst st1. by destruct (timerRef st). }
  destruct S1 as (T1 & T2 & T3). clearbody st1.
  destruct (eventSourceRef st1) as [es |] eqn:Hes.
  - destruct (remove_each behaviour es (map_to_list (dispatchersRef st1)) st1)
      as ((C1 & _) & _).
    destruct (remove_each_more es (map_to_list (dispatchersRef st1)) st1)
      as (M1 & M2 & M3).
    set (st2 := foldl _ st1 _) in *. clearbody st2. hook_simpl. rewrite C1, Hes.
    hook_simpl. split_and!; try congruence.
    intros Hwb. apply Forall_alter; [apply M3; by rewrite T3 |].
    intros x _. apply well_built_readyState. by right; right.
  - hook_simpl. rewrite Hes. hook_simpl. split_and!; try congruence.
Qed.

Lemma connect_wf (st : Hook) :
  hook_inv st -> hook_wf urlString opts st ->
  hook_wf urlString opts (connect urlString opts st).
Proof.
  intros Hinv Hwf. unfold connect. case_decide as Hopen.
  { eapply same_shape_wf; [| exact Hwf]. by repeat split. }
  assert (Hinv' : hook_inv (set_destroyedRef false st)).
  { eapply same_core_inv; [| exact Hinv]. by repeat split. }
  destruct (cleanup_quiescent behaviour _ Hinv')
    as ((Q1 & Q2 & Q3 & Q4) & Ht & HL & Hlen & _ & _).
  destruct (cleanup_effects (set_destroyedRef false st)) as (E1 & E2 & E3).
  set (st1 := cleanup (set_destroyedRef false st)) in *. clearbody st1.
  destruct Hwf as [W1 W2 W3 W4 W5 W6 W7 W8]. hook_simpl.
  split; hook_simpl; rewrite ?HL, ?Q1, ?E1, ?E2; try done.
  - apply Forall_app. split; [by apply E3 |]. constructor; [| done].
    split; [constructor |]. split_and!; try done. by left.
  - cbn. lia.
  - intros t d Hin. by apply not_elem_of_nil in Hin.
  - intros Hc. destruct (W6 Hc) as [_ (es & src & H1 & H2 & H3)].
    exfalso. apply Hopen. rewrite H1. cbn. rewrite H2. cbn. by rewrite H3.
Qed.

Lemma scheduleReconnect_wf (st : Hook) :
  hook_wf urlString opts st -> timers st = [] ->
  hook_wf urlString opts (scheduleReconnect opts st).
Proof.
  intros Hwf Ht. unfold scheduleReconnect.
  destruct (negb (reconnectEnabled opts) || destroyedRef st)%bool; [done |].
  destruct (Z.leb (maxRetries opts) (Z.of_nat (retryRef st))) eqn:E; [done |].
  apply Z.leb_gt in E. destruct Hwf as [W1 W2 W3 W4 W5 W6 W7 W8].
  split; hook_simpl; try done.
  - rewrite Ht. cbn. lia.
  - lia.
  - intros t d. rewrite Ht. cbn. intros Hin%list_elem_of_singleton.
    injection Hin as -> ->. split; [lia |]. by rewrite Nat.sub_0_r.
Qed.

Lemma disconnect_wf (st : Hook) :
  hook_inv st -> hook_wf urlString opts st -> hook_wf urlString opts (disconnect st).
Proof.
  intros Hinv Hwf. unfold disconnect.
  assert (Hinv' : hook_inv (set_destroyedRef true st)).
  { eapply same_core_inv; [| exact Hinv]. by repeat split. }
  destruct (cleanup_quiescent behaviour _ Hinv')
    as ((Q1 & Q2 & Q3 & Q4) & Ht & HL & Hlen & _ & _).
  destruct (cleanup_effects (set_destroyedRef true st)) as (E1 & E2 & E3).
  set (st1 := cleanup (set_destroyedRef true st)) in *. clearbody st1.
  destruct Hwf as [W1 W2 W3 W4 W5 W6 W7 W8]. hook_simpl.
  split; hook_simpl; rewrite ?HL, ?Q1, ?E1, ?E2; try done.
  - by apply E3.
  - cbn. lia.
  - intros t d Hin. by apply not_elem_of_nil in Hin.
  - by right; right.
Qed.

Lemma onopen_wf (st : Hook) :
  hook_inv st -> hook_wf urlString opts st -> timers st = [] -> current_open st ->
  hook_wf urlString opts (onopen behaviour st).
Proof.
  intros Hinv Hwf Ht Hopen. unfold onopen.
  set (st1 := set_state _ (set_retryRef 0 st)).
  assert (Hinv1 : hook_inv st1).
  { eapply same_core_inv; [| exact Hinv]. by repeat split. }
  assert (Hwf1 : hook_wf urlString opts st1).
  { destruct Hwf as [W1 W2 W3 W4 W5 W6 W7 W8]. subst st1.
    split; hook_simpl; try done.
    - lia.
    - intros t d. rewrite Ht. by intros ?%not_elem_of_nil.
    - by right; left. }
  clearbody st1. apply attachAllNamed_wf.
  - eapply same_core_inv; [apply emit_same_core | done].
  - eapply same_shape_wf; [apply emit_same_shape | done].
Qed.

Lemma onerror_wf (st : Hook) (es : nat) (e : DomEvent) :
  hook_wf urlString opts st ->
  (default CLOSED (es_readyState <$> sources st !! es) = CLOSED -> timers st = []) ->
  hook_wf urlString opts (onerror opts behaviour es e st).
Proof.
  intros Hwf Hpre. unfold onerror. cbn [sources push_log set_log].
  set (rs := default CLOSED (es_readyState <$> sources st !! es)) in *.
  set (st1 := set_state _ (push_log _ st)).
  assert (Hwf1 : hook_wf urlString opts st1).
  { destruct Hwf as [W1 W2 W3 W4 W5 W6 W7 W8]. subst st1.
    split; hook_simpl; try done.
    subst rs. destruct (sources st !! es) as [src |] eqn:Hs; cbn; [| by right; right].
    rewrite Forall_lookup in W2. by destruct (W2 es src Hs) as (_ & _ & _ & R). }
  assert (Ht1 : timers st1 = timers st) by done.
  clearbody st1.
  set (st2 := emit behaviour "error" [ArgEvent e] st1).
  assert (Hshape : same_shape st1 st2) by apply emit_same_shape.
  pose proof (same_shape_wf _ _ Hshape Hwf1) as Hwf2.
  destruct Hshape as ((_ & _ & _ & _ & _ & C6) & _). clearbody st2.
  destruct (Z.eqb rs CLOSED) eqn:E; [| done]. apply Z.eqb_eq in E.
  apply scheduleReconnect_wf; [done |]. rewrite C6, Ht1. by apply Hpre.
Qed.

Lemma fire_event_wf (st : Hook) (es : nat) (src : EventSource) (ev : MessageEvent) :
  hook_inv st -> hook_wf urlString opts st ->
  sources st !! es = Some src -> es_readyState src = OPEN ->
  hook_wf urlString opts (fire_event opts behaviour es ev st).
Proof.
  intros Hinv Hwf Hs Hopen. unfold fire_event.
  eapply same_shape_wf; [apply dispatch_each_same_shape |].
  destruct (String.eqb (me_type ev) "message").
  { eapply same_shape_wf; [apply onmessage_same_shape | done]. }
  destruct (live_source_current st es src Hinv Hs) as [Hes Ht]; [by rewrite Hopen |].
  destruct (String.eqb (me_type ev) "open").
  { apply onopen_wf; try done. by exists es, src. }
  destruct (String.eqb (me_type ev) "error"); [| done].
  apply onerror_wf; [done |]. rewrite Hs. cbn. by rewrite Hopen.
Qed.

Lemma onerror_forgets_connected (es : nat) (e : DomEvent) (st : Hook) :
  onerror opts behaviour es e st
  = onerror opts behaviour es e
      (set_state {| st_url := st_url (state st); connected := false;
                    readyState := readyState (state st);
                    lastEventId := lastEventId (state st);
                    lastEventName := lastEventName (state st);
                    lastData := lastData (state st); error := error (state st) |} st).
Proof. reflexivity. Qed.

Lemma step_wf (a : Action) (st st' : Hook) :
  hook_inv st -> hook_wf urlString opts st ->
  step urlString opts behaviour a st = Some st' -> hook_wf urlString opts st'.
Proof.
  intros Hinv Hwf Hstep.
  destruct a as [| | n fn | n fn | es | es fatal tag | es ev | t]; cbn [step] in Hstep.
  - injection Hstep as <-. by apply connect_wf.
  - injection Hstep as <-. by apply disconnect_wf.
  - injection Hstep as <-. by apply addListener_wf.
  - injection Hstep as <-. by apply unsubscribe_wf.
  - destruct (sources st !! es) as [src |] eqn:Hs; [| done].
    destruct (Z.eqb (es_readyState src) CONNECTING) eqn:E; [| done].
    injection Hstep as <-. apply Z.eqb_eq in E.
    destruct (live_source_current st es src Hinv Hs) as [Hes Ht]; [by rewrite E |].
    assert (Hopen : current_open (update_source es (es_set_readyState OPEN) st)).
    { exists es, (es_set_readyState OPEN src). hook_simpl.
      by rewrite list_lookup_alter_eq, Hs. }
    apply onopen_wf; [by apply update_readyState_inv | | done | done].
    destruct Hwf as [W1 W2 W3 W4 W5 W6 W7 W8]. split; hook_simpl; try done.
    + apply Forall_alter; [done |]. intros x _. apply well_built_readyState.
      by right; left.
    + intros Hc. by destruct (W6 Hc).
  - destruct (sources st !! es) as [src |] eqn:Hs; [| done].
    destruct (Z.eqb (es_readyState src) CLOSED) eqn:E; [done |].
    injection Hstep as <-. apply Z.eqb_neq in E.
    destruct (live_source_current st es src Hinv Hs E) as [Hes Ht].
    rewrite onerror_forgets_connected. apply onerror_wf; [| done].
    destruct Hwf as [W1 W2 W3 W4 W5 W6 W7 W8]. split; hook_simpl; try done.
    apply Forall_alter; [done |]. intros x _. apply well_built_readyState.
    destruct fatal; [by right; right | by left].
  - destruct (sources st !! es) as [src |] eqn:Hs; [| done].
    destruct (Z.eqb (es_readyState src) OPEN) eqn:E; [| done].
    injection Hstep as <-. apply Z.eqb_eq in E. by eapply fire_event_wf.
  - case_decide as Hin; [| done]. injection Hstep as <-.
    pose proof (pending_timers_cleared st Hinv) as Hclr.
    pose proof Hinv as [H1 H2 H3 H4 H5]. destruct (H5 t Hin) as [Ht _].
    rewrite Ht in Hclr. apply connect_wf.
    + split; hook_simpl; try done.
      intros t'. rewrite Hclr. cbn. by intros ?%not_elem_of_nil.
    + destruct Hwf as [W1 W2 W3 W4 W5 W6 W7 W8]. split; hook_simpl; try done.
      * rewrite Hclr. cbn. lia.
      * intros t' d. rewrite Hclr. by intros ?%not_elem_of_nil.
Qed.

Lemma init_wf : hook_wf urlString opts (init urlString opts).
Proof.
  split; cbn; try done.
  - lia.
  - lia.
  - intros t d Hin. by apply not_elem_of_nil in Hin.
  - by left.
Qed.

Lemma run_wf (acts : list Action) (st st' : Hook) :
  hook_inv st -> hook_wf urlString opts st ->
  run urlString opts behaviour acts st = Some st' -> hook_wf urlString opts st'.
Proof.
  revert st. induction acts as [| a acts IH]; intros st Hinv Hwf Hrun.
  - cbn in Hrun. by injection Hrun as <-.
  - cbn [run] in Hrun.
    destruct (step urlString opts behaviour a st) as [st1 |] eqn:Hstep; [| done].
    apply (IH st1); [by eapply step_inv | by eapply step_wf | done].
Qed.

Lemma reachable_hook_wf (st : Hook) :
  reachable urlString opts behaviour st -> hook_wf urlString opts st.
Proof.
  intros [acts Hrun]. eapply run_wf; [apply init_inv | apply init_wf | exact Hrun].
Qed.

(** *** What every state of a hook satisfies *)

(** X11: a hook never holds two connections: in every state that it can
    reach, an [EventSource] that is not closed is the current one, every
    other [EventSource] it has created is closed and has no listener left,
    and every [EventSource] was created for the url and the credentials
    mode of the hook and carries at most one dispatcher per event name. *)
Theorem hook_holds_one_connection (st : Hook) :
  reachable urlString opts behaviour st ->
  (forall es src, sources st !! es = Some src -> es_readyState src ≠ CLOSED ->
                  eventSourceRef st = Some es) /\
  (forall es1 es2 src1 src2,
      sources st !! es1 = Some src1 -> sources st !! es2 = Some src2 ->
      es_readyState src1 ≠ CLOSED -> es_readyState src2 ≠ CLOSED -> es1 = es2) /\
  (forall es src, sources st !! es = Some src -> eventSourceRef st ≠ Some es ->
                  es_readyState src = CLOSED /\ es_listeners src = []) /\
  (forall es src, sources st !! es = Some src ->
                  es_url src = urlString /\
                  es_withCredentials src = withCredentials opts /\
                  NoDup (es_listeners src).*1).
Proof.
  intros Hreach. pose proof (reachable_hook_inv _ _ _ _ Hreach) as Hinv.
  pose proof (reachable_hook_wf _ Hreach) as Hwf.
  split; [| split; [| split]].
  - intros es src Hs Hlive. by destruct (live_source_current st es src Hinv Hs Hlive).
  - intros es1 es2 src1 src2 Hs1 Hs2 Hl1 Hl2.
    destruct (live_source_current st es1 src1 Hinv Hs1 Hl1) as [H1 _].
    destruct (live_source_current st es2 src2 Hinv Hs2 Hl2) as [H2 _]. congruence.
  - intros es src. apply (inv_others st Hinv).
  - intros es src Hs. pose proof (wf_sources _ _ _ Hwf) as Hall.
    rewrite Forall_lookup in Hall. by destruct (Hall es src Hs) as (? & ? & ? & _).
Qed.


(** X13: the attempt counter never exceeds [maxRetries] (it stays at 0
    when [maxRetries] is negative). *)
Theorem retry_counter_is_bounded (st : Hook) :
  reachable urlString opts behaviour st ->
  Z.of_nat (retryRef st) <= Z.max 0 (maxRetries opts).
Proof. intros Hreach. apply (wf_retry _ _ _ (reachable_hook_wf _ Hreach)). Qed.

(** X14: the published snapshot does not claim a connection that is not
    there: whenever [connected] is true, [readyState] is 1 and the current
    [EventSource] is open; [readyState] is always 0, 1 or 2 and [url] is
    always the url of the hook. *)
Theorem snapshot_connected_means_open (st : Hook) :
  reachable urlString opts behaviour st ->
  (connected (state st) = true ->
   readyState (state st) = 1 /\
   exists es src, eventSourceRef st = Some es /\ sources st !! es = Some src /\
                  es_readyState src = OPEN) /\
  (readyState (state st) = 0 \/ readyState (state st) = 1 \/ readyState (state st) = 2) /\
  st_url (state st) = urlString.
Proof.
  intros Hreach. pose proof (reachable_hook_wf _ Hreach) as Hwf.
  split; [apply (wf_connected _ _ _ Hwf) |].
  split; [apply (wf_readyState _ _ _ Hwf) | apply (wf_url _ _ _ Hwf)].
Qed.

(** *** Delivery of an event *)

Lemma dispatch_each_once (ev : MessageEvent) (ls : list (string * nat)) (st : Hook) :
  NoDup ls.*1 ->
  foldl (fun st '(name, _) =>
           if String.eqb name (me_type ev) then dispatch opts behaviour name ev st
           else st) st ls
  = if decide (me_type ev ∈ ls.*1) then dispatch opts behaviour (me_type ev) ev st
    else st.
Proof.
  revert st. induction ls as [| [n d] ls IH]; intros st Hnd; [done |].
  cbn [fmap list_fmap fst] in Hnd. apply NoDup_cons in Hnd as [Hn Hnd].
  cbn [foldl]. rewrite IH by done. cbn [fmap list_fmap fst].
  destruct (String.eqb_spec n (me_type ev)) as [-> | Hne].
  - rewrite decide_False by done. rewrite decide_True; [done | apply list_elem_of_here].
  - case_decide as Hin.
    + rewrite decide_True; [done | by apply list_elem_of_further].
    + rewrite decide_False; [done |].
      intros [Heq | H]%elem_of_cons; [by apply Hne | by apply Hin].
Qed.

Lemma fire_event_cases (st : Hook) (es : nat) (src : EventSource) (ev : MessageEvent) :
  hook_inv st -> hook_wf urlString opts st ->
  sources st !! es = Some src -> es_readyState src = OPEN ->
  eventSourceRef st = Some es /\
  (forall n, n ∈ attached st <-> n ∈ (es_listeners src).*1) /\
  (forall n, n ∈ attached st <-> is_Some (dispatchersRef st !! n)) /\
  forall st0,
    foldl (fun st '(name, _) =>
             if String.eqb name (me_type ev) then dispatch opts behaviour name ev st
             else st) st0 (es_listeners src)
    = if decide (me_type ev ∈ attached st)
      then dispatch opts behaviour (me_type ev) ev st0 else st0.
Proof.
  intros Hinv Hwf Hs Hopen.
  destruct (live_source_current st es src Hinv Hs) as [Hes _]; [by rewrite Hopen |].
  assert (Hatt : forall n, n ∈ attached st <-> n ∈ (es_listeners src).*1).
  { intros n. unfold attached. rewrite Hes, Hs. cbn. apply elem_of_list_to_set. }
  split; [done |]. split; [done |]. split.
  - intros n. rewrite (attached_dom st Hinv). apply elem_of_dom.
  - intros st0. pose proof (wf_sources _ _ _ Hwf) as Hall.
    rewrite Forall_lookup in Hall. destruct (Hall es src Hs) as (Hnd & _).
    rewrite dispatch_each_once by done.
    destruct (decide (me_type ev ∈ (es_listeners src).*1)) as [Hin | Hin].
    + rewrite decide_True; [done | by apply Hatt].
    + rewrite decide_False; [done |]. intros H. by apply Hin, Hatt.
Qed.

(** X15: an event of a name that is not reserved, arriving on the open
    connection of a hook, is dispatched once: when a dispatcher is attached
    for the name, every handler registered for it is called exactly once,
    in registration order, with the decoded payload and the event, and the
    snapshot takes the name, the decoded payload and the id of the event;
    when none is attached the event changes nothing. *)
Theorem named_event_is_delivered_once (st st' : Hook) (es : nat) (ev : MessageEvent) :
  reachable urlString opts behaviour st ->
  Utils.isReservedEvent (me_type ev) = false ->
  step urlString opts behaviour (SourceEvent es ev) st = Some st' ->
  NoDup (default [] (listenersRef st !! me_type ev)) /\
  (me_type ev ∈ attached st ->
   default [] (listenersRef st !! me_type ev) ≠ [] /\
   st' = set_log (log st ++ flat_map (handler_effects behaviour (me_type ev)
                                        (handler_args opts ev))
                                     (default [] (listenersRef st !! me_type ev)))
           (set_state (received opts (me_type ev) ev (state st)) st) /\
   calls (log st')
   = calls (log st) ++
     ((fun fn => (fn, handler_args opts ev)) <$> default [] (listenersRef st !! me_type ev))) /\
  (me_type ev ∉ attached st -> st' = st).
Proof.
  intros Hreach Hres Hstep. pose proof (reachable_hook_inv _ _ _ _ Hreach) as Hinv.
  pose proof (reachable_hook_wf _ Hreach) as Hwf. cbn [step] in Hstep.
  destruct (sources st !! es) as [src |] eqn:Hs; [| done].
  destruct (Z.eqb (es_readyState src) OPEN) eqn:E; [| done].
  injection Hstep as <-. apply Z.eqb_eq in E.
  destruct (fire_event_cases st es src ev Hinv Hwf Hs E) as (Hes & Hatt & Hdisp & Hfold).
  unfold fire_event. rewrite Hs. cbn [fmap option_fmap option_map default from_option].
  unfold Utils.isReservedEvent in Hres.
  apply orb_false_iff in Hres as [Hres Hmsg]. apply orb_false_iff in Hres as [Hop Herr].
  rewrite Hmsg, Hop, Herr, Hfold.
  split.
  { destruct (listenersRef st !! me_type ev) as [set |] eqn:Hset; [| constructor].
    by apply (wf_sets _ _ _ Hwf (me_type ev)). }
  split.
  - intros Hin. rewrite decide_True by done.
    apply Hdisp in Hin as [d Hd].
    destruct (inv_named st Hinv _ _ Hd) as [_ [set Hset]].
    pose proof (inv_sets st Hinv _ _ Hset) as Hne. rewrite Hset. cbn [default from_option].
    split; [done |]. rewrite (dispatch_received _ _ _ set Hset Hne). split; [done |].
    hook_simpl. by rewrite calls_app, calls_handler_effects.
  - intros Hin. by rewrite decide_False.
Qed.

(** X16: an event without a name (type ["message"]) reaches the handlers
    of ["message"] through [onmessage] and nothing else: they are called
    exactly once each, in registration order, and the snapshot takes the
    name ["message"], the decoded payload and the id of the event. *)
Theorem message_event_is_delivered_once (st st' : Hook) (es : nat) (ev : MessageEvent) :
  reachable urlString opts behaviour st ->
  me_type ev = "message" ->
  step urlString opts behaviour (SourceEvent es ev) st = Some st' ->
  NoDup (default [] (listenersRef st !! "message")) /\
  st' = set_log (log st ++ flat_map (handler_effects behaviour "message"
                                       (handler_args opts ev))
                                    (default [] (listenersRef st !! "message")))
          (set_state (received opts "message" ev (state st)) st) /\
  calls (log st')
  = calls (log st) ++
    ((fun fn => (fn, handler_args opts ev)) <$> default [] (listenersRef st !! "message")).
Proof.
  intros Hreach Hty Hstep. pose proof (reachable_hook_inv _ _ _ _ Hreach) as Hinv.
  pose proof (reachable_hook_wf _ Hreach) as Hwf. cbn [step] in Hstep.
  destruct (sources st !! es) as [src |] eqn:Hs; [| done].
  destruct (Z.eqb (es_readyState src) OPEN) eqn:E; [| done].
  injection Hstep as <-. apply Z.eqb_eq in E.
  destruct (fire_event_cases st es src ev Hinv Hwf Hs E) as (Hes & Hatt & Hdisp & Hfold).
  unfold fire_event. rewrite Hs. cbn [fmap option_fmap option_map default from_option].
  rewrite Hfold, Hty. cbn [String.eqb Ascii.eqb Bool.eqb].
  rewrite decide_False.
  2: { intros Hin. apply Hdisp in Hin as [d Hd].
       by destruct (inv_named st Hinv _ _ Hd) as [Hres _]. }
  split.
  { destruct (listenersRef st !! "message") as [set |] eqn:Hset; [| constructor].
    by apply (wf_sets _ _ _ Hwf "message"). }
  unfold onmessage. rewrite emit_log. hook_simpl. split; [done |].
  by rewrite calls_app, calls_handler_effects.
Qed.

(** *** What the operations leave alone *)

Lemma attachNamedIfNeeded_state (name : string) (st : Hook) :
  state (attachNamedIfNeeded name st) = state st.
Proof.
  unfold attachNamedIfNeeded. destruct (Utils.isReservedEvent name); [done |].
  destruct (eventSourceRef st); [| done]. by case_decide.
Qed.

Lemma attachAllNamed_state (st : Hook) : state (attachAllNamed st) = state st.
Proof.
  unfold attachAllNamed. generalize (map_to_list (listenersRef st)).*1 as names.
  intros names. revert st. induction names as [| n names IH]; intros st; [done |].
  cbn [foldl]. rewrite IH. destruct (Utils.isReservedEvent n); [done |].
  apply attachNamedIfNeeded_state.
Qed.

Lemma unsubscribe_state (name : string) (fn : Handler) (st : Hook) :
  state (unsubscribe name fn st) = state st.
Proof.
  unfold unsubscribe. destruct (listenersRef st !! name) as [current |]; [| done].
  destruct (Nat.ltb 0 (length (set_delete fn current))); [done |]. hook_simpl.
  destruct (dispatchersRef st !! name); [| done].
  destruct (eventSourceRef st); [| done]. by destruct (Utils.isReservedEvent name).
Qed.

Lemma connect_state (st : Hook) : state (connect urlString opts st) = state st.
Proof.
  unfold connect. case_decide; [done |]. hook_simpl.
  by destruct (cleanup_effects (set_destroyedRef false st)) as (-> & _).
Qed.

Lemma scheduleReconnect_state (st : Hook) : state (scheduleReconnect opts st) = state st.
Proof.
  unfold scheduleReconnect.
  destruct (negb (reconnectEnabled opts) || destroyedRef st)%bool; [done |].
  by destruct (Z.leb (maxRetries opts) (Z.of_nat (retryRef st))).
Qed.

Lemma onopen_lastEventId (st : Hook) :
  lastEventId (state (onopen behaviour st)) = lastEventId (state st).
Proof. unfold onopen. by rewrite attachAllNamed_state, emit_log. Qed.

Lemma onerror_lastEventId (es : nat) (e : DomEvent) (st : Hook) :
  lastEventId (state (onerror opts behaviour es e st)) = lastEventId (state st).
Proof.
  unfold onerror. destruct (Z.eqb _ CLOSED);
    rewrite ?scheduleReconnect_state, emit_log; done.
Qed.

Lemma dispatch_lastEventId (name : string) (ev : MessageEvent) (st : Hook) :
  lastEventId (state (dispatch opts behaviour name ev st)) = lastEventId (state st) \/
  (Js.truthy_str (me_lastEventId ev) = true /\
   lastEventId (state (dispatch opts behaviour name ev st)) = Some (me_lastEventId ev)).
Proof.
  unfold dispatch. destruct (listenersRef st !! name) as [set |]; [| by left].
  destruct (Nat.eqb (length set) 0); [by left |]. rewrite emit_log. hook_simpl.
  destruct (Js.truthy_str (me_lastEventId ev)); [by right | by left].
Qed.

Lemma fire_event_lastEventId (es : nat) (ev : MessageEvent) (st : Hook) :
  lastEventId (state (fire_event opts behaviour es ev st)) = lastEventId (state st) \/
  (Js.truthy_str (me_lastEventId ev) = true /\
   lastEventId (state (fire_event opts behaviour es ev st)) = Some (me_lastEventId ev)).
Proof.
  unfold fire_event. generalize (default [] (es_listeners <$> sources st !! es)) as ls.
  set (st1 := if String.eqb (me_type ev) "message" then _ else _).
  assert (H1 : lastEventId (state st1) = lastEventId (state st) \/
               (Js.truthy_str (me_lastEventId ev) = true /\
                lastEventId (state st1) = Some (me_lastEventId ev))).
  { subst st1. destruct (String.eqb (me_type ev) "message").
    { unfold onmessage. rewrite emit_log. hook_simpl.
      destruct (Js.truthy_str (me_lastEventId ev)); [by right | by left]. }
    destruct (String.eqb (me_type ev) "open"); [left; apply onopen_lastEventId |].
    destruct (String.eqb (me_type ev) "error"); [left; apply onerror_lastEventId |].
    by left. }
  clearbody st1. intros ls. revert st1 H1.
  induction ls as [| [n d] ls IH]; intros st1 H1; [done |]. cbn [foldl].
  apply IH. destruct (String.eqb n (me_type ev)); [| done].
  destruct (dispatch_lastEventId n ev st1) as [-> | H]; [done | by right].
Qed.

Lemma step_lastEventId (a : Action) (st st' : Hook) :
  step urlString opts behaviour a st = Some st' ->
  lastEventId (state st') = lastEventId (state st) \/
  (exists es ev, a = SourceEvent es ev /\ Js.truthy_str (me_lastEventId ev) = true /\
                 lastEventId (state st') = Some (me_lastEventId ev)).
Proof.
  intros Hstep.
  destruct a as [| | n fn | n fn | es | es fatal tag | es ev | t]; cbn [step] in Hstep.
  - injection Hstep as <-. left. by rewrite connect_state.
  - injection Hstep as <-. left. unfold disconnect. hook_simpl.
    by destruct (cleanup_effects (set_destroyedRef true st)) as (-> & _).
  - injection Hstep as <-. left. unfold addListener.
    by rewrite attachNamedIfNeeded_state.
  - injection Hstep as <-. left. by rewrite unsubscribe_state.
  - destruct (sources st !! es) as [src |]; [| done].
    destruct (Z.eqb (es_readyState src) CONNECTING); [| done].
    injection Hstep as <-. left. by rewrite onopen_lastEventId.
  - destruct (sources st !! es) as [src |]; [| done].
    destruct (Z.eqb (es_readyState src) CLOSED); [done |].
    injection Hstep as <-. left. by rewrite onerror_lastEventId.
  - destruct (sources st !! es) as [src |]; [| done].
    destruct (Z.eqb (es_readyState src) OPEN); [| done].
    injection Hstep as <-.
    destruct (fire_event_lastEventId es ev st) as [H | H]; [by left |].
    right. by exists es, ev.
  - case_decide; [| done]. injection Hstep as <-. left. by rewrite connect_state.
Qed.

(** X17: the last event id of the snapshot is never cleared: a step
    leaves it as it is unless it is the arrival of an event that carries a
    non-empty id, which becomes the new value; so the initial hint
    survives until then, and an id once seen survives errors, reconnects
    and disconnect. *)
Theorem last_event_id_is_kept :
  (forall (a : Action) (st st' : Hook),
      step urlString opts behaviour a st = Some st' ->
      lastEventId (state st') = lastEventId (state st) \/
      (exists es ev, a = SourceEvent es ev /\ Js.truthy_str (me_lastEventId ev) = true /\
                     lastEventId (state st') = Some (me_lastEventId ev))) /\
  (forall (acts : list Action) (st st' : Hook),
      run urlString opts behaviour acts st = Some st' ->
      is_Some (lastEventId (state st)) -> is_Some (lastEventId (state st'))).
Proof.
  split; [apply step_lastEventId |].
  induction acts as [| a acts IH]; intros st st' Hrun Hsome.
  - cbn in Hrun. by injection Hrun as <-.
  - cbn [run] in Hrun.
    destruct (step urlString opts behaviour a st) as [st1 |] eqn:Hstep; [| done].
    apply (IH st1 st' Hrun).
    destruct (step_lastEventId a st st1 Hstep) as [-> | (es & ev & _ & _ & ->)];
      [done | by eexists].
Qed.

Lemma step_listeners (a : Action) (st st' : Hook) :
  hook_inv st -> step urlString opts behaviour a st = Some st' ->
  subscription_call a = false -> listenersRef st' = listenersRef st.
Proof.
  intros Hinv Hstep Hsub.
  assert (Hconnect : forall st0, hook_inv st0 ->
            listenersRef (connect urlString opts st0) = listenersRef st0).
  { intros st0 Hinv0. unfold connect. case_decide; [done |]. hook_simpl.
    assert (Hinv' : hook_inv (set_destroyedRef false st0)).
    { eapply same_core_inv; [| exact Hinv0]. by repeat split. }
    by destruct (cleanup_quiescent behaviour _ Hinv') as (_ & _ & -> & _). }
  assert (Hopen : forall st0, hook_inv st0 ->
            listenersRef (onopen behaviour st0) = listenersRef st0).
  { intros st0 Hinv0. unfold onopen.
    set (st1 := emit behaviour "open" [] _).
    assert (Hcore : same_core st0 st1).
    { subst st1. eapply same_core_trans; [| apply emit_same_core]. by repeat split. }
    clearbody st1.
    destruct (attachAllNamed_inv behaviour st1 (same_core_inv _ _ Hcore Hinv0))
      as (_ & _ & -> & _).
    by destruct Hcore as (_ & _ & -> & _). }
  assert (Herror : forall st0 es e,
            listenersRef (onerror opts behaviour es e st0) = listenersRef st0).
  { intros st0 es e. unfold onerror. destruct (Z.eqb _ CLOSED).
    - unfold scheduleReconnect.
      destruct (negb (reconnectEnabled opts) || destroyedRef _)%bool;
        [by rewrite emit_log |].
      destruct (Z.leb (maxRetries opts) _); by rewrite emit_log.
    - by rewrite emit_log. }
  destruct a as [| | n fn | n fn | es | es fatal tag | es ev | t]; try done;
    cbn [step] in Hstep.
  - injection Hstep as <-. by apply Hconnect.
  - injection Hstep as <-. unfold disconnect. hook_simpl.
    assert (Hinv' : hook_inv (set_destroyedRef true st)).
    { eapply same_core_inv; [| exact Hinv]. by repeat split. }
    by destruct (cleanup_quiescent behaviour _ Hinv') as (_ & _ & -> & _).
  - destruct (sources st !! es) as [src |] eqn:Hs; [| done].
    destruct (Z.eqb (es_readyState src) CONNECTING) eqn:E; [| done].
    injection Hstep as <-. apply Z.eqb_eq in E.
    destruct (live_source_current st es src Hinv Hs) as [Hes Ht]; [by rewrite E |].
    rewrite Hopen; [done |]. by apply update_readyState_inv.
  - destruct (sources st !! es) as [src |]; [| done].
    destruct (Z.eqb (es_readyState src) CLOSED); [done |].
    injection Hstep as <-. by rewrite Herror.
  - destruct (sources st !! es) as [src |]; [| done].
    destruct (Z.eqb (es_readyState src) OPEN); [| done].
    injection Hstep as <-. unfold fire_event.
    destruct (dispatch_each_same_core opts behaviour ev
                (default [] (es_listeners <$> sources st !! es))
                (if String.eqb (me_type ev) "message" then onmessage opts behaviour ev st
                 else if String.eqb (me_type ev) "open" then onopen behaviour st
                 else if String.eqb (me_type ev) "error"
                      then onerror opts behaviour es (Message ev) st
                 else st)) as (_ & _ & -> & _).
    destruct (String.eqb (me_type ev) "message").
    { by destruct (onmessage_same_core opts behaviour ev st) as (_ & _ & -> & _). }
    destruct (String.eqb (me_type ev) "open"); [by apply Hopen |].
    destruct (String.eqb (me_type ev) "error"); [by apply Herror | done].
  - case_decide as Hin; [| done]. injection Hstep as <-.
    pose proof (pending_timers_cleared st Hinv) as Hclr.
    pose proof Hinv as [H1 H2 H3 H4 H5]. destruct (H5 t Hin) as [Ht _].
    rewrite Ht in Hclr. rewrite Hconnect; [done |].
    split; hook_simpl; try done.
    intros t'. rewrite Hclr. cbn. by intros ?%not_elem_of_nil.
Qed.

(** X18: the handlers that are registered are changed by [subscribe] and
    by the closures it returns, and by nothing else: connecting,
    disconnecting, errors, retries and events leave every set of handlers
    as it is, so that handlers outlive a connection. *)
Theorem handlers_outlive_the_connection (acts : list Action) (st st' : Hook) :
  reachable urlString opts behaviour st ->
  existsb subscription_call acts = false ->
  run urlString opts behaviour acts st = Some st' ->
  listenersRef st' = listenersRef st.
Proof.
  intros Hreach. pose proof (reachable_hook_inv _ _ _ _ Hreach) as Hinv. clear Hreach.
  revert st Hinv. induction acts as [| a acts IH]; intros st Hinv Hsub Hrun.
  - cbn in Hrun. by injection Hrun as <-.
  - cbn [existsb] in Hsub. apply orb_false_iff in Hsub as [Ha Hsub].
    cbn [run] in Hrun.
    destruct (step urlString opts behaviour a st) as [st1 |] eqn:Hstep; [| done].
    rewrite (IH st1); [by eapply step_listeners | by eapply step_inv | done | done].
Qed.

(** *** How the operations compose *)

Lemma hook_eq (st st' : Hook) :
  eventSourceRef st = eventSourceRef st' -> retryRef st = retryRef st' ->
  timerRef st = timerRef st' -> destroyedRef st = destroyedRef st' ->
  listenersRef st = listenersRef st' -> dispatchersRef st = dispatchersRef st' ->
  state st = state st' -> sources st = sources st' -> timers st = timers st' ->
  next_timer st = next_timer st' -> next_dispatch st = next_dispatch st' ->
  log st = log st' -> st = st'.
Proof. destruct st, st'. cbn. intros. by subst. Qed.

Lemma set_delete_twice (fn : Handler) (set : list Handler) :
  set_delete fn (set_delete fn set) = set_delete fn set.
Proof.
  unfold set_delete. induction set as [| g set IH]; [done |].
  rewrite filter_cons. case_decide; [| done].
  rewrite filter_cons, decide_True by done. by rewrite IH.
Qed.

Lemma set_delete_added (fn : Handler) (set : list Handler) :
  fn ∉ set -> set_delete fn (set_add fn set) = set.
Proof.
  intros Hfn. unfold set_add, set_delete. rewrite decide_False by done.
  rewrite filter_app, filter_cons, decide_False by (by intros H; apply H).
  rewrite filter_nil, app_nil_r.
  induction set as [| g set IH]; [done |].
  apply not_elem_of_cons in Hfn as [Hne Hfn].
  rewrite filter_cons, decide_True by done. by rewrite IH.
Qed.

(** X19: the closure that [subscribe] returns can be called twice: the
    second call changes nothing. *)
Theorem unsubscribe_twice (name : string) (fn : Handler) (st : Hook) :
  unsubscribe name fn (unsubscribe name fn st) = unsubscribe name fn st.
Proof.
  destruct (unsubscribe_fields name fn st) as [_ Hf].
  destruct (listenersRef st !! name) as [current |] eqn:Hcur.
  - destruct (Nat.ltb 0 (length (set_delete fn current))) eqn:Hlen.
    + unfold unsubscribe. rewrite Hcur, Hlen. hook_simpl.
      rewrite lookup_insert_eq, set_delete_twice, Hlen. hook_simpl.
      by rewrite insert_insert_eq.
    + destruct Hf as [HL _]. unfold unsubscribe at 1.
      by rewrite HL, lookup_delete_eq.
  - destruct Hf as [HL _]. unfold unsubscribe at 1. by rewrite HL, Hcur.
Qed.

Lemma add_remove_listener (name : string) (d : nat) (src : EventSource) :
  (name, d) ∉ es_listeners src ->
  removeEventListener name d (addEventListener name d src) = src.
Proof.
  intros Hnew. unfold addEventListener. rewrite decide_False by done.
  unfold removeEventListener. cbn. destruct src as [u c r ls]. cbn in *.
  unfold es_set_listeners. cbn. f_equal.
  rewrite filter_app, filter_cons, decide_False by (by intros H; apply H).
  rewrite filter_nil, app_nil_r.
  induction ls as [| l ls IH]; [done |].
  apply not_elem_of_cons in Hnew as [Hne Hnew].
  rewrite filter_cons, decide_True by done. by rewrite IH.
Qed.

(** X20: subscribing a handler and calling the closure that [subscribe]
    returned gives back the registered handlers; for a name that had no
    handler the whole hook is as before (dispatcher table, listeners of
    the [EventSource], snapshot, log), up to the counter that names
    dispatcher closures. *)
Theorem subscribe_then_unsubscribe (name : string) (fn : Handler) (st : Hook) :
  reachable urlString opts behaviour st ->
  (fn ∉ default [] (listenersRef st !! name) ->
   listenersRef (unsubscribe name fn (addListener name fn st)) = listenersRef st) /\
  (listenersRef st !! name = None ->
   unsubscribe name fn (addListener name fn st)
   = set_next_dispatch (next_dispatch (addListener name fn st)) st).
Proof.
  intros Hreach. pose proof (reachable_hook_inv _ _ _ _ Hreach) as Hinv. split.
  - intros Hfn. destruct (addListener_fields behaviour name fn st) as (_ & HL & _).
    destruct (unsubscribe_fields name fn (addListener name fn st)) as [_ Hf].
    rewrite HL, lookup_insert_eq, set_delete_added in Hf by done.
    destruct (listenersRef st !! name) as [set |] eqn:Hset; cbn [default from_option] in *.
    + pose proof (inv_sets st Hinv _ _ Hset) as Hne.
      destruct set as [| g set]; [done |]. cbn [length Nat.ltb Nat.leb] in Hf.
      destruct Hf as [-> _]. rewrite insert_insert_eq. by apply insert_id.
    + cbn [length Nat.ltb Nat.leb] in Hf. destruct Hf as [-> _].
      rewrite delete_insert_eq. by apply delete_id.
  - intros Hnone.
    assert (Hd : dispatchersRef st !! name = None).
    { destruct (dispatchersRef st !! name) as [d |] eqn:Hd; [| done].
      destruct (inv_named st Hinv _ _ Hd) as [_ [set Hset]]. congruence. }
    unfold addListener, attachNamedIfNeeded. rewrite Hnone. cbn [default from_option].
    assert (Hadd : set_add fn [] = [fn]) by done. rewrite Hadd. hook_simpl.
    assert (HL : delete name (<[name := []]>
                                (<[name := [fn]]> (listenersRef st))) = listenersRef st).
    { rewrite delete_insert_eq, delete_insert_eq. by apply delete_id. }
    assert (Hdel : set_delete fn [fn] = []).
    { unfold set_delete. by rewrite filter_cons, decide_False by (by intros H; apply H). }
    destruct (Utils.isReservedEvent name) eqn:Hres.
    { unfold unsubscribe. hook_simpl. rewrite lookup_insert_eq, Hdel.
      cbn [length Nat.ltb Nat.leb]. hook_simpl. rewrite Hd. hook_simpl.
      apply hook_eq; hook_simpl; try done. by apply delete_id. }
    destruct (eventSourceRef st) as [es |] eqn:Hes.
    2: { unfold unsubscribe. hook_simpl. rewrite lookup_insert_eq, Hdel.
         cbn [length Nat.ltb Nat.leb]. hook_simpl. rewrite Hd, ?Hes. hook_simpl.
         apply hook_eq; hook_simpl; try done. by apply delete_id. }
    rewrite decide_False by (rewrite Hd; by intros [? ?]).
    unfold unsubscribe. hook_simpl. rewrite lookup_insert_eq, Hdel.
    cbn [length Nat.ltb Nat.leb]. hook_simpl. rewrite lookup_insert_eq, Hes, Hres.
    hook_simpl. apply hook_eq; hook_simpl; try done.
    + rewrite delete_insert_eq. by apply delete_id.
    + rewrite list_alter_alter_eq. pose proof (inv_source st Hinv) as Hsrc.
      rewrite Hes in Hsrc. destruct Hsrc as (src & Hs & Hiff).
      rewrite <- (list_alter_id (fun x => x) (sources st) es) at 2 by done.
      apply list_alter_ext; [| done]. intros x Hx. cbn.
      apply add_remove_listener. rewrite Hs in Hx. injection Hx as <-.
      intros Hin%Hiff. congruence.
Qed.

Lemma cleanup_idle (st : Hook) :
  timerRef st = None -> eventSourceRef st = None -> dispatchersRef st = ∅ ->
  cleanup st = st.
Proof.
  intros H1 H2 H3. unfold cleanup. rewrite H1, H2. hook_simpl. rewrite H2.
  apply hook_eq; hook_simpl; done.
Qed.

(** X21: [disconnect] on a hook that is already disconnected changes
    nothing. *)
Theorem disconnect_twice (st : Hook) :
  reachable urlString opts behaviour st ->
  disconnect (disconnect st) = disconnect st.
Proof.
  intros Hreach. pose proof (reachable_hook_inv _ _ _ _ Hreach) as Hinv.
  assert (Hinv' : hook_inv (set_destroyedRef true st)).
  { eapply same_core_inv; [| exact Hinv]. by repeat split. }
  destruct (cleanup_quiescent behaviour _ Hinv')
    as ((Q1 & Q2 & Q3 & Q4) & Ht & HL & Hlen & Hd & _).
  unfold disconnect at 1.
  rewrite cleanup_idle; unfold disconnect; hook_simpl; try done.
  apply hook_eq; hook_simpl; done.
Qed.

(** *** Connecting, opening and failing *)



Lemma attachNamedIfNeeded_quiet (name : string) (st : Hook) :
  retryRef (attachNamedIfNeeded name st) = retryRef st /\
  log (attachNamedIfNeeded name st) = log st.
Proof.
  unfold attachNamedIfNeeded. destruct (Utils.isReservedEvent name); [done |].
  destruct (eventSourceRef st); [| done]. by case_decide.
Qed.

Lemma attachAllNamed_quiet (st : Hook) :
  retryRef (attachAllNamed st) = retryRef st /\ log (attachAllNamed st) = log st.
Proof.
  unfold attachAllNamed. generalize (map_to_list (listenersRef st)).*1 as names.
  intros names. revert st. induction names as [| n names IH]; intros st; [done |].
  cbn [foldl]. destruct (IH (if Utils.isReservedEvent n then st
                             else attachNamedIfNeeded n st)) as [-> ->].
  destruct (Utils.isReservedEvent n); [done |]. apply attachNamedIfNeeded_quiet.
Qed.

(** X23: when the connection opens, the snapshot says so ([connected],
    [readyState] 1, no error), the attempt counter is back at 0, the
    handlers of ["open"] are called once each without arguments, and what
    the snapshot holds of the last event is kept. *)
Theorem open_is_published (st st' : Hook) (es : nat) :
  reachable urlString opts behaviour st ->
  step urlString opts behaviour (SourceOpen es) st = Some st' ->
  state st' = {| st_url := urlString; connected := true; readyState := 1;
                 lastEventId := lastEventId (state st);
                 lastEventName := lastEventName (state st);
                 lastData := lastData (state st); error := None |} /\
  retryRef st' = 0%nat /\
  eventSourceRef st' = Some es /\
  log st' = log st ++ flat_map (handler_effects behaviour "open" [])
                               (default [] (listenersRef st !! "open")) /\
  calls (log st')
  = calls (log st) ++ ((fun fn => (fn, [])) <$> default [] (listenersRef st !! "open")).
Proof.
  intros Hreach Hstep. pose proof (reachable_hook_inv _ _ _ _ Hreach) as Hinv.
  pose proof (reachable_hook_wf _ Hreach) as Hwf. cbn [step] in Hstep.
  destruct (sources st !! es) as [src |] eqn:Hs; [| done].
  destruct (Z.eqb (es_readyState src) CONNECTING) eqn:E; [| done].
  injection Hstep as <-. apply Z.eqb_eq in E.
  destruct (live_source_current st es src Hinv Hs) as [Hes Ht]; [by rewrite E |].
  pose proof (update_readyState_inv st es OPEN Hinv Hes Ht) as Hinv1.
  unfold onopen.
  set (st2 := emit behaviour "open" [] _).
  assert (E2 : st2 = set_log (log st ++ flat_map (handler_effects behaviour "open" [])
                                          (default [] (listenersRef st !! "open")))
                       (set_state {| st_url := st_url (state st); connected := true;
                                     readyState := 1;
                                     lastEventId := lastEventId (state st);
                                     lastEventName := lastEventName (state st);
                                     lastData := lastData (state st); error := None |}
                          (set_retryRef 0
                             (update_source es (es_set_readyState OPEN) st)))).
  { subst st2. by rewrite emit_log. }
  assert (Hinv2 : hook_inv st2).
  { rewrite E2. eapply same_core_inv; [| exact Hinv1]. by repeat split. }
  destruct (attachAllNamed_inv behaviour st2 Hinv2) as (_ & A1 & _).
  destruct (attachAllNamed_quiet st2) as [A2 A3].
  rewrite attachAllNamed_state, A1, A2, A3, E2. hook_simpl.
  rewrite (wf_url _ _ _ Hwf). split_and!; try done.
  by rewrite calls_app, calls_handler_effects.
Qed.





End LifecycleFacts.

(** ** The query string of buildUrl, read back *)

Section QueryFacts.

Import Utils Query.

Lemma no_char_app (sep : ascii) (a b : string) :
  no_char sep (a +:+ b) = (no_char sep a && no_char sep b)%bool.
Proof.
  induction a as [| c a IH]; [done |]. rewrite append_cons. cbn [no_char].
  rewrite IH. by rewrite andb_assoc.
Qed.

Lemma encode_char_no_separator (c : ascii) :
  no_char "&" (if Js.uri_unreserved c then String c "" else Js.percent_byte c) = true /\
  no_char "=" (if Js.uri_unreserved c then String c "" else Js.percent_byte c) = true.
Proof. destruct c as [[] [] [] [] [] [] [] []]; split; reflexivity. Qed.

Lemma encodeURIComponent_no_separator (s : string) :
  no_char "&" (Js.encodeURIComponent s) = true /\
  no_char "=" (Js.encodeURIComponent s) = true.
Proof.
  induction s as [| c s [IH1 IH2]]; [done |]. cbn [Js.encodeURIComponent].
  rewrite !no_char_app, IH1, IH2.
  by destruct (encode_char_no_separator c) as [-> ->].
Qed.

Lemma decode_encode_char (c : ascii) (rest : string) :
  decodeURIComponent
    ((if Js.uri_unreserved c then String c "" else Js.percent_byte c) +:+ rest)
  = match decodeURIComponent rest with
    | Some r => Some (String c r)
    | None => None
    end.
Proof. destruct c as [[] [] [] [] [] [] [] []]; reflexivity. Qed.

Lemma decode_encode (s : string) :
  decodeURIComponent (Js.encodeURIComponent s) = Some s.
Proof.
  induction s as [| c s IH]; [done |]. cbn [Js.encodeURIComponent].
  by rewrite decode_encode_char, IH.
Qed.

Lemma split_on_part (sep : ascii) (cur part rest : string) :
  no_char sep part = true ->
  split_on sep cur (part +:+ String sep rest) = (cur +:+ part) :: split_on sep "" rest.
Proof.
  revert cur. induction part as [| c part IH]; intros cur H.
  - rewrite append_nil_l, append_empty_r. cbn [split_on]. by rewrite Ascii.eqb_refl.
  - cbn [no_char] in H. apply andb_true_iff in H as [Hc H].
    rewrite append_cons. cbn [split_on]. apply negb_true_iff in Hc. rewrite Hc.
    rewrite IH by done. by rewrite append_assoc.
Qed.

Lemma split_on_last (sep : ascii) (cur part : string) :
  no_char sep part = true -> split_on sep cur part = [cur +:+ part].
Proof.
  revert cur. induction part as [| c part IH]; intros cur H.
  - by rewrite append_empty_r.
  - cbn [no_char] in H. apply andb_true_iff in H as [Hc H].
    cbn [split_on]. apply negb_true_iff in Hc. rewrite Hc.
    rewrite IH by done. by rewrite append_assoc.
Qed.

Lemma split_first_part (sep : ascii) (a b : string) :
  no_char sep a = true -> split_first sep (a +:+ String sep b) = (a, Some b).
Proof.
  induction a as [| c a IH]; intros H.
  - rewrite append_nil_l. cbn [split_first]. by rewrite Ascii.eqb_refl.
  - cbn [no_char] in H. apply andb_true_iff in H as [Hc H].
    rewrite append_cons. cbn [split_first]. apply negb_true_iff in Hc.
    by rewrite Hc, IH.
Qed.

Lemma split_join (parts : list string) :
  parts ≠ [] -> Forall (fun p => no_char "&" p = true) parts ->
  split_on "&" "" (Js.join "&" parts) = parts.
Proof.
  intros Hne Hall. induction Hall as [| x l Hx Hl IH]; [done |].
  destruct l as [| y l].
  - cbn [Js.join]. by rewrite split_on_last.
  - change (Js.join "&" (x :: y :: l)) with (x +:+ String "&" (Js.join "&" (y :: l))).
    rewrite split_on_part by done. by rewrite append_nil_l, IH.
Qed.

Lemma parse_pair_encoded (k v : string) :
  parse_pair (Js.encodeURIComponent k +:+ "=" +:+ Js.encodeURIComponent v) = Some (k, v).
Proof.
  unfold parse_pair.
  change (Js.encodeURIComponent k +:+ "=" +:+ Js.encodeURIComponent v)
    with (Js.encodeURIComponent k +:+ String "=" (Js.encodeURIComponent v)).
  rewrite split_first_part by apply encodeURIComponent_no_separator.
  cbn [default from_option]. unfold Datatypes.id. by rewrite !decode_encode.
Qed.

Lemma parse_pairs_encoded (kept : list (string * string)) :
  parse_pairs (map (fun e => Js.encodeURIComponent e.1 +:+ "=" +:+
                             Js.encodeURIComponent e.2) kept)
  = Some kept.
Proof.
  induction kept as [| [k v] kept IH]; [done |]. cbn [map parse_pairs fst snd].
  by rewrite parse_pair_encoded, IH.
Qed.

(** X25: the query that [buildUrl] appends can be read back: splitting it
    at [&] and each part at its first [=] and percent-decoding both sides
    gives exactly the entries that were kept, keys and values unchanged and
    in order, whatever characters they hold; keys and values never
    contribute an [&] or an [=] of their own. *)
Theorem query_string_reads_back (o : UrlOptions) :
  Spec.kept_entries (default [] (query o)) ≠ [] ->
  exists qs, buildUrl (UrlObject o) = url o +:+ "?" +:+ qs /\
             parse_query qs = Some (Spec.kept_entries (default [] (query o))) /\
             forall part, part ∈ split_on "&" "" qs ->
               exists k v, (k, v) ∈ Spec.kept_entries (default [] (query o)) /\
                           part = Js.encodeURIComponent k +:+ "=" +:+
                                  Js.encodeURIComponent v.
Proof.
  intros Hne. cbn [buildUrl]. rewrite encode_kept.
  set (kept := Spec.kept_entries (default [] (query o))) in *.
  set (parts := map (fun e => Js.encodeURIComponent e.1 +:+ "=" +:+
                              Js.encodeURIComponent e.2) kept).
  assert (Hparts : parts ≠ []) by (subst parts; by destruct kept).
  assert (Hsafe : Forall (fun p => no_char "&" p = true) parts).
  { subst parts. apply Forall_fmap, Forall_forall. intros [k v] _. cbn.
    rewrite !no_char_app.
    destruct (encodeURIComponent_no_separator k) as [-> _].
    by destruct (encodeURIComponent_no_separator v) as [-> _]. }
  exists (Js.join "&" parts). split; [| split].
  - assert (Js.truthy_str (Js.join "&" parts) = true) as ->; [| done].
    destruct kept as [| [k v] kept]; [done |]. subst parts. cbn [map].
    apply truthy_join, truthy_append_r. reflexivity.
  - unfold parse_query. rewrite split_join by done. apply parse_pairs_encoded.
  - intros part. rewrite split_join by done. subst parts.
    intros ([k v] & -> & Hin)%list_elem_of_fmap. by exists k, v.
Qed.

End QueryFacts.

(** ** The further properties on concrete states *)

Lemma three_clients_reachable :
  Server.reachable Scenario.three_clients Server.new_SSEManager.
Proof.
  apply (Server.reach_construct [_; _]).
  - apply (Server.reach_construct [_]).
    + apply (Server.reach_construct []); [apply Server.reach_new |].
      apply not_elem_of_nil.
    + cbn. intros H%list_elem_of_singleton. discriminate H.
  - cbn. intros H. apply elem_of_cons in H as [H | H]; [discriminate H |].
    apply list_elem_of_singleton in H. discriminate H.
Qed.

Lemma receiver_reads_the_records_sent_witness :
  forallb Wire.keeps_open Sample.session = true /\
  Transport.events_of_stream
    (Wire.bytes_written
       (foldl Server.apply_op (Server.new_SSEClient "a" None) Sample.session))
  = Wire.events_from "" (omap Wire.sent Sample.session).
Proof.
  split; [reflexivity |].
  apply (receiver_reads_the_records_sent "a" None Sample.session). reflexivity.
Defined.

Lemma string_payload_is_written_verbatim_witness :
  Transport.events_of_stream
    (Server.formatMessage
       {| Server.event := Some "x";
          Server.data := Some (Js.JStr ("hi" +:+ Js.nl +:+ "event: " +:+ "admin"));
          Server.evt_id := None; Server.retry := None |})
  = [{| Transport.me_type := "admin"; Transport.me_data := "hi";
        Transport.me_lastEventId := "" |}].
Proof.
  apply (string_payload_is_written_verbatim (Some "x") None None "hi" "admin");
    reflexivity.
Defined.

Lemma sendToUser_reaches_the_connections_of_the_user_witness :
  (Server.sendToUser "u" Scenario.event_x Scenario.heap3 Scenario.registry3).1
  = Server.Fulfilled /\
  (Server.sendToUser "u" Scenario.event_x Scenario.heap3 Scenario.registry3).2 !! 2%nat
  = Some (Server.send Scenario.event_x
            (Server.new_SSEClient "c" (Some {| Server.opt_userId := Some "u" |}))).2 /\
  (Server.sendToUser "u" Scenario.event_x Scenario.heap3 Scenario.registry3).2 !! 0%nat
  = Scenario.heap3 !! 0%nat.
Proof.
  destruct (sendToUser_reaches_the_connections_of_the_user Scenario.heap3
              Scenario.registry3 "u" Scenario.event_x heap3_reachable)
    as (Hk & Hin & Hout & _).
  split; [exact Hk |]. split.
  - apply (Hin "c"); [vm_compute; reflexivity | reflexivity | reflexivity].
  - apply Hout. intros i c Hi Hc. injection Hc as <-. discriminate.
Defined.

Lemma addClient_twice_witness :
  Server.addClient 1 Scenario.three_clients
    (Server.addClient 1 Scenario.three_clients Server.new_SSEManager)
  = Server.addClient 1 Scenario.three_clients Server.new_SSEManager /\
  Server.clientsCount (Server.addClient 1 Scenario.three_clients Server.new_SSEManager)
  = 1%nat.
Proof.
  destruct (addClient_twice Scenario.three_clients Server.new_SSEManager 1)
    as [Hsame Hcount].
  split; [exact Hsame |].
  rewrite (Hcount (Server.new_SSEClient "b" (Some {| Server.opt_userId := Some "u" |})))
    by reflexivity.
  vm_compute. reflexivity.
Defined.

Lemma addClient_then_removeClient_witness :
  (Server.removeClient "b" Scenario.three_clients
     (Server.addClient 1 Scenario.three_clients Server.new_SSEManager)).2
  = Server.new_SSEManager.
Proof.
  apply (addClient_then_removeClient Scenario.three_clients Server.new_SSEManager 1
           (Server.new_SSEClient "b" (Some {| Server.opt_userId := Some "u" |}))
           three_clients_reachable).
  - reflexivity.
  - vm_compute. reflexivity.
Defined.

Lemma removeClient_closes_the_connection_witness :
  Server.clientsCount (Server.removeClient "c" Scenario.heap3 Scenario.registry3).2
  = pred (Server.clientsCount Scenario.registry3) /\
  (exists c', (Server.removeClient "c" Scenario.heap3 Scenario.registry3).1.2 !! 2%nat
              = Some c' /\ Server.closed c' = true) /\
  (Server.removeClient "c" Scenario.heap3 Scenario.registry3).1.2 !! 0%nat
  = Scenario.heap3 !! 0%nat.
Proof.
  destruct (removeClient_closes_the_connection Scenario.heap3 Scenario.registry3 "c" 2
              (Server.new_SSEClient "c" (Some {| Server.opt_userId := Some "u" |})))
    as (_ & Hcount & (c' & Hc' & Hclosed & _) & Hothers & _).
  - vm_compute. reflexivity.
  - reflexivity.
  - split; [exact Hcount |]. split; [by exists c' |]. apply Hothers. lia.
Defined.

Lemma user_index_follows_the_primary_index_witness :
  (Server.usersCount Scenario.registry3 <= Server.clientsCount Scenario.registry3)%nat /\
  (exists ids, Server.clientIdsByUser Scenario.registry3 !! "u" = Some ids /\ "c" ∈ ids).
Proof.
  destruct (user_index_follows_the_primary_index Scenario.heap3 Scenario.registry3
              heap3_reachable) as (_ & Hin & _ & Hcount).
  split; [exact Hcount |].
  apply (Hin "c" "u" 2%nat
           (Server.new_SSEClient "c" (Some {| Server.opt_userId := Some "u" |}))).
  - vm_compute. reflexivity.
  - reflexivity.
  - reflexivity.
Defined.

Lemma createClient_registers_one_new_connection_witness :
  Server.clientsCount (Server.createClient "d" None Scenario.heap3 Scenario.registry3).2
  = S (Server.clientsCount Scenario.registry3) /\
  Server.reachable (Server.createClient "d" None Scenario.heap3 Scenario.registry3).1.2
    (Server.createClient "d" None Scenario.heap3 Scenario.registry3).2.
Proof.
  destruct (createClient_registers_one_new_connection Scenario.heap3 Scenario.registry3
              "d" None heap3_reachable) as (_ & _ & _ & _ & Hcount & _ & Hreach).
  - cbn. intros H. repeat (apply elem_of_cons in H as [H | H]; [discriminate H |]).
    by apply not_elem_of_nil in H.
  - split; [exact Hcount | exact Hreach].
Defined.

Lemma heartbeat_tick_pings_or_closes_witness :
  Server.closed (Server.heartbeat_tick 5 Scenario.client_b) = true /\
  Server.heartbeat (Server.heartbeat_tick 5 Scenario.client_b) = None /\
  Server.writer (Server.heartbeat_tick 5 Scenario.client_b)
  = Server.writer Scenario.client_b.
Proof.
  destruct (heartbeat_tick_pings_or_closes Scenario.client_b 5) as (_ & Hbroken & _).
  apply Hbroken; [reflexivity | vm_compute; discriminate].
Defined.

Lemma closed_connection_has_released_its_pipe_witness :
  Server.w_status
    (Server.writer (foldl Server.apply_op (Server.new_SSEClient "a" None)
                      Sample.broken_session))
  ≠ Server.Writable.
Proof.
  destruct (closed_connection_has_released_its_pipe "a" None Sample.broken_session)
    as (Hreleased & _).
  apply Hreleased. reflexivity.
Defined.

Lemma connected_x_attached : "x" ∈ Receiver.attached Scenario.connected_x.
Proof.
  assert (Hl : default [] (Receiver.es_listeners <$>
                 Receiver.sources Scenario.connected_x !! 0%nat) = [("x", 0%nat)])
    by (vm_compute; reflexivity).
  assert (He : Receiver.eventSourceRef Scenario.connected_x = Some 0%nat)
    by (vm_compute; reflexivity).
  unfold Receiver.attached. rewrite He, Hl.
  apply elem_of_list_to_set. apply list_elem_of_here.
Qed.


Lemma reconnecting_reachable :
  Receiver.reachable Scenario.url Receiver.default_options Scenario.throws_first
    Sample.reconnecting.
Proof. apply after_reachable. vm_compute. eexists. reflexivity. Qed.

Lemma hook_holds_one_connection_witness :
  Receiver.eventSourceRef Sample.reconnecting = Some 1%nat /\
  (exists src, Receiver.sources Sample.reconnecting !! 0%nat = Some src /\
               Receiver.es_readyState src = Receiver.CLOSED /\
               Receiver.es_listeners src = []).
Proof.
  destruct (hook_holds_one_connection Scenario.url Receiver.default_options
              Scenario.throws_first Sample.reconnecting reconnecting_reachable)
    as (Hlive & _ & Hothers & _).
  assert (Hcur : Receiver.eventSourceRef Sample.reconnecting = Some 1%nat).
  { apply (Hlive 1%nat
             {| Receiver.es_url := Scenario.url; Receiver.es_withCredentials := false;
                Receiver.es_readyState := Receiver.CONNECTING;
                Receiver.es_listeners := [] |}).
    - vm_compute. reflexivity.
    - vm_compute. discriminate. }
  split; [exact Hcur |].
  exists {| Receiver.es_url := Scenario.url; Receiver.es_withCredentials := false;
            Receiver.es_readyState := Receiver.CLOSED; Receiver.es_listeners := [] |}.
  split; [vm_compute; reflexivity |].
  apply (Hothers 0%nat).
  - vm_compute. reflexivity.
  - rewrite Hcur. discriminate.
Defined.


Lemma retry_counter_is_bounded_witness :
  Z.of_nat (Receiver.retryRef Scenario.retrying)
  <= Z.max 0 (Receiver.maxRetries Receiver.default_options).
Proof.
  apply (retry_counter_is_bounded Scenario.url Receiver.default_options
           Scenario.throws_first Scenario.retrying retrying_reachable).
Defined.

Lemma snapshot_connected_means_open_witness :
  Receiver.readyState (Receiver.state Scenario.connected_x) = 1 /\
  exists es src, Receiver.eventSourceRef Scenario.connected_x = Some es /\
                 Receiver.sources Scenario.connected_x !! es = Some src /\
                 Receiver.es_readyState src = Receiver.OPEN.
Proof.
  destruct (snapshot_connected_means_open Scenario.url Receiver.default_options
              Scenario.throws_first Scenario.connected_x connected_x_reachable)
    as (H & _).
  apply H. reflexivity.
Defined.

Lemma named_event_is_delivered_once_witness :
  Receiver.calls (Receiver.log Sample.delivered_x)
  = Receiver.calls (Receiver.log Scenario.connected_x) ++
    ((fun fn => (fn, Lifecycle.handler_args Receiver.default_options Scenario.message_x))
       <$> default [] (Receiver.listenersRef Scenario.connected_x !! "x")).
Proof.
  destruct (named_event_is_delivered_once Scenario.url Receiver.default_options
              Scenario.throws_first Scenario.connected_x Sample.delivered_x 0
              Scenario.message_x connected_x_reachable) as (_ & Hin & _).
  - reflexivity.
  - vm_compute. reflexivity.
  - destruct (Hin connected_x_attached) as (_ & _ & Hcalls). exact Hcalls.
Defined.

Lemma message_event_is_delivered_once_witness :
  Receiver.calls (Receiver.log Sample.delivered_1)
  = Receiver.calls (Receiver.log Scenario.connected_x) ++
    ((fun fn => (fn, Lifecycle.handler_args Receiver.default_options Sample.message_1))
       <$> default [] (Receiver.listenersRef Scenario.connected_x !! "message")).
Proof.
  destruct (message_event_is_delivered_once Scenario.url Receiver.default_options
              Scenario.throws_first Scenario.connected_x Sample.delivered_1 0
              Sample.message_1 connected_x_reachable) as (_ & _ & Hcalls).
  - reflexivity.
  - vm_compute. reflexivity.
  - exact Hcalls.
Defined.

Lemma last_event_id_is_kept_witness :
  is_Some (Receiver.lastEventId
             (Receiver.state (Receiver.disconnect Sample.delivered_1))).
Proof.
  destruct (last_event_id_is_kept Scenario.url Receiver.default_options
              Scenario.throws_first) as [_ Hrun].
  apply (Hrun [Receiver.Disconnect] Sample.delivered_1).
  - reflexivity.
  - vm_compute. eexists. reflexivity.
Defined.

Lemma handlers_outlive_the_connection_witness :
  Receiver.listenersRef Sample.reconnecting
  = Receiver.listenersRef Scenario.connected_x.
Proof.
  apply (handlers_outlive_the_connection Scenario.url Receiver.default_options
           Scenario.throws_first [Receiver.Disconnect; Receiver.Connect]
           Scenario.connected_x Sample.reconnecting connected_x_reachable).
  - reflexivity.
  - vm_compute. reflexivity.
Defined.

Lemma subscribe_then_unsubscribe_witness :
  Receiver.unsubscribe "y" 5%nat (Receiver.addListener "y" 5%nat Scenario.connected_x)
  = Receiver.set_next_dispatch
      (Receiver.next_dispatch (Receiver.addListener "y" 5%nat Scenario.connected_x))
      Scenario.connected_x.
Proof.
  destruct (subscribe_then_unsubscribe Scenario.url Receiver.default_options
              Scenario.throws_first "y" 5%nat Scenario.connected_x connected_x_reachable)
    as [_ H].
  apply H. vm_compute. reflexivity.
Defined.

Lemma disconnect_twice_witness :
  Receiver.disconnect (Receiver.disconnect Scenario.connected_x)
  = Receiver.disconnect Scenario.connected_x.
Proof.
  apply (disconnect_twice Scenario.url Receiver.default_options Scenario.throws_first
           Scenario.connected_x connected_x_reachable).
Defined.


Lemma open_is_published_witness :
  Receiver.connected (Receiver.state Scenario.connected_x) = true /\
  Receiver.retryRef Scenario.connected_x = 0%nat.
Proof.
  destruct (open_is_published Scenario.url Receiver.default_options
              Scenario.throws_first Scenario.connecting_x Scenario.connected_x 0
              connecting_x_reachable connected_x_opened) as (Hstate & Hretry & _).
  split; [by rewrite Hstate | exact Hretry].
Defined.


Lemma query_string_reads_back_witness :
  exists qs,
    Utils.buildUrl (Utils.UrlObject Sample.query_options) = "/api/sse" +:+ "?" +:+ qs /\
    Query.parse_query qs = Some [("a b", "x&y=z"); ("d", "")].
Proof.
  destruct (query_string_reads_back Sample.query_options) as (qs & Hurl & Hparse & _).
  - vm_compute. discriminate.
  - exists qs. split; [exact Hurl | exact Hparse].
Defined.


